(** * Referral network engine: a shallow embedding and its properties

    The JavaScript engine (ReferralNetwork.js, NetworkAnalysis.js,
    InfluencerAnalysis.js, NetworkGrowthSimulation.js and
    BonusOptimization.js) is embedded function by function.

    - A JS [Set] of user ids is a duplicate-free list in insertion order and
      a JS [Map] is an association list in insertion order: both iterate in
      insertion order, and the rankings below observe that order.
    - A JS number that holds a count (a size, a reach, a day index) is a
      [nat] or a [Z]; a JS number that holds a real quantity (a probability,
      a bonus, a cumulative total) is a binary64 [float], which is what a JS
      number is.
    - A [throw] is an explicit result; a loop without a syntactic bound runs
      on fuel, [None] meaning that the fuel ran out.  The graph traversals
      take their fuel from the size of the graph and are proved to return
      within it. *)

From Stdlib Require Import List String ZArith Bool Arith Lia.
From Stdlib Require Import Permutation Sorted.
From Stdlib Require Import Floats.PrimFloat Floats.SpecFloat Floats.FloatOps.
From Stdlib Require Import Floats.FloatAxioms.
Import ListNotations.

Set Warnings "-inexact-float".

#[local] Open Scope string_scope.
#[local] Open Scope list_scope.

(* ===================================================================== *)
(** * Part I: the embedding                                                *)
(* ===================================================================== *)

(** ** JavaScript collections *)

Module Js.

(** [Set.prototype.has] *)
Definition set_has (x : string) (s : list string) : bool :=
  existsb (String.eqb x) s.

(** [Set.prototype.add]: a new member goes last, a known one stays put. *)
Definition set_add (x : string) (s : list string) : list string :=
  if set_has x s then s else s ++ [x].

Section JsMap.
Variable V : Type.

(** [Map.prototype.get] ([None] is [undefined]) *)
Fixpoint map_get (k : string) (m : list (string * V)) : option V :=
  match m with
  | [] => None
  | (k', v) :: rest => if String.eqb k k' then Some v else map_get k rest
  end.

(** [Map.prototype.has] *)
Definition map_has (k : string) (m : list (string * V)) : bool :=
  match map_get k m with Some _ => true | None => false end.

(** [Map.prototype.set]: a known key keeps its position, a new one goes
    last. *)
Fixpoint map_set (k : string) (v : V) (m : list (string * V)) : list (string * V) :=
  match m with
  | [] => [(k, v)]
  | (k', v') :: rest =>
      if String.eqb k k' then (k, v) :: rest else (k', v') :: map_set k v rest
  end.

End JsMap.

Arguments map_get {V} k m.
Arguments map_has {V} k m.
Arguments map_set {V} k v m.

(** [Array.prototype.slice(0, k)]: a negative [k] counts from the end. *)
Definition slice0 {A : Type} (k : Z) (l : list A) : list A :=
  if (0 <=? k)%Z then firstn (Z.to_nat k) l
  else firstn (List.length l - Z.to_nat (- k)) l.

Section Sort.
Variable A : Type.
(** The comparator's sign: [cmp a b <= 0] keeps [a] before [b]. *)
Variable cmp : A -> A -> Z.

Fixpoint sort_insert (x : A) (l : list A) : list A :=
  match l with
  | [] => [x]
  | y :: rest =>
      if (cmp x y <=? 0)%Z then x :: y :: rest else y :: sort_insert x rest
  end.

(** [Array.prototype.sort(cmp)], which is stable (ECMAScript 2019): a
    stable insertion sort, which is what every stable sort computes when
    the comparator ranks by a key. *)
Fixpoint sort (l : list A) : list A :=
  match l with
  | [] => []
  | x :: rest => sort_insert x (sort rest)
  end.

End Sort.

Arguments sort_insert {A} cmp x l.
Arguments sort {A} cmp l.

End Js.

(** ** ReferralNetwork.js *)

Module ReferralNetwork.
Import Js.

(** The three fields of the constructor. *)
Record t : Type := mk {
  referrals : list (string * list string);
  referrers : list (string * string);
  users : list string
}.

Definition empty : t := mk [] [] [].

(** The [Error]s the class throws, by message. *)
Inductive Error : Type :=
| InvalidUserId      (* 'User ID must be a non-empty string' *)
| IdsRequired        (* 'Both referrer and candidate IDs are required' *)
| SelfReferral       (* 'Self-referrals are not allowed' *)
| DuplicateReferrer  (* 'Candidate ... already has a referrer: ...' *)
| CycleDetected      (* 'Adding this referral would create a cycle' *)
| TypeError.         (* a method call on [undefined] *)

(** How a call ends: it returns, or it throws and leaves the object in the
    state it had reached. *)
Inductive Outcome : Type :=
| Returned (g : t)
| Threw (e : Error) (g : t).

Definition state_of (o : Outcome) : t :=
  match o with Returned g => g | Threw _ g => g end.

(** [addUser(userId)]; user ids are strings, so [!userId] is emptiness. *)
Definition addUser (g : t) (userId : string) : Outcome :=
  if String.eqb userId "" then Threw InvalidUserId g
  else
    Returned (mk (if map_has userId (referrals g) then referrals g
                  else map_set userId [] (referrals g))
                 (referrers g)
                 (set_add userId (users g))).

(** The [for (const referral of directReferrals)] loop of [canReach]:
    [None] when it returns [true], else the stack after the pushes.  The
    stack is a list whose head is the top. *)
Fixpoint push_referrals (toUser : string) (directReferrals stack : list string)
  : option (list string) :=
  match directReferrals with
  | [] => Some stack
  | referral :: rest =>
      if String.eqb referral toUser then None
      else push_referrals toUser rest (referral :: stack)
  end.

(** The [while (stack.length > 0)] loop of [canReach]. *)
Fixpoint canReach_loop (fuel : nat) (g : t) (toUser : string)
  (visited stack : list string) : option bool :=
  match fuel with
  | O => None
  | S fuel' =>
      match stack with
      | [] => Some false
      | current :: stack' =>
          if set_has current visited
          then canReach_loop fuel' g toUser visited stack'
          else
            match map_get current (referrals g) with
            | Some directReferrals =>
                match push_referrals toUser directReferrals stack' with
                | None => Some true
                | Some stack'' =>
                    canReach_loop fuel' g toUser (set_add current visited) stack''
                end
            | None => canReach_loop fuel' g toUser (set_add current visited) stack'
            end
      end
  end.

(** The number of recorded referrals, which bounds every traversal. *)
Definition edge_count (g : t) : nat :=
  List.length (List.concat (map snd (referrals g))).

Definition traversal_fuel (g : t) : nat := edge_count g + 2.

(** [canReach(fromUser, toUser)] *)
Definition canReach (g : t) (fromUser toUser : string) : option bool :=
  if String.eqb fromUser toUser then Some true
  else canReach_loop (traversal_fuel g) g toUser [] [fromUser].

(** [wouldCreateCycle(referrerId, candidateId)] *)
Definition wouldCreateCycle (g : t) (referrerId candidateId : string) : option bool :=
  canReach g candidateId referrerId.

(** [addReferral(referrerId, candidateId)] *)
Definition addReferral (g : t) (referrerId candidateId : string) : option Outcome :=
  if String.eqb referrerId "" || String.eqb candidateId ""
  then Some (Threw IdsRequired g)
  else if String.eqb referrerId candidateId
  then Some (Threw SelfReferral g)
  else
    match addUser g referrerId with
    | Threw e g1 => Some (Threw e g1)
    | Returned g1 =>
        match addUser g1 candidateId with
        | Threw e g2 => Some (Threw e g2)
        | Returned g2 =>
            if map_has candidateId (referrers g2)
            then Some (Threw DuplicateReferrer g2)
            else
              match wouldCreateCycle g2 referrerId candidateId with
              | None => None
              | Some true => Some (Threw CycleDetected g2)
              | Some false =>
                  match map_get referrerId (referrals g2) with
                  | None => Some (Threw TypeError g2)
                  | Some candidates =>
                      Some (Returned
                              (mk (map_set referrerId (set_add candidateId candidates)
                                           (referrals g2))
                                  (map_set candidateId referrerId (referrers g2))
                                  (users g2)))
                  end
              end
        end
    end.

(** A sequence of [addReferral] calls in which a caller catches every
    [Error] and carries on with the object as the call left it. *)
Fixpoint addReferrals (g : t) (calls : list (string * string)) : option t :=
  match calls with
  | [] => Some g
  | (referrerId, candidateId) :: rest =>
      match addReferral g referrerId candidateId with
      | None => None
      | Some o => addReferrals (state_of o) rest
      end
  end.

(** [getDirectReferrals(userId)] *)
Definition getDirectReferrals (g : t) (userId : string) : list string :=
  match map_get userId (referrals g) with Some s => s | None => [] end.

(** [getReferrer(userId)] *)
Definition getReferrer (g : t) (userId : string) : option string :=
  map_get userId (referrers g).

(** *** The graph the adjacency map denotes *)

(** [candidate] is among the direct referrals of [referrer]. *)
Definition edge (g : t) (referrer candidate : string) : Prop :=
  exists s, map_get referrer (referrals g) = Some s /\ In candidate s.

(** A directed path of zero or more edges. *)
Inductive path (g : t) : string -> string -> Prop :=
| path_refl : forall x, path g x x
| path_step : forall x y z, edge g x y -> path g y z -> path g x z.

(** A directed path of one or more edges. *)
Definition path1 (g : t) (x z : string) : Prop :=
  exists y, edge g x y /\ path g y z.

(** Invariant 2 of the data model: a candidate has at most one referrer. *)
Definition in_degree_le_1 (g : t) : Prop :=
  forall r1 r2 c, edge g r1 c -> edge g r2 c -> r1 = r2.

(** Invariant 3 of the data model: no node reaches itself. *)
Definition acyclic (g : t) : Prop :=
  forall x, ~ path1 g x x.

(** *** The remaining methods *)

(** [getAllUsers()]: a new [Set] built from [this.users]. *)
Definition getAllUsers (g : t) : list string :=
  fold_left (fun s x => set_add x s) (users g) [].

(** The object [getStats()] returns. *)
Record Stats : Type := mkStats {
  totalUsers : nat;
  totalReferrals : nat;
  usersWithReferrals : nat
}.

(** [getStats()] *)
Definition getStats (g : t) : Stats :=
  mkStats
    (List.length (users g))
    (fold_left (fun sum candidates => sum + List.length candidates)
       (map snd (referrals g)) 0)
    (List.length
       (filter (fun candidates => (0 <? List.length candidates)%nat)
          (map snd (referrals g)))).

(** *** Sequences of calls *)

(** A call of one of the two methods that change the store. *)
Inductive Call : Type :=
| AddUser (userId : string)
| AddReferral (referrerId candidateId : string).

(** A sequence of calls in which the caller catches every [Error] and
    carries on with the object as the call left it. *)
Fixpoint run (g : t) (calls : list Call) : option t :=
  match calls with
  | [] => Some g
  | AddUser userId :: rest => run (state_of (addUser g userId)) rest
  | AddReferral referrerId candidateId :: rest =>
      match addReferral g referrerId candidateId with
      | None => None
      | Some o => run (state_of o) rest
      end
  end.

(** *** Well-formed stores *)

(** What [addUser] and [addReferral] keep of the three fields: no user and
    no key twice, the keys of the adjacency map are the users, every
    candidate set is duplicate-free and made of users, the reverse map
    relates users, and the empty string is no user. *)
Definition wellformed (g : t) : Prop :=
  NoDup (users g) /\
  NoDup (map fst (referrals g)) /\
  NoDup (map fst (referrers g)) /\
  (forall k, map_has k (referrals g) = set_has k (users g)) /\
  (forall k s, map_get k (referrals g) = Some s ->
     NoDup s /\ forall c, In c s -> In c (users g)) /\
  (forall c r, map_get c (referrers g) = Some r ->
     In c (users g) /\ In r (users g)) /\
  ~ In "" (users g).

(** The total of [getStats] counts the entries of the reverse map. *)
Definition counted (g : t) : Prop :=
  totalReferrals (getStats g) = List.length (referrers g).

(** A directed path of exactly [n] edges. *)
Inductive path_len (g : t) : nat -> string -> string -> Prop :=
| path_len_O : forall x, path_len g 0 x x
| path_len_S : forall n x y z,
    path_len g n x y -> edge g y z -> path_len g (S n) x z.

(** [z] is [n] hops away from [x]: [n] edges lead there and fewer do
    not. *)
Definition hops (g : t) (n : nat) (x z : string) : Prop :=
  path_len g n x z /\ forall m, m < n -> ~ path_len g m x z.


(** *** Auxiliary notions of the proofs *)

(** What the loop has established of the nodes it has visited: none of
    them refers [toUser], and their referrals are visited or stacked. *)
Definition explored (g : t) (toUser : string) (visited stack : list string) : Prop :=
  forall v c, In v visited -> edge g v c ->
    c <> toUser /\ (In c visited \/ In c stack).

(** The referrals still to be pushed: those of the keys not yet visited. *)
Fixpoint pending (visited : list string) (m : list (string * list string)) : nat :=
  match m with
  | [] => 0
  | (k, ds) :: rest =>
      (if set_has k visited then 0 else List.length ds) + pending visited rest
  end.

(** The reverse map records exactly the edges, and there is no cycle. *)
Definition consistent (g : t) : Prop :=
  (forall r c, edge g r c <-> map_get c (referrers g) = Some r) /\ acyclic g.

End ReferralNetwork.

(** ** NetworkAnalysis.js *)

Module NetworkAnalysis.
Import Js.

(** The object the analysis methods run on: the three fields of
    [ReferralNetwork] and the two caches that the constructor of the
    subclass [InfluencerAnalysis] adds ([getReachSet] reads
    [this.reachCache], which only that constructor defines). *)
Record t : Type := mk {
  network : ReferralNetwork.t;
  reachCache : list (string * list string);
  distanceCache : list (string * list (string * nat))
}.

(** [new InfluencerAnalysis()] *)
Definition create : t := mk ReferralNetwork.empty [] [].

(** How a call that may throw ends, and the object it leaves. *)
Inductive Outcome : Type :=
| Returned (a : t)
| Threw (e : ReferralNetwork.Error) (a : t).

(** The inherited [addReferral]: it works on the graph fields and leaves
    the caches as they are. *)
Definition addReferral (a : t) (referrerId candidateId : string) : option Outcome :=
  match ReferralNetwork.addReferral (network a) referrerId candidateId with
  | None => None
  | Some (ReferralNetwork.Returned g) =>
      Some (Returned (mk g (reachCache a) (distanceCache a)))
  | Some (ReferralNetwork.Threw e g) =>
      Some (Threw e (mk g (reachCache a) (distanceCache a)))
  end.

(** The [for (const referral of directReferrals)] loop of [calculateReach]:
    the visited set and the queue after it.  The queue is a list whose head
    is the front. *)
Fixpoint enqueue_referrals (directReferrals visited queue : list string)
  : list string * list string :=
  match directReferrals with
  | [] => (visited, queue)
  | referral :: rest =>
      if set_has referral visited then enqueue_referrals rest visited queue
      else enqueue_referrals rest (set_add referral visited) (queue ++ [referral])
  end.

(** The [while (queue.length > 0)] loop of [calculateReach]: the visited set
    at its end. *)
Fixpoint calculateReach_loop (fuel : nat) (g : ReferralNetwork.t)
  (queue visited : list string) : option (list string) :=
  match fuel with
  | O => None
  | S fuel' =>
      match queue with
      | [] => Some visited
      | current :: queue' =>
          match map_get current (ReferralNetwork.referrals g) with
          | Some directReferrals =>
              let '(visited', queue'') :=
                enqueue_referrals directReferrals visited queue' in
              calculateReach_loop fuel' g queue'' visited'
          | None => calculateReach_loop fuel' g queue' visited
          end
      end
  end.

(** [calculateReach(userId)] *)
Definition calculateReach (g : ReferralNetwork.t) (userId : string) : option nat :=
  if set_has userId (ReferralNetwork.users g) then
    match calculateReach_loop (ReferralNetwork.traversal_fuel g) g
            [userId] (set_add userId []) with
    | Some visited => Some (List.length visited - 1)
    | None => None
    end
  else Some 0.

(** The inner loop of [getReachSet]: visited set, queue and reach set. *)
Fixpoint collect_referrals (directReferrals visited queue reachSet : list string)
  : list string * list string * list string :=
  match directReferrals with
  | [] => (visited, queue, reachSet)
  | referral :: rest =>
      if set_has referral visited
      then collect_referrals rest visited queue reachSet
      else collect_referrals rest (set_add referral visited)
             (queue ++ [referral]) (set_add referral reachSet)
  end.

(** The [while] loop of [getReachSet]: the reach set at its end. *)
Fixpoint getReachSet_loop (fuel : nat) (g : ReferralNetwork.t)
  (queue visited reachSet : list string) : option (list string) :=
  match fuel with
  | O => None
  | S fuel' =>
      match queue with
      | [] => Some reachSet
      | current :: queue' =>
          match map_get current (ReferralNetwork.referrals g) with
          | Some directReferrals =>
              let '(visited', queue'', reachSet') :=
                collect_referrals directReferrals visited queue' reachSet in
              getReachSet_loop fuel' g queue'' visited' reachSet'
          | None => getReachSet_loop fuel' g queue' visited reachSet
          end
      end
  end.

(** [getReachSet(userId)]: the set returned and the object afterwards. *)
Definition getReachSet (a : t) (userId : string) : option (list string * t) :=
  match map_get userId (reachCache a) with
  | Some cached => Some (cached, a)
  | None =>
      if set_has userId (ReferralNetwork.users (network a)) then
        match getReachSet_loop (ReferralNetwork.traversal_fuel (network a))
                (network a) [userId] [userId] [] with
        | Some reachSet =>
            Some (reachSet,
                  mk (network a) (map_set userId reachSet (reachCache a))
                     (distanceCache a))
        | None => None
        end
      else Some ([], a)
  end.

(** An entry [{ userId, reach }] of the ranking. *)
Record UserReach : Type := mkUserReach { userId : string; reach : nat }.

(** The [for (const userId of this.users)] loop of
    [getTopReferrersByReach]. *)
Fixpoint userReachPairs (g : ReferralNetwork.t) (us : list string)
  : option (list UserReach) :=
  match us with
  | [] => Some []
  | u :: rest =>
      match calculateReach g u, userReachPairs g rest with
      | Some r, Some pairs =>
          Some (if (0 <? r)%nat then mkUserReach u r :: pairs else pairs)
      | _, _ => None
      end
  end.

(** The comparator [(a, b) => b.reach - a.reach]. *)
Definition byReachDesc (a b : UserReach) : Z :=
  (Z.of_nat (reach b) - Z.of_nat (reach a))%Z.

(** [getTopReferrersByReach(k)] *)
Definition getTopReferrersByReach (g : ReferralNetwork.t) (k : Z)
  : option (list UserReach) :=
  match userReachPairs g (ReferralNetwork.users g) with
  | Some pairs => Some (slice0 k (sort byReachDesc pairs))
  | None => None
  end.

(** *** [getUsersAtDepth] *)

(** The [for (const referral of directReferrals)] loop of
    [getUsersAtDepth]: the next level and the visited set after it. *)
Fixpoint level_referrals (directReferrals nextLevel visited : list string)
  : list string * list string :=
  match directReferrals with
  | [] => (nextLevel, visited)
  | referral :: rest =>
      if set_has referral visited then level_referrals rest nextLevel visited
      else level_referrals rest (set_add referral nextLevel)
             (set_add referral visited)
  end.

(** The [for (const userId of currentLevel)] loop. *)
Fixpoint next_level (g : ReferralNetwork.t)
  (currentLevel nextLevel visited : list string) : list string * list string :=
  match currentLevel with
  | [] => (nextLevel, visited)
  | userId :: rest =>
      match map_get userId (ReferralNetwork.referrals g) with
      | Some directReferrals =>
          let '(nextLevel', visited') :=
            level_referrals directReferrals nextLevel visited in
          next_level g rest nextLevel' visited'
      | None => next_level g rest nextLevel visited
      end
  end.

(** The [for (let level = 0; level < depth; level++)] loop, [n] being the
    levels left. *)
Fixpoint descend (n : nat) (g : ReferralNetwork.t)
  (currentLevel visited : list string) : list string :=
  match n with
  | O => currentLevel
  | S n' =>
      let '(nextLevel, visited') := next_level g currentLevel [] visited in
      descend n' g nextLevel visited'
  end.

(** [getUsersAtDepth(rootUserId, depth)] for a whole number [depth]. *)
Definition getUsersAtDepth (g : ReferralNetwork.t) (rootUserId : string)
  (depth : Z) : list string :=
  if negb (set_has rootUserId (ReferralNetwork.users g)) || (depth <? 1)%Z
  then []
  else descend (Z.to_nat depth) g [rootUserId] [rootUserId].


(** *** Auxiliary notions of the proofs *)

(** Every recorded candidate, with repetitions. *)
Definition children (g : ReferralNetwork.t) : list string :=
  List.concat (map snd (ReferralNetwork.referrals g)).

(** How many entries of [l] are not visited yet. *)
Definition unvisited (visited l : list string) : nat :=
  List.length (filter (fun x => negb (set_has x visited)) l).

(** The reach of a user as a plain number ([calculateReach] always
    returns, see [calculateReach_returns]). *)
Definition reach_of (g : ReferralNetwork.t) (u : string) : nat :=
  match calculateReach g u with Some r => r | None => 0 end.

(** The entries of the ranking before sorting: the users of positive
    reach, in the order of [this.users]. *)
Definition candidates (g : ReferralNetwork.t) : list UserReach :=
  filter (fun p => (0 <? reach p)%nat)
    (map (fun u => mkUserReach u (reach_of g u)) (ReferralNetwork.users g)).


(** The set [getReachSet] returns for a user. *)
Definition reachSetOf (a : t) (u : string) : list string :=
  match getReachSet a u with Some (s, _) => s | None => [] end.


End NetworkAnalysis.

(** ** InfluencerAnalysis.js *)

Module InfluencerAnalysis.
Import Js.

Definition t : Type := NetworkAnalysis.t.

(** A JS number that holds a count, as the binary64 value it is. *)
Definition float_of_nat (n : nat) : float :=
  PrimFloat.of_uint63 (Uint63Axioms.of_Z (Z.of_nat n)).

(** [new Set(array)] *)
Definition set_of_list (l : list string) : list string :=
  fold_left (fun s x => set_add x s) l [].

(** The first loop of [calculateUniqueReachExpansion]: the reach sets of
    the users with a nonempty one, those users in the order of
    [this.users], and the object afterwards ([getReachSet] fills the
    cache). *)
Fixpoint collectReachSets (a : t) (us : list string)
  (userReachSets : list (string * list string)) (activeReferrers : list string)
  : option (list (string * list string) * list string * t) :=
  match us with
  | [] => Some (userReachSets, activeReferrers, a)
  | userId :: rest =>
      match NetworkAnalysis.getReachSet a userId with
      | None => None
      | Some (reachSet, a') =>
          if (0 <? List.length reachSet)%nat
          then collectReachSets a' rest (map_set userId reachSet userReachSets)
                 (activeReferrers ++ [userId])
          else collectReachSets a' rest userReachSets activeReferrers
      end
  end.

(** [new Set([...reachSet].filter(user => !globalCoveredSet.has(user)))];
    every active referrer has its reach set in the map. *)
Definition newUsersOf (userReachSets : list (string * list string))
  (globalCoveredSet : list string) (referrer : string) : list string :=
  match map_get referrer userReachSets with
  | Some reachSet =>
      set_of_list (filter (fun user => negb (set_has user globalCoveredSet)) reachSet)
  | None => []
  end.

(** The [for (const referrer of activeReferrers)] loop: the best referrer
    so far, its coverage and its new users. *)
Fixpoint findBest (userReachSets : list (string * list string))
  (globalCoveredSet activeReferrers : list string)
  (best : option string * nat * list string) : option string * nat * list string :=
  match activeReferrers with
  | [] => best
  | referrer :: rest =>
      let newUsers := newUsersOf userReachSets globalCoveredSet referrer in
      let '(_, bestNewCoverage, _) := best in
      if (bestNewCoverage <? List.length newUsers)%nat
      then findBest userReachSets globalCoveredSet rest
             (Some referrer, List.length newUsers, newUsers)
      else findBest userReachSets globalCoveredSet rest best
  end.

(** An entry of [selectedReferrers]. *)
Record Selection : Type := mkSelection {
  userId : string;
  uniqueContribution : nat;
  totalReach : nat;
  newUsersCovered : list string
}.

(** [activeReferrers.splice(activeReferrers.indexOf(x), 1)] *)
Fixpoint remove_first (x : string) (l : list string) : list string :=
  match l with
  | [] => []
  | y :: rest => if String.eqb x y then rest else y :: remove_first x rest
  end.

Definition totalReachOf (userReachSets : list (string * list string))
  (referrer : string) : nat :=
  match map_get referrer userReachSets with
  | Some reachSet => List.length reachSet
  | None => 0
  end.

(** The greedy [for] loop, [budget] being the iterations that
    [i < maxReferrers] still allows: the selections and the covered set. *)
Fixpoint select (budget : nat) (userReachSets : list (string * list string))
  (activeReferrers globalCoveredSet : list string) (selectedReferrers : list Selection)
  : list Selection * list string :=
  match budget with
  | O => (selectedReferrers, globalCoveredSet)
  | S budget' =>
      match activeReferrers with
      | [] => (selectedReferrers, globalCoveredSet)
      | _ :: _ =>
          match findBest userReachSets globalCoveredSet activeReferrers (None, 0, []) with
          | (Some bestReferrer, bestNewCoverage, bestNewUsers) =>
              if (bestNewCoverage =? 0)%nat
              then (selectedReferrers, globalCoveredSet)
              else
                select budget' userReachSets
                  (remove_first bestReferrer activeReferrers)
                  (fold_left (fun s user => set_add user s) bestNewUsers globalCoveredSet)
                  (selectedReferrers ++
                     [mkSelection bestReferrer bestNewCoverage
                        (totalReachOf userReachSets bestReferrer) bestNewUsers])
          | (None, _, _) => (selectedReferrers, globalCoveredSet)
          end
      end
  end.

(** The object [calculateUniqueReachExpansion] returns. *)
Record Expansion : Type := mkExpansion {
  selectedReferrers : list Selection;
  totalUniqueCoverage : nat;
  efficiency : float
}.

Definition expansion_of (r : list Selection * list string) : Expansion :=
  let '(selected, covered) := r in
  mkExpansion selected (List.length covered)
    (if (0 <? List.length selected)%nat
     then (float_of_nat (List.length covered) / float_of_nat (List.length selected))%float
     else 0%float).

(** [calculateUniqueReachExpansion(maxReferrers)] *)
Definition calculateUniqueReachExpansion (a : t) (maxReferrers : Z)
  : option (Expansion * t) :=
  match collectReachSets a (ReferralNetwork.users (NetworkAnalysis.network a)) [] [] with
  | None => None
  | Some (userReachSets, activeReferrers, a') =>
      Some (expansion_of
              (select (Z.to_nat maxReferrers) userReachSets activeReferrers [] []),
            a')
  end.

(** *** The selection, in the words of the specification *)

(** The users that [u] would newly cover. *)
Definition newUsersFrom (reachSets : string -> list string)
  (covered : list string) (u : string) : list string :=
  set_of_list (filter (fun user => negb (set_has user covered)) (reachSets u)).

(** The marginal contribution of [u]. *)
Definition marginal (reachSets : string -> list string)
  (covered : list string) (u : string) : nat :=
  List.length (newUsersFrom reachSets covered u).

(** The covered set after a selection. *)
Definition cover (newUsers covered : list string) : list string :=
  fold_left (fun s user => set_add user s) newUsers covered.

(** Greedy maximum coverage over the referrers [active], listed in the
    order they entered [this.users]: with budget left, the selected
    referrer has the largest marginal contribution, which is not zero, and
    is the first of those with that contribution; the selection stops when
    the budget is spent or nobody contributes.  The last index is the
    covered set at the end. *)
Inductive greedy (reachSets : string -> list string)
  : nat -> list string -> list string -> list Selection -> list string -> Prop :=
| greedy_no_budget : forall active covered,
    greedy reachSets 0 active covered [] covered
| greedy_no_gain : forall budget active covered,
    (forall u, In u active -> marginal reachSets covered u = 0) ->
    greedy reachSets (S budget) active covered [] covered
| greedy_pick : forall budget before best after covered rest final,
    0 < marginal reachSets covered best ->
    (forall u, In u before ->
       marginal reachSets covered u < marginal reachSets covered best) ->
    (forall u, In u after ->
       marginal reachSets covered u <= marginal reachSets covered best) ->
    greedy reachSets budget (remove_first best (before ++ best :: after))
      (cover (newUsersFrom reachSets covered best) covered) rest final ->
    greedy reachSets (S budget) (before ++ best :: after) covered
      (mkSelection best (marginal reachSets covered best)
         (List.length (reachSets best)) (newUsersFrom reachSets covered best)
       :: rest)
      final.


(** The referrers with a nonempty reach set, in the order of
    [this.users]. *)
Definition activeReferrersOf (a : t) : list string :=
  filter (fun u => (0 <? List.length (NetworkAnalysis.reachSetOf a u))%nat)
    (ReferralNetwork.users (NetworkAnalysis.network a)).

(** What the inner loop knows of the referrers [seen] so far. *)
Definition best_so_far (reachSets : string -> list string)
  (covered seen : list string) (best : option string * nat * list string) : Prop :=
  match best with
  | (None, coverage, _) =>
      coverage = 0 /\ forall u, In u seen -> marginal reachSets covered u = 0
  | (Some x, coverage, newUsers) =>
      coverage = marginal reachSets covered x /\
      0 < coverage /\
      newUsers = newUsersFrom reachSets covered x /\
      exists before after,
        seen = before ++ x :: after /\
        (forall u, In u before ->
           marginal reachSets covered u < marginal reachSets covered x) /\
        (forall u, In u after ->
           marginal reachSets covered u <= marginal reachSets covered x)
  end.


(** The [for (const neighbor of neighbors)] loop of
    [computeAllPairsDistances]. *)
Fixpoint enqueue_neighbors (neighbors : list string) (distance : nat)
  (visited : list string) (queue : list (string * nat))
  : list string * list (string * nat) :=
  match neighbors with
  | [] => (visited, queue)
  | neighbor :: rest =>
      if set_has neighbor visited
      then enqueue_neighbors rest distance visited queue
      else enqueue_neighbors rest distance (set_add neighbor visited)
             (queue ++ [(neighbor, S distance)])
  end.

(** The [while] loop of [computeAllPairsDistances]: the distances from one
    source. *)
Fixpoint distances_loop (fuel : nat) (g : ReferralNetwork.t)
  (queue : list (string * nat)) (visited : list string)
  (sourceDistances : list (string * nat)) : option (list (string * nat)) :=
  match fuel with
  | O => None
  | S fuel' =>
      match queue with
      | [] => Some sourceDistances
      | (current, distance) :: queue' =>
          let neighbors :=
            match map_get current (ReferralNetwork.referrals g) with
            | Some s => s
            | None => []
            end in
          let '(visited', queue'') :=
            enqueue_neighbors neighbors distance visited queue' in
          distances_loop fuel' g queue'' visited'
            (map_set current distance sourceDistances)
      end
  end.

(** The [for (const source of this.users)] loop. *)
Fixpoint distances_from (g : ReferralNetwork.t) (sources : list string)
  (distances : list (string * list (string * nat)))
  : option (list (string * list (string * nat))) :=
  match sources with
  | [] => Some distances
  | source :: rest =>
      match distances_loop (ReferralNetwork.traversal_fuel g) g
              [(source, 0)] (set_add source []) [] with
      | None => None
      | Some sourceDistances =>
          distances_from g rest (map_set source sourceDistances distances)
      end
  end.

(** [computeAllPairsDistances()]: the matrix and the object afterwards. *)
Definition computeAllPairsDistances (a : t)
  : option (list (string * list (string * nat)) * t) :=
  if (0 <? List.length (NetworkAnalysis.distanceCache a))%nat
  then Some (NetworkAnalysis.distanceCache a, a)
  else
    match distances_from (NetworkAnalysis.network a)
            (ReferralNetwork.users (NetworkAnalysis.network a)) [] with
    | None => None
    | Some distances =>
        Some (distances,
              NetworkAnalysis.mk (NetworkAnalysis.network a)
                (NetworkAnalysis.reachCache a) distances)
    end.

(** *** The state of the distance traversal *)

(** Every entry of a queue segment carries the distance [d]. *)
Definition labelled (d : nat) (segment : list (string * nat)) : Prop :=
  Forall (fun entry => snd entry = d) segment.

(** The queue holds the users at the distance [d] of its head, then users
    one edge further; every user within [d] edges of the source is
    visited, and every user [d + 1] edges away is visited or is a referral
    of a user still queued at distance [d]. *)
Definition frontier (g : ReferralNetwork.t) (source : string)
  (queue : list (string * nat)) (visited : list string) : Prop :=
  match queue with
  | [] => True
  | (v, d) :: rest =>
      (exists near far,
         rest = near ++ far /\ labelled d near /\ labelled (S d) far /\
         forall x, ReferralNetwork.path_len g (S d) source x ->
           In x visited \/
           exists u, In (u, d) ((v, d) :: near) /\ ReferralNetwork.edge g u x) /\
      (forall x n, n <= d -> ReferralNetwork.path_len g n source x -> In x visited)
  end.

(** What the [while] loop of [computeAllPairsDistances] maintains for one
    source: queued and recorded distances are exact, the referrals of a
    recorded user are visited, and a visited user is recorded or queued. *)
Definition distances_invariant (g : ReferralNetwork.t) (source : string)
  (queue : list (string * nat)) (visited : list string)
  (sourceDistances : list (string * nat)) : Prop :=
  In source visited /\
  (forall v k, In (v, k) queue -> ReferralNetwork.hops g k source v) /\
  (forall v k, map_get v sourceDistances = Some k ->
     ReferralNetwork.hops g k source v /\
     forall c, ReferralNetwork.edge g v c -> In c visited) /\
  (forall x, In x visited ->
     (exists k, map_get x sourceDistances = Some k) \/
     (exists k, In (x, k) queue)) /\
  frontier g source queue visited.

(** A row of the matrix is right when it records exactly the distances
    from its source. *)
Definition exact_row (g : ReferralNetwork.t) (source : string)
  (row : option (list (string * nat))) : Prop :=
  exists r, row = Some r /\
    forall x k, map_get x r = Some k <-> ReferralNetwork.hops g k source x.

(** [distances.get(x)?.get(y)] *)
Definition distance (distances : list (string * list (string * nat)))
  (x y : string) : option nat :=
  match map_get x distances with
  | Some row => map_get y row
  | None => None
  end.

(** The [for (const broker of allUsers)] loop; every broker has a score,
    all of them being initialised to 0. *)
Fixpoint score_brokers (distances : list (string * list (string * nat)))
  (source target : string) (directDistance : nat) (brokers : list string)
  (centralityScores : list (string * nat)) : list (string * nat) :=
  match brokers with
  | [] => centralityScores
  | broker :: rest =>
      if String.eqb broker source || String.eqb broker target
      then score_brokers distances source target directDistance rest centralityScores
      else
        match distance distances source broker, distance distances broker target with
        | Some distSourceToBroker, Some distBrokerToTarget =>
            if (distSourceToBroker + distBrokerToTarget =? directDistance)%nat
            then score_brokers distances source target directDistance rest
                   (match map_get broker centralityScores with
                    | Some score => map_set broker (score + 1) centralityScores
                    | None => centralityScores
                    end)
            else score_brokers distances source target directDistance rest centralityScores
        | _, _ => score_brokers distances source target directDistance rest centralityScores
        end
  end.

(** The [for (let j = i + 1; ...)] loop: the targets are the users after
    the source. *)
Fixpoint score_targets (distances : list (string * list (string * nat)))
  (allUsers : list string) (source : string) (targets : list string)
  (centralityScores : list (string * nat)) : list (string * nat) :=
  match targets with
  | [] => centralityScores
  | target :: rest =>
      match distance distances source target with
      | None => score_targets distances allUsers source rest centralityScores
      | Some directDistance =>
          score_targets distances allUsers source rest
            (score_brokers distances source target directDistance allUsers centralityScores)
      end
  end.

(** The [for (let i = 0; ...)] loop. *)
Fixpoint score_sources (distances : list (string * list (string * nat)))
  (allUsers sources : list string) (centralityScores : list (string * nat))
  : list (string * nat) :=
  match sources with
  | [] => centralityScores
  | source :: rest =>
      score_sources distances allUsers rest
        (score_targets distances allUsers source rest centralityScores)
  end.

(** An entry of the ranking of brokers. *)
Record Broker : Type := mkBroker {
  brokerId : string;
  centralityScore : nat;
  normalizedScore : float
}.

Definition byScoreDesc (a b : Broker) : Z :=
  (Z.of_nat (centralityScore b) - Z.of_nat (centralityScore a))%Z.

Definition initial_scores (allUsers : list string) : list (string * nat) :=
  fold_left (fun scores user => map_set user 0 scores) allUsers [].

Definition broker_of (n : nat) (entry : string * nat) : Broker :=
  mkBroker (fst entry) (snd entry)
    (if (2 <? n)%nat
     then (float_of_nat (snd entry) / float_of_nat ((n - 1) * (n - 2)))%float
     else 0%float).

(** [calculateFlowCentrality(topK)] *)
Definition calculateFlowCentrality (a : t) (topK : Z) : option (list Broker * t) :=
  let allUsers := ReferralNetwork.users (NetworkAnalysis.network a) in
  match computeAllPairsDistances a with
  | None => None
  | Some (distances, a') =>
      let centralityScores :=
        score_sources distances allUsers allUsers (initial_scores allUsers) in
      Some (slice0 topK
              (sort byScoreDesc
                 (filter (fun broker => (0 <? centralityScore broker)%nat)
                    (map (broker_of (List.length allUsers)) centralityScores))),
            a')
  end.

(** [clearCaches()] *)
Definition clearCaches (a : t) : t :=
  NetworkAnalysis.mk (NetworkAnalysis.network a) [] [].

(** The reach cache holds no stale entry: what it holds for a user is what
    [getReachSet] computes for that user once the caches are cleared. *)
Definition cache_current (a : t) : Prop :=
  forall u cached,
    map_get u (NetworkAnalysis.reachCache a) = Some cached ->
    NetworkAnalysis.reachSetOf (clearCaches a) u = cached.

End InfluencerAnalysis.

(** ** JavaScript numbers *)

Module JsMath.
#[local] Open Scope float_scope.

(** [Math.min] of two numbers. *)
Definition min (x y : float) : float :=
  if is_nan x || is_nan y then nan
  else if x <? y then x
  else if y <? x then y
  else if get_sign x then x else y.

(** [Math.max] of two numbers. *)
Definition max (x y : float) : float :=
  if is_nan x || is_nan y then nan
  else if y <? x then x
  else if x <? y then y
  else if get_sign x then y else x.

Definition float_of_Z (z : Z) : float :=
  PrimFloat.of_uint63 (Uint63Axioms.of_Z z).

(** [Math.ceil]: a finite [x] is [(-1)^s * m * 2^e]; with [e < 0] its
    integer part is [m] shifted right by [-e], which is below [2^53]. *)
Definition ceil (x : float) : float :=
  match Prim2SF x with
  | S754_finite s m e =>
      if (0 <=? e)%Z then x
      else
        let q := Z.shiftr (Zpos m) (- e) in
        let exact := (Z.shiftl q (- e) =? Zpos m)%Z in
        if s then (if (q =? 0)%Z then neg_zero else - float_of_Z q)
        else float_of_Z (if exact then q else q + 1)
  | _ => x
  end.

(** A number used as a count or an index. *)
Inductive Integral : Type :=
| Int (z : Z)
| Infinite (negative : bool)
| NotANumber.

(** The count an integer-valued number stands for. *)
Definition to_integral (x : float) : Integral :=
  match Prim2SF x with
  | S754_nan => NotANumber
  | S754_infinity s => Infinite s
  | S754_zero _ => Int 0
  | S754_finite s m e =>
      let a := if (0 <=? e)%Z then Z.shiftl (Zpos m) e else Z.shiftr (Zpos m) (- e) in
      Int (if s then - a else a)
  end.

(** [x || 0] for a number or [undefined]. *)
Definition or_zero (x : option float) : float :=
  match x with
  | Some v => if is_nan v || is_zero v then 0 else v
  | None => 0
  end.

(** [array[i]], [None] being [undefined]. *)
Definition index {A : Type} (l : list A) (i : Z) : option A :=
  if (i <? 0)%Z then None else nth_error l (Z.to_nat i).

End JsMath.

(** ** NetworkGrowthSimulation.js *)

Module NetworkGrowthSimulation.
#[local] Open Scope float_scope.

Definition INITIAL_REFERRERS : float := 100.
Definition MAX_REFERRALS_PER_USER : float := 10.

Inductive Error : Type :=
| ProbabilityOutOfRange  (* 'Probability must be between 0 and 1' *)
| DaysOutOfRange.        (* 'Days must be between 0 and 10000' *)

(** The [for (let day = 1; day <= days; day++)] loop, [n] being the days
    left. *)
Fixpoint simulate_loop (n : nat) (p activeReferrers cumulativeReferrals : float)
  : list float :=
  match n with
  | O => []
  | S n' =>
      let expectedDailyReferrals := activeReferrers * p in
      let cumulativeReferrals := cumulativeReferrals + expectedDailyReferrals in
      let referralsToday := expectedDailyReferrals in
      let referrersBecomingInactive :=
        JsMath.min activeReferrers (referralsToday / MAX_REFERRALS_PER_USER) in
      let newActiveReferrers := referralsToday in
      let activeReferrers :=
        JsMath.max 0 (activeReferrers - referrersBecomingInactive + newActiveReferrers) in
      cumulativeReferrals :: simulate_loop n' p activeReferrers cumulativeReferrals
  end.

(** [simulate(p, days)] for a whole number of days. *)
Definition simulate (p : float) (days : Z) : Error + list float :=
  if (p <? 0) || (1 <? p) then inl ProbabilityOutOfRange
  else if (days <? 0)%Z || (10000 <? days)%Z then inl DaysOutOfRange
  else inr (simulate_loop (Z.to_nat days) p INITIAL_REFERRERS 0).

(** [simulate(p, days)] for the number a computation produced. *)
Definition simulate_at (p : float) (days : JsMath.Integral) : Error + list float :=
  match days with
  | JsMath.Int z => simulate p z
  | JsMath.Infinite _ =>
      if (p <? 0) || (1 <? p) then inl ProbabilityOutOfRange else inl DaysOutOfRange
  | JsMath.NotANumber =>
      if (p <? 0) || (1 <? p) then inl ProbabilityOutOfRange else inr []
  end.

(** A sequence of totals that never goes down, [<=] being the comparison
    of JS numbers. *)
Definition non_decreasing (results : list float) : Prop :=
  forall i x y,
    nth_error results i = Some x ->
    nth_error results (S i) = Some y ->
    (x <=? y) = true.

(** What [daysToTarget] and its helpers produce. *)
Inductive DaysResult : Type :=
| Days (d : Z)
| Unreachable            (* [Infinity] *)
| Threw (e : Error).

(** The [while (cumulativeReferrals < targetTotal)] loop of
    [linearSearchDays]. *)
Fixpoint linearSearchDays_loop (fuel : nat) (p targetTotal : float) (day : Z)
  (activeReferrers cumulativeReferrals : float) : option DaysResult :=
  match fuel with
  | O => None
  | S fuel' =>
      if cumulativeReferrals <? targetTotal then
        let expectedDailyReferrals := activeReferrers * p in
        let cumulativeReferrals := cumulativeReferrals + expectedDailyReferrals in
        if targetTotal <=? cumulativeReferrals then Some (Days day)
        else
          let referralsToday := expectedDailyReferrals in
          let referrersBecomingInactive :=
            JsMath.min activeReferrers (referralsToday / MAX_REFERRALS_PER_USER) in
          let newActiveReferrers := referralsToday in
          let activeReferrers :=
            JsMath.max 0 (activeReferrers - referrersBecomingInactive + newActiveReferrers) in
          let day := (day + 1)%Z in
          if (20000 <? day)%Z then Some Unreachable
          else linearSearchDays_loop fuel' p targetTotal day activeReferrers
                 cumulativeReferrals
      else Some (Days (day - 1))
  end.

(** [linearSearchDays(p, targetTotal)]; the day counter ends the loop
    within 20000 rounds. *)
Definition linearSearchDays (p targetTotal : float) : option DaysResult :=
  linearSearchDays_loop (Z.to_nat 20001) p targetTotal 1 INITIAL_REFERRERS 0.

(** [results[i] < targetTotal], false when [results[i]] is [undefined]. *)
Definition below (results : list float) (i : Z) (targetTotal : float) : bool :=
  match JsMath.index results i with
  | Some v => v <? targetTotal
  | None => false
  end.

(** [results[i] >= targetTotal], false when [results[i]] is [undefined]. *)
Definition reaches (results : list float) (i : Z) (targetTotal : float) : bool :=
  match JsMath.index results i with
  | Some v => targetTotal <=? v
  | None => false
  end.

(** The [while (highSimulation[high - 1] < targetTotal)] loop of
    [binarySearchDays]: the bound it settles on. *)
Fixpoint raise_high (fuel : nat) (p targetTotal : float) (high : Z)
  (highSimulation : list float) : option (DaysResult + Z) :=
  match fuel with
  | O => None
  | S fuel' =>
      if below highSimulation (high - 1) targetTotal then
        let high := (high * 2)%Z in
        if (200000 <? high)%Z then Some (inl Unreachable)
        else
          match simulate p high with
          | inl e => Some (inl (Threw e))
          | inr highSimulation => raise_high fuel' p targetTotal high highSimulation
          end
      else Some (inr high)
  end.

(** The [while (low < high)] loop of [binarySearchDays]. *)
Fixpoint narrow (fuel : nat) (p targetTotal : float) (low high : Z)
  : option DaysResult :=
  match fuel with
  | O => None
  | S fuel' =>
      if (low <? high)%Z then
        let mid := ((low + high) / 2)%Z in
        match simulate p mid with
        | inl e => Some (Threw e)
        | inr results =>
            if (0 <? List.length results)%nat && reaches results (mid - 1) targetTotal
            then narrow fuel' p targetTotal low mid
            else narrow fuel' p targetTotal (mid + 1)%Z high
        end
      else Some (Days low)
  end.

(** [binarySearchDays(p, targetTotal)].  Past the first [simulate] the
    bound is a whole number of days; the doubling stops within 18 rounds
    (200000 is below 2^18) and the halving within [high] rounds. *)
Definition binarySearchDays (p targetTotal : float) : option DaysResult :=
  let high :=
    JsMath.to_integral
      (JsMath.ceil (targetTotal / (INITIAL_REFERRERS * p)) + 100) in
  match simulate_at p high with
  | inl e => Some (Threw e)
  | inr highSimulation =>
      match high with
      | JsMath.Int high =>
          match raise_high 19 p targetTotal high highSimulation with
          | None => None
          | Some (inl r) => Some r
          | Some (inr high) => narrow (Z.to_nat high + 1) p targetTotal 1 high
          end
      | _ => Some (Days 1)
      end
  end.

(** [daysToTarget(p, targetTotal)] *)
Definition daysToTarget (p targetTotal : float) : option DaysResult :=
  if p <=? 0 then Some Unreachable
  else if targetTotal <=? 0 then Some (Days 0)
  else if targetTotal <? 1000 then linearSearchDays p targetTotal
  else binarySearchDays p targetTotal.

End NetworkGrowthSimulation.

(** ** BonusOptimization.js *)

Module BonusOptimization.
Import NetworkGrowthSimulation.
#[local] Open Scope float_scope.

(** [results[results.length - 1] || 0] *)
Definition finalHires (results : list float) : float :=
  JsMath.or_zero (JsMath.index results (Z.of_nat (List.length results) - 1)).

(** The [for (let i = 0; i < maxIterations; i++)] loop of
    [findMaxSearchBonus], [n] being the iterations left; [None] is
    [null]. *)
Fixpoint findMaxSearchBonus_loop (n : nat) (adoptionProb : float -> float)
  (targetHires : float) (days : Z) (testBonus : float) : Error + option float :=
  match n with
  | O => inr None
  | S n' =>
      let probability := adoptionProb testBonus in
      if 0.99 <=? probability then
        match simulate probability days with
        | inl e => inl e
        | inr results =>
            if targetHires <=? finalHires results then inr (Some testBonus)
            else inr None
        end
      else
        match simulate probability days with
        | inl e => inl e
        | inr results =>
            if targetHires <=? finalHires results then inr (Some testBonus)
            else
              let testBonus := testBonus * 2 in
              if 100000 <? testBonus then inr None
              else findMaxSearchBonus_loop n' adoptionProb targetHires days testBonus
        end
  end.

(** [findMaxSearchBonus(adoptionProb, targetHires, days)] *)
Definition findMaxSearchBonus (adoptionProb : float -> float)
  (targetHires : float) (days : Z) : Error + option float :=
  findMaxSearchBonus_loop 20 adoptionProb targetHires days 10.

(** The [while (high - low > eps)] loop of [minBonusForTarget]: the best
    bonus found. *)
Fixpoint minBonus_loop (fuel : nat) (days : Z) (targetHires : float)
  (adoptionProb : float -> float) (eps low high : float) (bestBonus : option float)
  : option (Error + option float) :=
  match fuel with
  | O => None
  | S fuel' =>
      if eps <? high - low then
        let mid := (low + high) / 2 in
        let probability := adoptionProb mid in
        match simulate probability days with
        | inl e => Some (inl e)
        | inr results =>
            if targetHires <=? finalHires results
            then minBonus_loop fuel' days targetHires adoptionProb eps low mid (Some mid)
            else minBonus_loop fuel' days targetHires adoptionProb eps mid high bestBonus
        end
      else Some (inr bestBonus)
  end.

(** [minBonusForTarget(days, targetHires, adoptionProb, eps)]; the source
    bounds its search loop by [eps] alone, so the rounds allowed are a
    parameter here. *)
Definition minBonusForTarget (fuel : nat) (days : Z) (targetHires : float)
  (adoptionProb : float -> float) (eps : float) : option (Error + option float) :=
  if (days <=? 0)%Z || (targetHires <=? 0) then Some (inr None)
  else
    match findMaxSearchBonus adoptionProb targetHires days with
    | inl e => Some (inl e)
    | inr None => Some (inr None)
    | inr (Some maxBonus) =>
        match minBonus_loop fuel days targetHires adoptionProb eps 0 maxBonus None with
        | None => None
        | Some (inl e) => Some (inl e)
        | Some (inr None) => Some (inr None)
        | Some (inr (Some bestBonus)) =>
            Some (inr (Some (JsMath.ceil (bestBonus / 10) * 10)))
        end
    end.

(** *** Two adoption functions, nondecreasing and into [0, 1] *)

(** [bonus => Math.min(bonus / 10, 1)] *)
Definition capped_linear (bonus : float) : float :=
  JsMath.min (bonus / 10) 1.

(** [bonus => Math.min(0.5 + bonus / 1000, 1)] *)
Definition half_and_up (bonus : float) : float :=
  JsMath.min (0.5 + bonus / 1000) 1.

End BonusOptimization.

(* ===================================================================== *)
(** * Part II: properties                                                  *)
(* ===================================================================== *)


(** ** JavaScript collections *)

Module JsFacts.
Import Js.

Lemma set_has_In (x : string) (s : list string) :
  set_has x s = true <-> In x s.
Proof.
  unfold set_has. rewrite existsb_exists. split.
  - intros [y [Hy He]]. apply String.eqb_eq in He. now subst.
  - intros H. exists x. split; [assumption | apply String.eqb_refl].
Qed.

Lemma set_has_false (x : string) (s : list string) :
  set_has x s = false <-> ~ In x s.
Proof.
  rewrite <- set_has_In. destruct (set_has x s); split; congruence.
Qed.

Lemma set_add_In (x y : string) (s : list string) :
  In y (set_add x s) <-> y = x \/ In y s.
Proof.
  unfold set_add. destruct (set_has x s) eqn:E.
  - apply set_has_In in E. split; [tauto | intros [-> | H]; assumption].
  - rewrite in_app_iff. simpl. split; intros H; intuition (subst; auto).
Qed.

Lemma set_add_new (x : string) (s : list string) :
  set_has x s = false -> set_add x s = s ++ [x].
Proof. unfold set_add. now intros ->. Qed.

Section MapFacts.
Variable V : Type.
Implicit Types (m : list (string * V)) (k : string) (v : V).

Lemma map_get_set_same k v m : map_get k (map_set k v m) = Some v.
Proof.
  induction m as [| [k' v'] m IH]; simpl.
  - now rewrite String.eqb_refl.
  - destruct (String.eqb k k') eqn:E; simpl; rewrite ?String.eqb_refl, ?E; auto.
Qed.

Lemma map_get_set_other k k' v m :
  k' <> k -> map_get k' (map_set k v m) = map_get k' m.
Proof.
  intros Hne. induction m as [| [k0 v0] m IH]; simpl.
  - apply String.eqb_neq in Hne. now rewrite Hne.
  - destruct (String.eqb k k0) eqn:E; simpl.
    + apply String.eqb_eq in E. subst k0.
      apply String.eqb_neq in Hne. now rewrite Hne.
    + now rewrite IH.
Qed.

Lemma map_has_false k m : map_has k m = false <-> map_get k m = None.
Proof. unfold map_has. destruct (map_get k m); split; congruence. Qed.

Lemma map_has_true k m : map_has k m = true <-> exists v, map_get k m = Some v.
Proof.
  unfold map_has. destruct (map_get k m); split; try congruence; eauto.
  intros [v H]. discriminate.
Qed.

End MapFacts.

(** *** [Array.prototype.sort] with a comparator on a numeric key *)

Section SortFacts.
Variable A : Type.
Variable cmp : A -> A -> Z.
Variable key : A -> nat.
(** The comparator ranks by descending key. *)
Hypothesis cmp_key : forall x y, (cmp x y <=? 0)%Z = (key y <=? key x)%nat.

Lemma sort_insert_perm x l : Permutation (sort_insert cmp x l) (x :: l).
Proof.
  induction l as [| y l IH]; simpl; [reflexivity |].
  destruct (cmp x y <=? 0)%Z; [reflexivity |].
  rewrite IH. apply perm_swap.
Qed.

Lemma sort_perm l : Permutation (sort cmp l) l.
Proof.
  induction l as [| x l IH]; simpl; [reflexivity |].
  rewrite sort_insert_perm. now constructor.
Qed.

Lemma sort_insert_sorted x l :
  StronglySorted (fun a b => key b <= key a) l ->
  StronglySorted (fun a b => key b <= key a) (sort_insert cmp x l).
Proof.
  induction 1 as [| y l Hs IH Hy]; simpl.
  - constructor; constructor.
  - rewrite cmp_key. destruct (key y <=? key x)%nat eqn:E.
    + apply Nat.leb_le in E. constructor; [constructor; assumption |].
      constructor; [exact E |].
      eapply Forall_impl; [| exact Hy]. simpl. intros z Hz. lia.
    + apply Nat.leb_gt in E. constructor; [assumption |].
      eapply Permutation_Forall; [symmetry; apply sort_insert_perm |].
      constructor; [lia | assumption].
Qed.

Lemma sort_sorted l : StronglySorted (fun a b => key b <= key a) (sort cmp l).
Proof.
  induction l as [| x l IH]; simpl; [constructor | now apply sort_insert_sorted].
Qed.



End SortFacts.

Lemma slice0_firstn (A : Type) (k : Z) (l : list A) :
  (0 <= k)%Z -> slice0 k l = firstn (Z.to_nat k) l.
Proof.
  intros Hk. unfold slice0. apply Z.leb_le in Hk. now rewrite Hk.
Qed.


End JsFacts.

(** ** The referral graph *)

Module GraphProofs.
Import Js JsFacts ReferralNetwork.

Create HintDb graph discriminated.
#[local] Hint Constructors path : graph.

(** *** Paths *)

Lemma path_trans g x y z : path g x y -> path g y z -> path g x z.
Proof. induction 1; eauto with graph. Qed.

Lemma path_last g x z :
  path g x z -> x = z \/ exists v, path g x v /\ edge g v z.
Proof.
  induction 1 as [x | x y z Hxy Hyz IH].
  - now left.
  - right. destruct IH as [-> | [v [Hyv Hvz]]].
    + exists x. split; [constructor | assumption].
    + exists v. split; [econstructor; eassumption | assumption].
Qed.

(** A set closed under the edges holds every node its members reach. *)
Lemma closed_path g (S : list string) x z :
  (forall v c, In v S -> edge g v c -> In c S) ->
  path g x z -> In x S -> In z S.
Proof. intros Hcl. induction 1; eauto. Qed.

(** A path of a graph with one more edge [r -> c] is a path of the graph,
    or goes through the new edge: then the graph leads from its start to
    [r] and from [c] to its end. *)
Lemma path_extend g g' r c x z :
  (forall a b, edge g' a b -> edge g a b \/ (a = r /\ b = c)) ->
  path g' x z ->
  path g x z \/ (path g x r /\ path g c z).
Proof.
  intros Hedge. induction 1 as [x | x y z Hxy Hyz IH].
  - left. constructor.
  - destruct (Hedge _ _ Hxy) as [Hold | [-> ->]].
    + destruct IH as [IH | [IH1 IH2]].
      * left. econstructor; eassumption.
      * right. split; [econstructor; eassumption | assumption].
    + destruct IH as [IH | [IH1 IH2]].
      * right. split; [constructor | assumption].
      * right. split; [constructor | assumption].
Qed.

Lemma acyclic_extend g g' r c :
  (forall a b, edge g' a b -> edge g a b \/ (a = r /\ b = c)) ->
  acyclic g -> ~ path g c r -> acyclic g'.
Proof.
  intros Hedge Hac Hno x [y [Hxy Hyx]].
  destruct (path_extend _ _ _ _ _ _ Hedge Hyx) as [Hold | [H1 H2]];
    destruct (Hedge _ _ Hxy) as [Hxy' | [-> ->]].
  - apply (Hac x). exists y. split; assumption.
  - apply Hno. assumption.
  - apply Hno. apply path_trans with x; [assumption |].
    econstructor; eassumption.
  - apply Hno. assumption.
Qed.

(** *** [canReach] finds every path *)

Lemma push_referrals_some toUser ds stack stack' :
  push_referrals toUser ds stack = Some stack' ->
  (forall d, In d ds -> d <> toUser) /\
  (forall x, In x stack' <-> In x ds \/ In x stack) /\
  List.length stack' = List.length ds + List.length stack.
Proof.
  revert stack. induction ds as [| d ds IH]; simpl; intros stack H.
  - injection H as <-.
    split; [intros d [] | split; [intros x; tauto | reflexivity]].
  - destruct (String.eqb d toUser) eqn:E; [discriminate |].
    apply String.eqb_neq in E.
    destruct (IH _ H) as [Hne [Hin Hlen]].
    split; [| split].
    + intros d' [<- | Hd]; auto.
    + intros x. rewrite Hin. simpl. tauto.
    + rewrite Hlen. simpl. lia.
Qed.

Lemma canReach_loop_false g toUser fuel :
  forall visited stack,
    canReach_loop fuel g toUser visited stack = Some false ->
    explored g toUser visited stack ->
    exists closed,
      incl visited closed /\ incl stack closed /\ explored g toUser closed [].
Proof.
  induction fuel as [| fuel IH]; simpl; intros visited stack Hrun Hinv;
    [discriminate |].
  destruct stack as [| current stack'].
  - exists visited. split; [apply incl_refl | split; [intros x [] | exact Hinv]].
  - destruct (set_has current visited) eqn:Hvis.
    + apply set_has_In in Hvis.
      destruct (IH visited stack' Hrun) as [closed [Hv [Hs Hc]]].
      * intros v c Hv Hvc.
        destruct (Hinv _ _ Hv Hvc) as [Hne [Hin | [<- | Hin]]]; auto.
      * exists closed. split; [assumption | split; [| assumption]].
        intros x [<- | Hx]; auto.
    + assert (Hcur : In current (set_add current visited))
        by (apply set_add_In; now left).
      assert (Hsub : incl visited (set_add current visited))
        by (intros x Hx; apply set_add_In; now right).
      destruct (map_get current (referrals g)) as [ds |] eqn:Hget.
      * destruct (push_referrals toUser ds stack') as [stack'' |] eqn:Hpush;
          [| discriminate].
        destruct (push_referrals_some _ _ _ _ Hpush) as [Hne [Hin _]].
        destruct (IH _ _ Hrun) as [closed [Hv [Hs Hc]]].
        -- intros v c Hv Hvc. apply set_add_In in Hv. destruct Hv as [-> | Hv].
           ++ destruct Hvc as [s [Hs Hc]]. rewrite Hget in Hs.
              injection Hs as <-. split; [auto |]. right. apply Hin. now left.
           ++ destruct (Hinv _ _ Hv Hvc) as [Hne' [Hc | [<- | Hc]]];
                (split; [assumption |]); auto.
              right. apply Hin. now right.
        -- exists closed. split; [| split; [| assumption]].
           ++ eapply incl_tran; eassumption.
           ++ intros x [<- | Hx]; [auto |]. apply Hs, Hin. now right.
      * destruct (IH _ _ Hrun) as [closed [Hv [Hs Hc]]].
        -- intros v c Hv Hvc. apply set_add_In in Hv. destruct Hv as [-> | Hv].
           ++ destruct Hvc as [s [Hs _]]. congruence.
           ++ destruct (Hinv _ _ Hv Hvc) as [Hne' [Hc | [<- | Hc]]];
                (split; [assumption |]); auto.
        -- exists closed. split; [| split; [| assumption]].
           ++ eapply incl_tran; eassumption.
           ++ intros x [<- | Hx]; auto.
Qed.

Lemma canReach_false_no_path g fromUser toUser :
  canReach g fromUser toUser = Some false -> ~ path g fromUser toUser.
Proof.
  unfold canReach. destruct (String.eqb fromUser toUser) eqn:E; [discriminate |].
  apply String.eqb_neq in E. intros Hrun Hpath.
  destruct (canReach_loop_false g toUser _ [] [fromUser] Hrun)
    as [closed [_ [Hs Hc]]].
  - intros v c [].
  - destruct (path_last _ _ _ Hpath) as [-> | [v [Hv Hvt]]]; [congruence |].
    assert (Hin : In v closed).
    { apply closed_path with (g := g) (x := fromUser); auto.
      - intros a b Ha Hab. destruct (Hc _ _ Ha Hab) as [_ [? | []]]. assumption.
      - apply Hs. now left. }
    destruct (Hc _ _ Hin Hvt) as [Hne _]. congruence.
Qed.

(** *** [canReach] returns *)

Lemma pending_le_edges visited m :
  pending visited m <= List.length (List.concat (map snd m)).
Proof.
  induction m as [| [k ds] m IH]; simpl; [lia |].
  rewrite length_app. destruct (set_has k visited); lia.
Qed.

Lemma pending_visit_le current visited m :
  pending (set_add current visited) m <= pending visited m.
Proof.
  induction m as [| [k ds] m IH]; simpl; [lia |].
  destruct (set_has k visited) eqn:E.
  - assert (set_has k (set_add current visited) = true) as ->.
    { apply set_has_In, set_add_In. right. now apply set_has_In. }
    lia.
  - destruct (set_has k (set_add current visited)); lia.
Qed.

Lemma pending_visit current visited m ds :
  map_get current m = Some ds ->
  set_has current visited = false ->
  List.length ds + pending (set_add current visited) m <= pending visited m.
Proof.
  intros Hget Hvis. induction m as [| [k ds'] m IH]; simpl in *; [discriminate |].
  destruct (String.eqb current k) eqn:E.
  - apply String.eqb_eq in E. subst k. injection Hget as ->.
    rewrite Hvis.
    assert (set_has current (set_add current visited) = true) as ->.
    { apply set_has_In, set_add_In. now left. }
    pose proof (pending_visit_le current visited m). lia.
  - specialize (IH Hget).
    destruct (set_has k visited) eqn:Ek.
    + assert (set_has k (set_add current visited) = true) as ->.
      { apply set_has_In, set_add_In. right. now apply set_has_In. }
      lia.
    + destruct (set_has k (set_add current visited)); lia.
Qed.

Lemma canReach_loop_returns g toUser fuel :
  forall visited stack,
    List.length stack + pending visited (referrals g) < fuel ->
    exists b, canReach_loop fuel g toUser visited stack = Some b.
Proof.
  induction fuel as [| fuel IH]; simpl; intros visited stack Hlt; [lia |].
  destruct stack as [| current stack']; [eauto |]. simpl in Hlt.
  destruct (set_has current visited) eqn:Hvis.
  - apply IH. lia.
  - destruct (map_get current (referrals g)) as [ds |] eqn:Hget.
    + pose proof (pending_visit _ _ _ _ Hget Hvis).
      destruct (push_referrals toUser ds stack') as [stack'' |] eqn:Hpush;
        [| eauto].
      destruct (push_referrals_some _ _ _ _ Hpush) as [_ [_ Hlen]].
      apply IH. lia.
    + pose proof (pending_visit_le current visited (referrals g)).
      apply IH. lia.
Qed.

Lemma canReach_returns g fromUser toUser :
  exists b, canReach g fromUser toUser = Some b.
Proof.
  unfold canReach. destruct (String.eqb fromUser toUser); [eauto |].
  apply canReach_loop_returns. unfold traversal_fuel, edge_count. simpl.
  pose proof (pending_le_edges [] (referrals g)). lia.
Qed.

(** *** [addUser] adds no edge *)

Lemma addUser_edge g userId o x y :
  addUser g userId = o -> (edge (state_of o) x y <-> edge g x y).
Proof.
  unfold addUser. intros <-.
  destruct (String.eqb userId ""); simpl; [tauto |].
  unfold edge. simpl.
  destruct (map_has userId (referrals g)) eqn:Hhas; [tauto |].
  apply map_has_false in Hhas.
  destruct (String.eqb_spec x userId) as [-> | Hne].
  - rewrite map_get_set_same, Hhas. split; intros [s [Hs Hin]].
    + injection Hs as <-. destruct Hin.
    + discriminate.
  - rewrite map_get_set_other by assumption. tauto.
Qed.

Lemma addUser_referrers g userId o :
  addUser g userId = o -> referrers (state_of o) = referrers g.
Proof.
  unfold addUser. intros <-. destruct (String.eqb userId ""); reflexivity.
Qed.

Lemma addUser_has_key g userId g' :
  addUser g userId = Returned g' ->
  exists s, map_get userId (referrals g') = Some s.
Proof.
  unfold addUser. destruct (String.eqb userId ""); [discriminate |].
  intros H. injection H as <-. simpl.
  destruct (map_has userId (referrals g)) eqn:Hhas.
  - now apply map_has_true in Hhas.
  - rewrite map_get_set_same. eauto.
Qed.

Lemma addUser_keeps_key g userId o k s :
  addUser g userId = o ->
  map_get k (referrals g) = Some s ->
  map_get k (referrals (state_of o)) = Some s.
Proof.
  unfold addUser. intros <- Hk. destruct (String.eqb userId ""); simpl; auto.
  destruct (map_has userId (referrals g)) eqn:Hhas; auto.
  apply map_has_false in Hhas.
  rewrite map_get_set_other; auto. congruence.
Qed.

(** *** The invariant of the store *)

Lemma consistent_empty : consistent empty.
Proof.
  split.
  - intros r c. unfold edge. simpl. split; [intros [s [H _]] | intros H]; discriminate.
  - intros x [y [[s [H _]] _]]. discriminate.
Qed.

Lemma path_same_edges g g' x z :
  (forall a b, edge g' a b <-> edge g a b) -> path g' x z -> path g x z.
Proof.
  intros He. induction 1; [constructor |].
  econstructor; [apply He |]; eassumption.
Qed.

Lemma consistent_same_edges g g' :
  (forall a b, edge g' a b <-> edge g a b) ->
  referrers g' = referrers g ->
  consistent g -> consistent g'.
Proof.
  intros He Hr [Hrev Hac]. split.
  - intros r c. rewrite He, Hr. apply Hrev.
  - intros x [y [Hxy Hyx]]. apply (Hac x). exists y. split.
    + now apply He.
    + eapply path_same_edges; eassumption.
Qed.

Lemma consistent_in_degree g : consistent g -> in_degree_le_1 g.
Proof.
  intros [Hrev _] r1 r2 c H1 H2.
  apply Hrev in H1, H2. congruence.
Qed.

(** The edges after an accepted referral. *)
Lemma accepted_edges g referrerId candidateId candidates refs us x y :
  map_get referrerId (referrals g) = Some candidates ->
  edge (mk (map_set referrerId (set_add candidateId candidates) (referrals g)) refs us) x y
  <-> edge g x y \/ (x = referrerId /\ y = candidateId).
Proof.
  intros Hget. unfold edge. simpl.
  destruct (String.eqb_spec x referrerId) as [-> | Hne].
  - rewrite map_get_set_same, Hget. split.
    + intros [s [Hs Hin]]. injection Hs as <-.
      apply set_add_In in Hin. destruct Hin as [-> | Hin]; eauto.
    + intros [[s [Hs Hin]] | [_ ->]].
      * injection Hs as <-. eexists. split; [reflexivity |].
        apply set_add_In. now right.
      * eexists. split; [reflexivity |]. apply set_add_In. now left.
  - rewrite map_get_set_other by assumption. split; [tauto |].
    intros [H | [H _]]; [assumption | contradiction].
Qed.

Lemma addReferral_returns g referrerId candidateId :
  exists o, addReferral g referrerId candidateId = Some o.
Proof.
  unfold addReferral, wouldCreateCycle.
  destruct (_ || _); [eauto |].
  destruct (String.eqb referrerId candidateId); [eauto |].
  destruct (addUser g referrerId) as [g1 | e g1]; [| eauto].
  destruct (addUser g1 candidateId) as [g2 | e g2]; [| eauto].
  destruct (map_has candidateId (referrers g2)); [eauto |].
  destruct (canReach_returns g2 candidateId referrerId) as [[|] ->]; [eauto |].
  destruct (map_get referrerId (referrals g2)); eauto.
Qed.

Lemma addUser_consistent g userId o :
  addUser g userId = o -> consistent g -> consistent (state_of o).
Proof.
  intros H Hg. eapply consistent_same_edges; [ | | exact Hg].
  - intros a b. apply (addUser_edge _ _ _ a b H).
  - apply (addUser_referrers _ _ _ H).
Qed.

Lemma addReferral_consistent g referrerId candidateId o :
  consistent g ->
  addReferral g referrerId candidateId = Some o ->
  consistent (state_of o).
Proof.
  intros Hg. unfold addReferral, wouldCreateCycle.
  destruct (_ || _); [intros H; injection H as <-; assumption |].
  destruct (String.eqb referrerId candidateId);
    [intros H; injection H as <-; assumption |].
  pose proof (addUser_consistent g referrerId _ eq_refl Hg) as Hg1.
  destruct (addUser g referrerId) as [g1 | e g1];
    [| intros H; injection H as <-; assumption].
  simpl in Hg1.
  pose proof (addUser_consistent g1 candidateId _ eq_refl Hg1) as Hg2.
  destruct (addUser g1 candidateId) as [g2 | e g2];
    [| intros H; injection H as <-; assumption].
  simpl in Hg2.
  destruct (map_has candidateId (referrers g2)) eqn:Hhas;
    [intros H; injection H as <-; assumption |].
  destruct (canReach g2 candidateId referrerId) as [[|] |] eqn:Hreach;
    [intros H; injection H as <-; assumption | | discriminate].
  destruct (map_get referrerId (referrals g2)) as [candidates |] eqn:Hget;
    [| intros H; injection H as <-; assumption].
  intros H; injection H as <-. simpl.
  apply map_has_false in Hhas. destruct Hg2 as [Hrev Hac].
  split.
  - intros r c. rewrite (accepted_edges _ _ _ _ _ _ _ _ Hget). simpl.
    destruct (String.eqb_spec c candidateId) as [-> | Hne].
    + rewrite map_get_set_same, Hrev, Hhas. split.
      * intros [H | [-> _]]; [discriminate | reflexivity].
      * intros H. injection H as ->. now right.
    + rewrite map_get_set_other by assumption. rewrite Hrev. split; [| tauto].
      intros [H | [_ H]]; [assumption | contradiction].
  - eapply acyclic_extend with (g := g2) (r := referrerId) (c := candidateId).
    + intros a b Hab. apply (accepted_edges _ _ _ _ _ _ _ _ Hget) in Hab. exact Hab.
    + assumption.
    + now apply canReach_false_no_path.
Qed.

Lemma addReferrals_consistent calls :
  forall g, consistent g ->
    exists g', addReferrals g calls = Some g' /\ consistent g'.
Proof.
  induction calls as [| [referrerId candidateId] calls IH]; simpl; intros g Hg.
  - eauto.
  - destruct (addReferral_returns g referrerId candidateId) as [o Ho].
    rewrite Ho. apply IH. eapply addReferral_consistent; eassumption.
Qed.

(** C1. Every sequence of [addReferral] calls on an empty store, accepted
    or rejected, runs to its end and leaves a graph in which every
    candidate has at most one referrer and no node reaches itself through
    one or more edges. *)
Theorem addReferrals_invariants (calls : list (string * string)) :
  exists g,
    addReferrals empty calls = Some g /\ in_degree_le_1 g /\ acyclic g.
Proof.
  destruct (addReferrals_consistent calls empty consistent_empty) as [g [Hrun Hg]].
  exists g. split; [assumption |]. split.
  - now apply consistent_in_degree.
  - apply Hg.
Qed.


(** *** Rejected calls *)

(** A rejected call adds no edge and records no referrer. *)
Lemma addReferral_rejected_graph g referrerId candidateId e g' :
  addReferral g referrerId candidateId = Some (Threw e g') ->
  (forall x y, edge g' x y <-> edge g x y) /\ referrers g' = referrers g.
Proof.
  unfold addReferral, wouldCreateCycle.
  destruct (_ || _); [intros H; injection H as <- <-; split; [tauto | reflexivity] |].
  destruct (String.eqb referrerId candidateId);
    [intros H; injection H as <- <-; split; [tauto | reflexivity] |].
  pose proof (fun x y => addUser_edge g referrerId _ x y eq_refl) as He1.
  pose proof (addUser_referrers g referrerId _ eq_refl) as Hr1.
  destruct (addUser g referrerId) as [g1 | e1 g1]; simpl in He1, Hr1;
    [| intros H; injection H as <- <-; split; assumption].
  pose proof (fun x y => addUser_edge g1 candidateId _ x y eq_refl) as He2.
  pose proof (addUser_referrers g1 candidateId _ eq_refl) as Hr2.
  assert (Hboth : forall g2, (forall x y, edge g2 x y <-> edge g1 x y) ->
                    referrers g2 = referrers g1 ->
                    (forall x y, edge g2 x y <-> edge g x y) /\
                    referrers g2 = referrers g).
  { intros g2 He Hr. split; [| congruence].
    intros x y. rewrite He. apply He1. }
  destruct (addUser g1 candidateId) as [g2 | e2 g2]; simpl in He2, Hr2;
    [| intros H; injection H as <- <-; auto].
  destruct (map_has candidateId (referrers g2));
    [intros H; injection H as <- <-; auto |].
  destruct (canReach g2 candidateId referrerId) as [[|] |];
    [intros H; injection H as <- <-; auto | | discriminate].
  destruct (map_get referrerId (referrals g2)); [discriminate |].
  intros H; injection H as <- <-; auto.
Qed.

(** C2. After [addReferral("a", "b")], the call [addReferral("c", "b")] is
    rejected for the duplicate referrer, yet it leaves "c" in the user set
    and in the adjacency map: the two [addUser] calls run before the
    checks. *)
Theorem addReferral_duplicate_rejection_mutates :
  exists g g',
    addReferral empty "a" "b" = Some (Returned g) /\
    addReferral g "c" "b" = Some (Threw DuplicateReferrer g') /\
    users g = ["a"; "b"] /\
    users g' = ["a"; "b"; "c"] /\
    referrals g = [("a", ["b"]); ("b", [])] /\
    referrals g' = [("a", ["b"]); ("b", []); ("c", [])] /\
    g' <> g.
Proof.
  do 2 eexists.
  split; [vm_compute; reflexivity |].
  split; [vm_compute; reflexivity |].
  repeat (split; [reflexivity |]).
  discriminate.
Qed.


End GraphProofs.


(** ** Reach *)

Module ReachProofs.
Import Js JsFacts ReferralNetwork NetworkAnalysis.
Import GraphProofs.

(** *** The traversals return *)

Lemma map_get_children (m : list (string * list string)) k ds :
  map_get k m = Some ds -> incl ds (List.concat (map snd m)).
Proof.
  induction m as [| [k' ds'] m IH]; simpl; [discriminate |].
  destruct (String.eqb k k').
  - intros H. injection H as ->. apply incl_appl, incl_refl.
  - intros H. apply incl_appr. auto.
Qed.

Lemma unvisited_add_le x visited l :
  unvisited (set_add x visited) l <= unvisited visited l.
Proof.
  unfold unvisited. induction l as [| y l IH]; simpl; [lia |].
  destruct (set_has y visited) eqn:E; simpl.
  - assert (set_has y (set_add x visited) = true) as ->.
    { apply set_has_In, set_add_In. right. now apply set_has_In. }
    simpl. lia.
  - destruct (set_has y (set_add x visited)); simpl; lia.
Qed.

Lemma unvisited_add_lt x visited l :
  In x l -> set_has x visited = false ->
  unvisited (set_add x visited) l < unvisited visited l.
Proof.
  unfold unvisited. intros Hin Hx. induction l as [| y l IH]; simpl; [destruct Hin |].
  pose proof (unvisited_add_le x visited l) as Hle. unfold unvisited in Hle.
  destruct Hin as [-> | Hin].
  - rewrite Hx. simpl.
    assert (set_has x (set_add x visited) = true) as ->.
    { apply set_has_In, set_add_In. now left. }
    simpl. lia.
  - specialize (IH Hin).
    destruct (set_has y visited) eqn:E; simpl.
    + assert (set_has y (set_add x visited) = true) as ->.
      { apply set_has_In, set_add_In. right. now apply set_has_In. }
      simpl. lia.
    + destruct (set_has y (set_add x visited)); simpl; lia.
Qed.

Lemma unvisited_le_length visited l : unvisited visited l <= List.length l.
Proof. unfold unvisited. apply filter_length_le. Qed.

Lemma enqueue_referrals_measure univ ds :
  incl ds univ ->
  forall visited queue visited' queue',
    enqueue_referrals ds visited queue = (visited', queue') ->
    List.length queue' + unvisited visited' univ
    <= List.length queue + unvisited visited univ.
Proof.
  induction ds as [| d ds IH]; simpl; intros Hincl visited queue visited' queue' H.
  - injection H as <- <-. lia.
  - assert (Hd : In d univ) by (apply Hincl; now left).
    assert (Hds : incl ds univ) by (intros x Hx; apply Hincl; now right).
    destruct (set_has d visited) eqn:E.
    + eapply IH; eassumption.
    + specialize (IH Hds _ _ _ _ H).
      pose proof (unvisited_add_lt d visited univ Hd E).
      rewrite length_app in IH. simpl in IH. lia.
Qed.

Lemma calculateReach_loop_returns g fuel :
  forall queue visited,
    List.length queue + unvisited visited (children g) < fuel ->
    exists v, calculateReach_loop fuel g queue visited = Some v.
Proof.
  induction fuel as [| fuel IH]; simpl; intros queue visited Hlt; [lia |].
  destruct queue as [| current queue']; [eauto |]. simpl in Hlt.
  destruct (map_get current (referrals g)) as [ds |] eqn:Hget.
  - destruct (enqueue_referrals ds visited queue') as [visited' queue''] eqn:He.
    pose proof (enqueue_referrals_measure (children g) ds
                  (map_get_children _ _ _ Hget) _ _ _ _ He).
    apply IH. lia.
  - apply IH. lia.
Qed.



(** *** The traversal visits exactly the users reachable *)

Lemma enqueue_referrals_spec ds :
  forall visited queue visited' queue',
    enqueue_referrals ds visited queue = (visited', queue') ->
    (forall x, In x visited' <-> In x visited \/ In x ds) /\
    (forall x, In x queue' <-> In x queue \/ (In x ds /\ ~ In x visited)) /\
    (NoDup visited -> NoDup visited').
Proof.
  induction ds as [| d ds IH]; cbn [enqueue_referrals];
    intros visited queue visited' queue' H.
  - injection H as <- <-. split; [| split]; [| | auto]; intros x; simpl; tauto.
  - destruct (set_has d visited) eqn:E.
    + apply set_has_In in E. destruct (IH _ _ _ _ H) as [Hv [Hq Hn]].
      split; [| split]; [| | assumption]; intros x.
      * rewrite Hv. simpl. split; [tauto |].
        intros [? | [<- | ?]]; tauto.
      * rewrite Hq. simpl. split; [tauto |].
        intros [? | [[<- | ?] ?]]; tauto.
    + pose proof E as Hnew. apply set_has_false in Hnew.
      rewrite (set_add_new _ _ E) in H.
      destruct (IH _ _ _ _ H) as [Hv [Hq Hn]].
      split; [| split]; [intros x | intros x |].
      * rewrite Hv, in_app_iff. simpl. tauto.
      * rewrite Hq, !in_app_iff. simpl.
        destruct (string_dec d x) as [<- | Hne]; [tauto |]. tauto.
      * intros Hnd. apply Hn.
        apply NoDup_app; [assumption | repeat constructor; intros [] |].
        intros x Hx [<- | []]. contradiction.
Qed.

(** What the breadth-first loop maintains: every visited user is reachable
    from the start, every queued user is visited, and a visited user is
    still queued or has all its referrals visited. *)
Lemma calculateReach_loop_visits g userId fuel :
  forall queue visited result,
    calculateReach_loop fuel g queue visited = Some result ->
    (forall x, In x visited -> path g userId x) ->
    (forall x, In x queue -> In x visited) ->
    (forall v, In v visited ->
       In v queue \/ forall c, edge g v c -> In c visited) ->
    NoDup visited ->
    incl visited result /\
    (forall x, In x result -> path g userId x) /\
    (forall v c, In v result -> edge g v c -> In c result) /\
    NoDup result.
Proof.
  induction fuel as [| fuel IH]; simpl;
    intros queue visited result Hrun Hsound Hqueue Hdone Hnd; [discriminate |].
  destruct queue as [| current queue'].
  - injection Hrun as <-. split; [apply incl_refl |]. split; [assumption |].
    split; [| assumption].
    intros v c Hv Hvc. destruct (Hdone _ Hv) as [[] | Hcl]. eauto.
  - assert (Hcur : In current visited) by (apply Hqueue; now left).
    destruct (map_get current (referrals g)) as [ds |] eqn:Hget.
    + destruct (enqueue_referrals ds visited queue') as [visited' queue''] eqn:He.
      destruct (enqueue_referrals_spec _ _ _ _ _ He) as [Hv [Hq Hn]].
      destruct (IH _ _ _ Hrun) as [Hincl Hrest]; [ | | | auto | ].
      * intros x Hx. apply Hv in Hx. destruct Hx as [Hx | Hx]; [auto |].
        apply path_trans with current; [auto |].
        apply path_step with x; [| apply path_refl].
        exists ds. split; assumption.
      * intros x Hx. apply Hv. apply Hq in Hx.
        destruct Hx as [Hx | [Hx _]]; [left; apply Hqueue; now right | now right].
      * intros v Hv'. apply Hv in Hv'.
        destruct (in_dec string_dec v visited) as [Hold | Hnew].
        -- destruct (Hdone _ Hold) as [[<- | Hin] | Hcl].
           ++ right. intros c [s [Hs Hc]]. rewrite Hget in Hs.
              injection Hs as <-. apply Hv. now right.
           ++ left. apply Hq. now left.
           ++ right. intros c Hc. apply Hv. left. eauto.
        -- left. apply Hq. right. split; [tauto | assumption].
      * split; [| assumption].
        intros x Hx. apply Hincl, Hv. now left.
    + apply (IH _ _ _ Hrun); auto.
      * intros x Hx. apply Hqueue. now right.
      * intros v Hv. destruct (Hdone _ Hv) as [[<- | Hin] | Hcl]; auto.
        right. intros c [s [Hs _]]. congruence.
Qed.

Lemma calculateReach_loop_reachable g userId visited :
  calculateReach_loop (traversal_fuel g) g [userId] [userId] = Some visited ->
  NoDup visited /\ forall x, In x visited <-> path g userId x.
Proof.
  intros Hrun.
  destruct (calculateReach_loop_visits g userId _ _ _ _ Hrun)
    as [Hincl [Hsound [Hclosed Hnd]]].
  - intros x [<- | []]. apply path_refl.
  - auto.
  - intros v [<- | []]. left. now left.
  - repeat constructor. intros [].
  - split; [assumption |]. intros x. split; [apply Hsound |].
    intros Hpath. apply GraphProofs.closed_path with (g := g) (x := userId); auto.
    apply Hincl. now left.
Qed.


(** *** The two traversals agree *)

(** With the start user first in the visited set and the reach set the rest
    of it, the inner loops keep that shape. *)
Lemma collect_enqueue userId ds :
  forall reachSet queue,
    exists reachSet' queue',
      enqueue_referrals ds (userId :: reachSet) queue
      = (userId :: reachSet', queue') /\
      collect_referrals ds (userId :: reachSet) queue reachSet
      = (userId :: reachSet', queue', reachSet').
Proof.
  induction ds as [| d ds IH]; cbn [enqueue_referrals collect_referrals];
    intros reachSet queue.
  - eauto.
  - destruct (set_has d (userId :: reachSet)) eqn:E.
    + apply IH.
    + assert (Hrs : set_has d reachSet = false).
      { apply set_has_false. apply set_has_false in E.
        intros H. apply E. now right. }
      rewrite (set_add_new _ _ E), (set_add_new _ _ Hrs).
      change ((userId :: reachSet) ++ [d]) with (userId :: (reachSet ++ [d])).
      apply IH.
Qed.

Lemma getReachSet_calculateReach_loop g userId fuel :
  forall queue reachSet,
    match calculateReach_loop fuel g queue (userId :: reachSet) with
    | Some visited =>
        exists reachSet',
          visited = userId :: reachSet' /\
          getReachSet_loop fuel g queue (userId :: reachSet) reachSet
          = Some reachSet'
    | None =>
        getReachSet_loop fuel g queue (userId :: reachSet) reachSet = None
    end.
Proof.
  induction fuel as [| fuel IH]; simpl; intros queue reachSet; [reflexivity |].
  destruct queue as [| current queue']; [eauto |].
  destruct (map_get current (referrals g)) as [ds |]; [| apply IH].
  destruct (collect_enqueue userId ds reachSet queue')
    as [reachSet' [queue'' [-> ->]]].
  apply IH.
Qed.

(** C10. For a user without an entry in the reach cache, [getReachSet]
    returns a set whose size is the number [calculateReach] returns: both
    traversals visit the same users in the same order, the reach set being
    the visited set without the user, and for a known user that set holds
    exactly the other users that the user reaches. *)
Theorem getReachSet_size_calculateReach a userId :
  map_get userId (reachCache a) = None ->
  exists reachSet a',
    getReachSet a userId = Some (reachSet, a') /\
    calculateReach (network a) userId = Some (List.length reachSet) /\
    (set_has userId (users (network a)) = true ->
     calculateReach_loop (traversal_fuel (network a)) (network a)
       [userId] [userId] = Some (userId :: reachSet) /\
     forall x, In x reachSet <-> x <> userId /\ path (network a) userId x).
Proof.
  intros Hcache. unfold getReachSet, calculateReach. rewrite Hcache.
  destruct (set_has userId (users (network a))) eqn:Hu.
  - change (set_add userId []) with [userId].
    pose proof (getReachSet_calculateReach_loop (network a) userId
                  (traversal_fuel (network a)) [userId] []) as H.
    destruct (calculateReach_loop_returns (network a)
                (traversal_fuel (network a)) [userId] [userId]) as [v Hv].
    { pose proof (unvisited_le_length [userId] (children (network a))).
      unfold traversal_fuel, edge_count, children in *. simpl. lia. }
    rewrite Hv in *. destruct H as [reachSet' [-> ->]].
    do 2 eexists. split; [reflexivity |]. split.
    + simpl. now rewrite Nat.sub_0_r.
    + intros _. split; [reflexivity |].
      destruct (calculateReach_loop_reachable _ _ _ Hv) as [Hnd Hreach].
      inversion Hnd as [| ? ? Hfresh _]; subst.
      intros x. rewrite <- Hreach. simpl. split.
      * intros Hx. split; [| now right]. intros ->. contradiction.
      * intros [Hne [Heq | Hx]]; [congruence | assumption].
  - do 2 eexists. split; [reflexivity |]. split; [reflexivity | discriminate].
Qed.

(** A cache miss on a user with one direct and one indirect referral. *)
Lemma getReachSet_size_calculateReach_witness :
  exists a,
    addReferrals empty [("a", "b"); ("b", "c")] = Some (network a) /\
    map_get "a" (reachCache a) = None /\
    exists reachSet a',
      getReachSet a "a" = Some (reachSet, a') /\
      calculateReach (network a) "a" = Some (List.length reachSet) /\
      (set_has "a" (users (network a)) = true ->
       calculateReach_loop (traversal_fuel (network a)) (network a)
         ["a"] ["a"] = Some ("a" :: reachSet) /\
       forall x, In x reachSet <-> x <> "a" /\ path (network a) "a" x).
Proof.
  exists (NetworkAnalysis.mk
            (ReferralNetwork.mk [("a", ["b"]); ("b", ["c"]); ("c", [])]
               [("b", "a"); ("c", "b")] ["a"; "b"; "c"]) [] []).
  split; [vm_compute; reflexivity |].
  split; [reflexivity |].
  apply getReachSet_size_calculateReach. reflexivity.
Defined.

(** *** The ranking by reach *)






(** A negative [k] is handed to [slice] as it is, which then counts from
    the end of the ranking. *)
Lemma getTopReferrersByReach_negative_k :
  exists g,
    addReferrals empty [("z", "y"); ("a", "b")] = Some g /\
    getTopReferrersByReach g (-1) = Some [mkUserReach "z" 1].
Proof.
  eexists. split; vm_compute; reflexivity.
Qed.


(** C3. [getReachSet("a")] is asked, then [addReferral("b", "c")] is
    accepted, which makes "c" reachable from "a" ([calculateReach] counts
    it); [getReachSet("a")] still returns the set it cached before, without
    "c": [addReferral] does not touch the cache. *)
Theorem getReachSet_stale_after_addReferral :
  exists a1 a2 a3,
    NetworkAnalysis.addReferral create "a" "b" = Some (Returned a1) /\
    getReachSet a1 "a" = Some (["b"], a2) /\
    NetworkAnalysis.addReferral a2 "b" "c" = Some (Returned a3) /\
    getReachSet a3 "a" = Some (["b"], a3) /\
    path1 (network a3) "a" "c" /\
    calculateReach (network a3) "a" = Some 2.
Proof.
  do 3 eexists.
  split; [vm_compute; reflexivity |].
  split; [vm_compute; reflexivity |].
  split; [vm_compute; reflexivity |].
  split; [vm_compute; reflexivity |].
  split; [| vm_compute; reflexivity].
  exists "b". split.
  - exists ["b"]. split; [reflexivity | now left].
  - apply path_step with "c"; [| apply path_refl].
    exists ["c"]. split; [reflexivity | now left].
Qed.

(** *** [calculateReach] counts the descendants *)

Lemma calculateReach_known g userId :
  set_has userId (users g) = true ->
  exists descendants,
    calculateReach_loop (traversal_fuel g) g [userId] [userId]
    = Some (userId :: descendants) /\
    calculateReach g userId = Some (List.length descendants) /\
    NoDup descendants /\
    forall x, In x descendants <-> x <> userId /\ path g userId x.
Proof.
  intros Hu. unfold calculateReach. rewrite Hu.
  change (set_add userId []) with [userId].
  destruct (calculateReach_loop_returns g (traversal_fuel g) [userId] [userId])
    as [v Hv].
  { pose proof (unvisited_le_length [userId] (children g)).
    unfold traversal_fuel, edge_count, children in *. simpl. lia. }
  pose proof (getReachSet_calculateReach_loop g userId (traversal_fuel g)
                [userId] []) as H.
  rewrite Hv in *. destruct H as [descendants [-> _]].
  destruct (calculateReach_loop_reachable _ _ _ Hv) as [Hnd Hreach].
  inversion Hnd as [| ? ? Hfresh Hnd']; subst.
  exists descendants. split; [reflexivity |]. split; [| split; [assumption |]].
  - simpl. now rewrite Nat.sub_0_r.
  - intros x. rewrite <- Hreach. simpl. split.
    + intros Hx. split; [| now right]. intros ->. contradiction.
    + intros [Hne [Heq | Hx]]; [congruence | assumption].
Qed.

End ReachProofs.


(** ** Influencers *)

Module InfluencerProofs.
Import Js JsFacts ReferralNetwork NetworkAnalysis InfluencerAnalysis.
Import ReachProofs.

(** *** [getReachSet] on a cache that fills up *)

Lemma getReachSet_loop_returns g userId fuel queue reachSet :
  (exists v, calculateReach_loop fuel g queue (userId :: reachSet) = Some v) ->
  exists s, getReachSet_loop fuel g queue (userId :: reachSet) reachSet = Some s.
Proof.
  intros [v Hv].
  pose proof (getReachSet_calculateReach_loop g userId fuel queue reachSet) as H.
  rewrite Hv in H. destruct H as [s [_ Hs]]. eauto.
Qed.

Lemma getReachSet_returns a userId :
  exists s a', getReachSet a userId = Some (s, a').
Proof.
  unfold getReachSet. destruct (map_get userId (reachCache a)); [eauto |].
  destruct (set_has userId (users (network a))); [| eauto].
  destruct (getReachSet_loop_returns (network a) userId
              (traversal_fuel (network a)) [userId] []) as [s ->]; [| eauto].
  apply calculateReach_loop_returns.
  pose proof (unvisited_le_length [userId] (children (network a))).
  unfold traversal_fuel, edge_count, children in *. simpl. lia.
Qed.

Lemma getReachSet_reachSetOf a userId :
  exists a', getReachSet a userId = Some (reachSetOf a userId, a').
Proof.
  unfold reachSetOf. destruct (getReachSet_returns a userId) as [s [a' ->]].
  eauto.
Qed.

(** A call fills the cache with what it returns, so the set returned for
    any user is the same before and after it. *)
Lemma getReachSet_stable a userId s a' :
  getReachSet a userId = Some (s, a') ->
  network a' = network a /\ forall v, reachSetOf a' v = reachSetOf a v.
Proof.
  intros Hrun. assert (Hs : reachSetOf a userId = s)
    by (unfold reachSetOf; now rewrite Hrun).
  revert Hrun. unfold getReachSet.
  destruct (map_get userId (reachCache a)) as [cached |] eqn:Hc.
  { intros H. injection H as <- <-. auto. }
  destruct (set_has userId (users (network a))) eqn:Hu.
  2:{ intros H. injection H as <- <-. auto. }
  destruct (getReachSet_loop _ _ _ _ _) as [reachSet |]; [| discriminate].
  intros H. injection H as <- <-. split; [reflexivity |].
  intros v. unfold reachSetOf at 1. unfold getReachSet. simpl.
  destruct (String.eqb_spec v userId) as [-> | Hne].
  - now rewrite map_get_set_same.
  - rewrite map_get_set_other by assumption.
    unfold reachSetOf, getReachSet.
    destruct (map_get v (reachCache a)); [reflexivity |].
    destruct (set_has v (users (network a))); [| reflexivity].
    destruct (getReachSet_loop _ _ _ _ _); reflexivity.
Qed.

Lemma collectReachSets_spec a us :
  forall a0 userReachSets active,
    network a0 = network a ->
    (forall v, reachSetOf a0 v = reachSetOf a v) ->
    (forall u, In u active -> map_get u userReachSets = Some (reachSetOf a u)) ->
    exists userReachSets' a',
      collectReachSets a0 us userReachSets active
      = Some (userReachSets',
              active ++ filter (fun u => (0 <? List.length (reachSetOf a u))%nat) us,
              a') /\
      network a' = network a /\
      (forall u,
         In u (active ++ filter (fun u => (0 <? List.length (reachSetOf a u))%nat) us) ->
         map_get u userReachSets' = Some (reachSetOf a u)).
Proof.
  induction us as [| userId us IH]; simpl; intros a0 urs active Hnet Hsets Hurs.
  - rewrite app_nil_r. eauto.
  - destruct (getReachSet_reachSetOf a0 userId) as [a1 Hrun]. rewrite Hrun.
    destruct (getReachSet_stable _ _ _ _ Hrun) as [Hnet1 Hsets1].
    rewrite Hsets.
    assert (Hnet' : network a1 = network a) by congruence.
    assert (Hsets' : forall v, reachSetOf a1 v = reachSetOf a v)
      by (intros v; rewrite Hsets1; apply Hsets).
    destruct (0 <? List.length (reachSetOf a userId))%nat.
    + destruct (IH a1 (map_set userId (reachSetOf a userId) urs)
                  (active ++ [userId]) Hnet' Hsets') as [urs' [a' [H1 [H2 H3]]]].
      * intros u Hu. destruct (String.eqb_spec u userId) as [-> | Hne].
        -- apply map_get_set_same.
        -- rewrite map_get_set_other by assumption. apply Hurs.
           apply in_app_iff in Hu. destruct Hu as [Hu | [Hu | []]]; congruence.
      * rewrite <- app_assoc in H1, H3. simpl in H1, H3. eauto.
    + apply IH; assumption.
Qed.

(** *** The greedy selection *)

Lemma newUsersOf_newUsersFrom reachSets userReachSets covered u :
  map_get u userReachSets = Some (reachSets u) ->
  newUsersOf userReachSets covered u = newUsersFrom reachSets covered u.
Proof. unfold newUsersOf, newUsersFrom. now intros ->. Qed.

Lemma findBest_best_so_far reachSets userReachSets covered rest :
  forall seen best,
    (forall u, In u rest -> map_get u userReachSets = Some (reachSets u)) ->
    best_so_far reachSets covered seen best ->
    best_so_far reachSets covered (seen ++ rest)
      (findBest userReachSets covered rest best).
Proof.
  induction rest as [| referrer rest IH]; simpl; intros seen best Hurs Hbest.
  - now rewrite app_nil_r.
  - rewrite (newUsersOf_newUsersFrom reachSets) by (apply Hurs; now left).
    replace (seen ++ referrer :: rest) with ((seen ++ [referrer]) ++ rest)
      by (rewrite <- app_assoc; reflexivity).
    destruct best as [[best coverage] newUsers].
    fold (marginal reachSets covered referrer).
    destruct (coverage <? marginal reachSets covered referrer)%nat eqn:E.
    + apply Nat.ltb_lt in E. apply IH; [auto |]. simpl.
      split; [reflexivity |]. split; [lia |]. split; [reflexivity |].
      exists seen, []. split; [reflexivity |]. split; [| intros u []].
      intros u Hu. destruct best as [x |]; simpl in Hbest.
      * destruct Hbest as [-> [_ [_ [before [after [-> [Hb Ha]]]]]]].
        apply in_app_iff in Hu. destruct Hu as [Hu | [<- | Hu]].
        -- specialize (Hb _ Hu). lia.
        -- assumption.
        -- specialize (Ha _ Hu). lia.
      * destruct Hbest as [-> Hz]. rewrite (Hz _ Hu). assumption.
    + apply Nat.ltb_ge in E. apply IH; [auto |].
      destruct best as [x |]; simpl in *.
      * destruct Hbest as [-> [Hpos [-> [before [after [-> [Hb Ha]]]]]]].
        split; [reflexivity |]. split; [assumption |]. split; [reflexivity |].
        exists before, (after ++ [referrer]).
        split; [now rewrite <- app_assoc |]. split; [assumption |].
        intros u Hu. apply in_app_iff in Hu. destruct Hu as [Hu | [<- | []]]; auto.
      * destruct Hbest as [-> Hz]. split; [reflexivity |].
        intros u Hu. apply in_app_iff in Hu. destruct Hu as [Hu | [<- | []]]; auto.
        lia.
Qed.

Lemma remove_first_In x y l : In y (remove_first x l) -> In y l.
Proof.
  induction l as [| z l IH]; simpl; [tauto |].
  destruct (String.eqb x z); simpl; tauto.
Qed.

Lemma select_greedy reachSets userReachSets budget :
  forall active covered selected,
    (forall u, In u active -> map_get u userReachSets = Some (reachSets u)) ->
    exists chosen final,
      select budget userReachSets active covered selected
      = (selected ++ chosen, final) /\
      greedy reachSets budget active covered chosen final.
Proof.
  induction budget as [| budget IH]; simpl; intros active covered selected Hurs.
  - exists [], covered. rewrite app_nil_r. split; [reflexivity | constructor].
  - destruct active as [| first others] eqn:Hactive.
    { exists [], covered. rewrite app_nil_r. split; [reflexivity |].
      apply greedy_no_gain. intros u []. }
    rewrite <- Hactive in *. clear Hactive first others.
    pose proof (findBest_best_so_far reachSets userReachSets covered active
                  [] (None, 0, []) Hurs) as Hbest.
    simpl in Hbest. specialize (Hbest (conj eq_refl (fun u (H : False) => match H with end))).
    destruct (findBest userReachSets covered active (None, 0, []))
      as [[[best |] coverage] newUsers]; simpl in Hbest.
    + destruct Hbest as [-> [Hpos [-> [before [after [-> [Hb Ha]]]]]]].
      fold (marginal reachSets covered best) in *.
      destruct (marginal reachSets covered best =? 0)%nat eqn:E;
        [apply Nat.eqb_eq in E; lia |].
      destruct (IH (remove_first best (before ++ best :: after))
                  (fold_left (fun s user => set_add user s)
                     (newUsersFrom reachSets covered best) covered)
                  (selected ++
                     [mkSelection best (marginal reachSets covered best)
                        (totalReachOf userReachSets best)
                        (newUsersFrom reachSets covered best)]))
        as [chosen [final [Hrun Hgreedy]]].
      { intros u Hu. apply Hurs. eapply remove_first_In. eassumption. }
      rewrite Hrun, <- app_assoc. simpl.
      do 2 eexists. split; [reflexivity |].
      assert (Htotal : totalReachOf userReachSets best
                       = List.length (reachSets best)).
      { unfold totalReachOf. rewrite Hurs; [reflexivity |].
        apply in_app_iff. right. now left. }
      rewrite Htotal. now apply greedy_pick.
    + destruct Hbest as [-> Hz].
      exists [], covered. rewrite app_nil_r. split; [reflexivity |].
      now apply greedy_no_gain.
Qed.

(** *** The reach sets on a cache without stale entries *)

Lemma reachSetOf_cache_current a u :
  cache_current a -> reachSetOf a u = reachSetOf (clearCaches a) u.
Proof.
  intros Hcache. unfold reachSetOf at 1. unfold getReachSet.
  destruct (map_get u (reachCache a)) as [cached |] eqn:Hc.
  - symmetry. apply Hcache. exact Hc.
  - unfold reachSetOf, getReachSet, clearCaches. simpl.
    destruct (set_has u (users (network a))); [| reflexivity].
    destruct (getReachSet_loop _ _ _ _ _); reflexivity.
Qed.

(** Then the reach set of a user is the set of its descendants. *)
Lemma reachSetOf_descendants a u :
  cache_current a ->
  In u (users (network a)) ->
  NoDup (reachSetOf a u) /\
  forall x, In x (reachSetOf a u) <-> x <> u /\ path (network a) u x.
Proof.
  intros Hcache Hu. rewrite (reachSetOf_cache_current a u Hcache).
  apply set_has_In in Hu.
  unfold reachSetOf, getReachSet, clearCaches. simpl. rewrite Hu.
  destruct (calculateReach_known (network a) u Hu)
    as [descendants [Hloop [_ [Hnd Hd]]]].
  pose proof (getReachSet_calculateReach_loop (network a) u
                (traversal_fuel (network a)) [u] []) as H.
  rewrite Hloop in H. destruct H as [s [Hs ->]].
  injection Hs as <-. auto.
Qed.




(** *** The distance matrix is computed *)

Lemma enqueue_neighbors_measure univ neighbors distance :
  incl neighbors univ ->
  forall visited queue visited' queue',
    enqueue_neighbors neighbors distance visited queue = (visited', queue') ->
    List.length queue' + unvisited visited' univ
    <= List.length queue + unvisited visited univ.
Proof.
  induction neighbors as [| d ds IH]; cbn [enqueue_neighbors];
    intros Hincl visited queue visited' queue' H.
  - injection H as <- <-. lia.
  - assert (Hd : In d univ) by (apply Hincl; now left).
    assert (Hds : incl ds univ) by (intros x Hx; apply Hincl; now right).
    destruct (set_has d visited) eqn:E.
    + eapply IH; eassumption.
    + specialize (IH Hds _ _ _ _ H).
      pose proof (unvisited_add_lt d visited univ Hd E).
      rewrite length_app in IH. simpl in IH. lia.
Qed.

Lemma distances_loop_returns g fuel :
  forall queue visited sourceDistances,
    List.length queue + unvisited visited (children g) < fuel ->
    exists d, distances_loop fuel g queue visited sourceDistances = Some d.
Proof.
  induction fuel as [| fuel IH]; simpl; intros queue visited sd Hlt; [lia |].
  destruct queue as [| [current distance] queue']; [eauto |]. simpl in Hlt.
  destruct (enqueue_neighbors _ distance visited queue')
    as [visited' queue''] eqn:He.
  apply IH.
  apply enqueue_neighbors_measure with (univ := children g) in He; [lia |].
  destruct (map_get current (referrals g)) as [s |] eqn:Hget.
  - exact (map_get_children _ _ _ Hget).
  - intros x [].
Qed.

Lemma distances_from_returns g sources :
  forall distances, exists d, distances_from g sources distances = Some d.
Proof.
  induction sources as [| source sources IH]; simpl; intros distances; [eauto |].
  destruct (distances_loop_returns g (traversal_fuel g) [(source, 0)]
              (set_add source []) []) as [sd ->]; [| apply IH].
  pose proof (unvisited_le_length (set_add source []) (children g)).
  unfold traversal_fuel, edge_count, children in *. simpl. lia.
Qed.

Lemma computeAllPairsDistances_returns a :
  exists distances a', computeAllPairsDistances a = Some (distances, a').
Proof.
  unfold computeAllPairsDistances.
  destruct (0 <? List.length (distanceCache a))%nat; [eauto |].
  destruct (distances_from_returns (network a) (users (network a)) [])
    as [d ->].
  eauto.
Qed.

Lemma calculateFlowCentrality_returns a topK :
  exists brokers a', calculateFlowCentrality a topK = Some (brokers, a').
Proof.
  unfold calculateFlowCentrality.
  destruct (computeAllPairsDistances_returns a) as [d [a' ->]]. eauto.
Qed.


(** *** Flow centrality *)

(** C6. The chain a -> b -> c -> d, entered from its end, so that the
    users are in the order c, d, b, a.  The distance from a to c is 2 and
    b lies between them, yet no broker is scored: the pair loop takes the
    earlier user of a pair as the source and looks up the distance from it
    to the later one only, and here every path runs from a later user to an
    earlier one.  Entered from its start, the same chain scores b and
    c. *)
Theorem calculateFlowCentrality_misses_reverse_pairs :
  exists a distances a',
    addReferrals empty [("c", "d"); ("b", "c"); ("a", "b")] = Some (network a) /\
    distanceCache a = [] /\
    users (network a) = ["c"; "d"; "b"; "a"] /\
    computeAllPairsDistances a = Some (distances, a') /\
    distance distances "a" "c" = Some 2 /\
    distance distances "a" "b" = Some 1 /\
    distance distances "b" "c" = Some 1 /\
    calculateFlowCentrality a 10 = Some ([], a') /\
    exists b b' b'',
      addReferrals empty [("a", "b"); ("b", "c"); ("c", "d")] = Some (network b) /\
      distanceCache b = [] /\
      calculateFlowCentrality b 10 = Some (b', b'') /\
      map (fun x => (brokerId x, centralityScore x)) b' = [("b", 2); ("c", 2)].
Proof.
  exists (NetworkAnalysis.mk
            (ReferralNetwork.mk
               [("c", ["d"]); ("d", []); ("b", ["c"]); ("a", ["b"])]
               [("d", "c"); ("c", "b"); ("b", "a")] ["c"; "d"; "b"; "a"]) [] []).
  do 2 eexists.
  split; [vm_compute; reflexivity |].
  split; [reflexivity |].
  split; [reflexivity |].
  split; [vm_compute; reflexivity |].
  split; [vm_compute; reflexivity |].
  split; [vm_compute; reflexivity |].
  split; [vm_compute; reflexivity |].
  split; [vm_compute; reflexivity |].
  exists (NetworkAnalysis.mk
            (ReferralNetwork.mk
               [("a", ["b"]); ("b", ["c"]); ("c", ["d"]); ("d", [])]
               [("b", "a"); ("c", "b"); ("d", "c")] ["a"; "b"; "c"; "d"]) [] []).
  do 2 eexists.
  split; [vm_compute; reflexivity |].
  split; [reflexivity |].
  split; [vm_compute; reflexivity |].
  vm_compute; reflexivity.
Qed.


End InfluencerProofs.


(** ** The growth simulation *)

Module SimulationProofs.
Import NetworkGrowthSimulation.
#[local] Open Scope float_scope.

Lemma simulate_loop_length n p activeReferrers cumulativeReferrals :
  List.length (simulate_loop n p activeReferrers cumulativeReferrals) = n.
Proof.
  revert activeReferrers cumulativeReferrals.
  induction n as [| n IH]; simpl; intros; [reflexivity | now rewrite IH].
Qed.

(** One total per day. *)
Lemma simulate_length p days results :
  simulate p days = inr results -> List.length results = Z.to_nat days.
Proof.
  unfold simulate. destruct (_ || _)%bool; [discriminate |].
  destruct (_ || _)%bool; [discriminate |].
  intros H. injection H as <-. apply simulate_loop_length.
Qed.

Lemma simulate_loop_zero n :
  simulate_loop n 0 INITIAL_REFERRERS 0 = repeat 0 n.
Proof.
  induction n as [| n IH]; [reflexivity |].
  cbn [simulate_loop repeat].
  change (INITIAL_REFERRERS * 0) with 0.
  change (0 + 0) with 0.
  change (JsMath.max 0
            (INITIAL_REFERRERS
             - JsMath.min INITIAL_REFERRERS (0 / MAX_REFERRALS_PER_USER) + 0))
    with INITIAL_REFERRERS.
  now rewrite IH.
Qed.

(** With probability 0 every total is 0. *)
Lemma simulate_zero days :
  (0 <= days <= 10000)%Z ->
  simulate 0 days = inr (repeat 0 (Z.to_nat days)).
Proof.
  intros [Hlo Hhi]. unfold simulate.
  change ((0 <? 0) || (1 <? 0))%bool with false. cbv iota.
  assert ((days <? 0)%Z = false) as -> by (apply Z.ltb_ge; lia).
  assert ((10000 <? days)%Z = false) as -> by (apply Z.ltb_ge; lia).
  simpl. now rewrite simulate_loop_zero.
Qed.

(** *** [daysToTarget] returns or throws *)

Lemma linearSearchDays_loop_returns p targetTotal fuel :
  forall day activeReferrers cumulativeReferrals,
    (day <= 20000)%Z ->
    (Z.to_nat (20001 - day) <= fuel)%nat ->
    exists r,
      linearSearchDays_loop fuel p targetTotal day activeReferrers
        cumulativeReferrals = Some r.
Proof.
  induction fuel as [| fuel IH]; intros day a c Hday Hfuel; [lia |].
  cbn [linearSearchDays_loop].
  destruct (c <? targetTotal); [| eauto].
  destruct (targetTotal <=? c + a * p); [eauto |].
  destruct (20000 <? day + 1)%Z eqn:E; [eauto |].
  apply Z.ltb_ge in E. apply IH; lia.
Qed.

Lemma raise_high_returns p targetTotal fuel :
  forall high highSimulation,
    (200000 < high * 2 ^ Z.of_nat (fuel - 1)%nat)%Z ->
    (0 < fuel)%nat ->
    exists r, raise_high fuel p targetTotal high highSimulation = Some r.
Proof.
  induction fuel as [| fuel IH]; intros high sim Hbound Hfuel; [lia |].
  cbn [raise_high]. unfold below at 1, JsMath.index.
  destruct (high - 1 <? 0)%Z eqn:Hidx; [eauto |].
  apply Z.ltb_ge in Hidx.
  destruct (nth_error sim (Z.to_nat (high - 1))) as [v |]; [| eauto].
  destruct (v <? targetTotal); [| eauto].
  destruct (200000 <? high * 2)%Z eqn:E; [eauto |].
  apply Z.ltb_ge in E.
  destruct (simulate p (high * 2)) as [e | sim']; [eauto |].
  replace (S fuel - 1)%nat with fuel in Hbound by lia.
  destruct fuel as [| fuel]; [simpl in Hbound; lia |].
  apply IH; [| lia].
  replace (S fuel - 1)%nat with fuel by lia.
  rewrite Nat2Z.inj_succ, Z.pow_succ_r in Hbound by lia. lia.
Qed.

Lemma narrow_returns p targetTotal fuel :
  forall low high,
    (Z.to_nat (high - low) < fuel)%nat ->
    exists r, narrow fuel p targetTotal low high = Some r.
Proof.
  induction fuel as [| fuel IH]; intros low high Hfuel; [lia |].
  cbn [narrow].
  destruct (low <? high)%Z eqn:E; [| eauto].
  apply Z.ltb_lt in E.
  assert (Hmid : (low <= (low + high) / 2 < high)%Z).
  { split; [apply Z.div_le_lower_bound | apply Z.div_lt_upper_bound]; lia. }
  destruct (simulate p ((low + high) / 2)) as [e | results]; [eauto |].
  destruct (_ && _)%bool; apply IH; lia.
Qed.

Lemma binarySearchDays_returns p targetTotal :
  exists r, binarySearchDays p targetTotal = Some r.
Proof.
  unfold binarySearchDays.
  destruct (simulate_at p _) as [e | sim] eqn:Hsim; [eauto |].
  destruct (JsMath.to_integral _) as [high | s |]; [| eauto | eauto].
  destruct (Z_lt_le_dec high 1) as [Hlow | Hhigh].
  - (* the first total looked up is [undefined] *)
    assert (Hstop : raise_high 19 p targetTotal high sim = Some (inr high)).
    { cbn [raise_high]. unfold below, JsMath.index.
      assert ((high - 1 <? 0)%Z = true) as -> by (apply Z.ltb_lt; lia).
      reflexivity. }
    rewrite Hstop. apply narrow_returns. lia.
  - destruct (raise_high_returns p targetTotal 19 high sim) as [[r | h] ->];
      [simpl; lia | lia | eauto |].
    apply narrow_returns. lia.
Qed.

(** Whatever the probability and the target, [daysToTarget] ends: with a
    day count, with [Infinity], or with the [Error] of [simulate]. *)
Lemma daysToTarget_returns p targetTotal :
  exists r, daysToTarget p targetTotal = Some r.
Proof.
  unfold daysToTarget.
  destruct (p <=? 0); [eauto |].
  destruct (targetTotal <=? 0); [eauto |].
  destruct (targetTotal <? 1000).
  - apply linearSearchDays_loop_returns; [lia |]. apply Z2Nat.inj_le; lia.
  - apply binarySearchDays_returns.
Qed.


(** C9. With probability 1 the active count is multiplied by 1.9 every
    day and leaves binary64 after some 1100 days: total 1100 is
    [Infinity], and from day 1101 on every total is [NaN] (the update of
    the active count subtracts [Infinity] from [Infinity]), which is not at
    or above the total before it. *)
Theorem simulate_overflow_breaks_monotonicity :
  exists results,
    simulate 1 1200 = inr results /\
    nth_error results 1099 = Some infinity /\
    nth_error results 1100 = Some nan /\
    ~ non_decreasing results.
Proof.
  eexists. split; [vm_compute; reflexivity |].
  split; [vm_compute; reflexivity |].
  split; [vm_compute; reflexivity |].
  intros Hmono.
  specialize (Hmono 1099%nat infinity nan).
  assert (H : (infinity <=? nan) = true).
  { apply Hmono; vm_compute; reflexivity. }
  vm_compute in H. discriminate.
Qed.

(** C5. [daysToTarget(0.5, 1000000)]: the binary search starts from 20100
    days, which [simulate] refuses (it takes 10000 at most), so the call
    throws, although day 25 is the first whose total reaches the target.
    And [daysToTarget(0, 0)] is [Infinity], the probability being tested
    before the target. *)
Theorem daysToTarget_throws_on_reachable_target :
  daysToTarget 0.5 1000000 = Some (Threw DaysOutOfRange) /\
  (exists results,
     simulate 0.5 25 = inr results /\
     reaches results 24 1000000 = true /\
     reaches results 23 1000000 = false) /\
  daysToTarget 0 0 = Some Unreachable.
Proof.
  split; [vm_compute; reflexivity |].
  split; [| vm_compute; reflexivity].
  eexists. split; [vm_compute; reflexivity |].
  split; vm_compute; reflexivity.
Qed.

(** The binary search also trusts totals that have become [NaN]:
    [daysToTarget(0.5, 195000)] is 4000, the bound it started from, where
    day 21 is the first to reach the target. *)
Lemma daysToTarget_not_minimal_after_overflow :
  daysToTarget 0.5 195000 = Some (Days 4000) /\
  linearSearchDays 0.5 195000 = Some (Days 21).
Proof. split; vm_compute; reflexivity. Qed.

End SimulationProofs.

(** ** The bonus search *)

Module BonusProofs.
Import NetworkGrowthSimulation BonusOptimization.
#[local] Open Scope float_scope.

(** C4. With the adoption function [bonus => Math.min(bonus / 10, 1)],
    one day and a target of 100 hires, [findMaxSearchBonus] finds that a
    bonus of 10 meets the target (100 hires), but the binary search only
    tries bonuses strictly inside the interval, none of which does, and
    [minBonusForTarget] returns [null].  With
    [bonus => Math.min(0.5 + bonus / 1000, 1)] and a target of 50 hires it
    returns 10, although a bonus of 0 meets the target too. *)
Theorem minBonusForTarget_misses_interval_ends :
  findMaxSearchBonus capped_linear 100 1 = inr (Some 10) /\
  simulate (capped_linear 10) 1 = inr [100] /\
  minBonusForTarget 64 1 100 capped_linear 0.001 = Some (inr None) /\
  minBonusForTarget 64 1 50 half_and_up 0.001 = Some (inr (Some 10)) /\
  simulate (half_and_up (10 - 10)) 1 = inr [50] /\
  (50 <=? 50) = true.
Proof. repeat split; vm_compute; reflexivity. Qed.

End BonusProofs.

(* ===================================================================== *)
(** * Part III: further properties of the code                            *)
(* ===================================================================== *)

(** ** The store *)

Module StoreFacts.
Import Js JsFacts ReferralNetwork GraphProofs.

(** *** [canReach] decides reachability *)

Lemma push_referrals_none toUser ds stack :
  push_referrals toUser ds stack = None -> In toUser ds.
Proof.
  revert stack. induction ds as [| d ds IH]; simpl; intros stack H; [discriminate |].
  destruct (String.eqb_spec d toUser) as [-> | Hne]; [now left |].
  right. eauto.
Qed.

Lemma canReach_loop_true g fromUser toUser fuel :
  forall visited stack,
    (forall x, In x stack -> path g fromUser x) ->
    canReach_loop fuel g toUser visited stack = Some true ->
    path g fromUser toUser.
Proof.
  induction fuel as [| fuel IH]; simpl; intros visited stack Hstack Hrun;
    [discriminate |].
  destruct stack as [| current stack']; [discriminate |].
  assert (Hrest : forall x, In x stack' -> path g fromUser x)
    by (intros x Hx; apply Hstack; now right).
  destruct (set_has current visited); [eauto |].
  destruct (map_get current (referrals g)) as [ds |] eqn:Hget; [| eauto].
  assert (Hchild : forall d, In d ds -> path g fromUser d).
  { intros d Hd. apply path_trans with current; [apply Hstack; now left |].
    apply path_step with d; [| apply path_refl]. exists ds. auto. }
  destruct (push_referrals toUser ds stack') as [stack'' |] eqn:Hpush.
  - destruct (push_referrals_some _ _ _ _ Hpush) as [_ [Hin _]].
    apply (IH _ _ (fun x Hx => match proj1 (Hin x) Hx with
                               | or_introl H => Hchild x H
                               | or_intror H => Hrest x H
                               end) Hrun).
  - apply Hchild. eapply push_referrals_none. eassumption.
Qed.

Lemma canReach_true_path g fromUser toUser :
  canReach g fromUser toUser = Some true -> path g fromUser toUser.
Proof.
  unfold canReach. destruct (String.eqb_spec fromUser toUser) as [-> | Hne].
  - intros _. apply path_refl.
  - apply canReach_loop_true. intros x [<- | []]. apply path_refl.
Qed.

(** X1. [canReach(fromUser, toUser)] is [true] exactly when a chain of
    zero or more referrals leads from [fromUser] to [toUser], and [false]
    otherwise: it always answers. *)
Theorem canReach_iff_path g fromUser toUser :
  (canReach g fromUser toUser = Some true <-> path g fromUser toUser) /\
  (canReach g fromUser toUser = Some false <-> ~ path g fromUser toUser).
Proof.
  pose proof (canReach_true_path g fromUser toUser) as Hsound.
  pose proof (canReach_false_no_path g fromUser toUser) as Hcomplete.
  destruct (canReach_returns g fromUser toUser) as [[|] Hb]; rewrite Hb in *.
  - split; split; try discriminate; auto.
    intros Hno. exfalso. auto.
  - split; split; try discriminate; auto.
    intros Hp. exfalso. now apply Hcomplete.
Qed.

(** *** What [addReferral] decides *)

Lemma addUser_returns g userId :
  userId <> "" -> exists g', addUser g userId = Returned g'.
Proof.
  intros Hne. unfold addUser. apply String.eqb_neq in Hne. rewrite Hne. eauto.
Qed.

Lemma addUser_returned_graph g userId g' :
  addUser g userId = Returned g' ->
  (forall a b, edge g' a b <-> edge g a b) /\ referrers g' = referrers g.
Proof.
  intros H. split.
  - intros a b. apply (addUser_edge _ _ _ a b H).
  - apply (addUser_referrers _ _ _ H).
Qed.

Lemma path_iff_same_edges g g' x z :
  (forall a b, edge g' a b <-> edge g a b) -> (path g' x z <-> path g x z).
Proof.
  intros He. split; apply path_same_edges; [assumption |].
  intros a b. symmetry. apply He.
Qed.

(** X2. The four checks of [addReferral], in their order: an empty id,
    then equal ids, then a candidate that already has a referrer, then a
    chain of referrals from the candidate to the referrer; the call is
    accepted exactly when none of them fires. *)
Theorem addReferral_outcome g referrerId candidateId :
  exists o,
    addReferral g referrerId candidateId = Some o /\
    match o with
    | Returned _ =>
        referrerId <> "" /\ candidateId <> "" /\ referrerId <> candidateId /\
        getReferrer g candidateId = None /\ ~ path g candidateId referrerId
    | Threw IdsRequired _ => referrerId = "" \/ candidateId = ""
    | Threw SelfReferral _ =>
        referrerId <> "" /\ candidateId <> "" /\ referrerId = candidateId
    | Threw DuplicateReferrer _ =>
        referrerId <> "" /\ candidateId <> "" /\ referrerId <> candidateId /\
        exists r, getReferrer g candidateId = Some r
    | Threw CycleDetected _ =>
        referrerId <> "" /\ candidateId <> "" /\ referrerId <> candidateId /\
        getReferrer g candidateId = None /\ path g candidateId referrerId
    | Threw _ _ => False
    end.
Proof.
  unfold addReferral, wouldCreateCycle, getReferrer.
  destruct (String.eqb_spec referrerId "") as [-> | Hr]; simpl.
  { eexists. split; [reflexivity |]. cbn beta iota. now left. }
  destruct (String.eqb_spec candidateId "") as [-> | Hc]; simpl.
  { eexists. split; [reflexivity |]. cbn beta iota. now right. }
  destruct (String.eqb_spec referrerId candidateId) as [-> | Hne].
  { eexists. split; [reflexivity |]. cbn beta iota. auto. }
  destruct (addUser_returns g referrerId Hr) as [g1 H1]. rewrite H1.
  destruct (addUser_returns g1 candidateId Hc) as [g2 H2]. rewrite H2.
  destruct (addUser_returned_graph _ _ _ H1) as [He1 Hr1].
  destruct (addUser_returned_graph _ _ _ H2) as [He2 Hr2].
  assert (Hedge : forall a b, edge g2 a b <-> edge g a b).
  { intros a b. rewrite He2. apply He1. }
  assert (Hrefs : referrers g2 = referrers g) by congruence.
  rewrite Hrefs.
  destruct (map_has candidateId (referrers g)) eqn:Hhas.
  { eexists. split; [reflexivity |]. cbn beta iota. apply map_has_true in Hhas. auto. }
  apply map_has_false in Hhas.
  destruct (canReach_returns g2 candidateId referrerId) as [[|] Hb]; rewrite Hb.
  { eexists. split; [reflexivity |]. cbn beta iota.
    repeat (split; [assumption |]).
    apply (path_iff_same_edges g g2 _ _ Hedge). now apply canReach_true_path. }
  destruct (addUser_has_key _ _ _ H1) as [s Hs].
  pose proof (addUser_keeps_key _ _ _ _ _ H2 Hs) as Hs2. simpl in Hs2.
  rewrite Hs2.
  eexists. split; [reflexivity |]. cbn beta iota.
  repeat (split; [assumption |]).
  intros Hp. apply (canReach_false_no_path _ _ _ Hb).
  now apply (path_iff_same_edges g g2 _ _ Hedge).
Qed.

(** X3. An accepted [addReferral(referrerId, candidateId)] can be read
    back: the candidate is among the direct referrals of the referrer, the
    referrer is the referrer of the candidate, both are users; and nothing
    else changes in the graph: the edges are the old ones and the new one,
    and every other user keeps its referrer. *)
Theorem addReferral_accepted_lookup g referrerId candidateId g' :
  addReferral g referrerId candidateId = Some (Returned g') ->
  In candidateId (getDirectReferrals g' referrerId) /\
  getReferrer g' candidateId = Some referrerId /\
  set_has referrerId (users g') = true /\
  set_has candidateId (users g') = true /\
  (forall x y, edge g' x y <-> edge g x y \/ (x = referrerId /\ y = candidateId)) /\
  (forall y, y <> candidateId -> getReferrer g' y = getReferrer g y).
Proof.
  unfold addReferral, wouldCreateCycle, getReferrer, getDirectReferrals.
  destruct (_ || _); [discriminate |].
  destruct (String.eqb referrerId candidateId); [discriminate |].
  destruct (addUser g referrerId) as [g1 | e g1] eqn:H1; [| discriminate].
  destruct (addUser g1 candidateId) as [g2 | e g2] eqn:H2; [| discriminate].
  destruct (map_has candidateId (referrers g2)); [discriminate |].
  destruct (canReach g2 candidateId referrerId) as [[|] |]; try discriminate.
  destruct (map_get referrerId (referrals g2)) as [candidates |] eqn:Hget;
    [| discriminate].
  intros H. injection H as <-. simpl.
  assert (Hu1 : In referrerId (users g1)).
  { revert H1. unfold addUser. destruct (String.eqb referrerId ""); [discriminate |].
    intros H. injection H as <-. simpl. apply set_add_In. now left. }
  assert (Hu2 : forall x, In x (users g2) <-> x = candidateId \/ In x (users g1)).
  { revert H2. unfold addUser. destruct (String.eqb candidateId ""); [discriminate |].
    intros H. injection H as <-. simpl. intros x. apply set_add_In. }
  rewrite map_get_set_same.
  split; [apply set_add_In; now left |].
  split; [apply map_get_set_same |].
  split; [apply set_has_In, Hu2; now right |].
  split; [apply set_has_In, Hu2; now left |].
  split.
  - destruct (addUser_returned_graph _ _ _ H1) as [He1 _].
    destruct (addUser_returned_graph _ _ _ H2) as [He2 _].
    intros x y. rewrite (accepted_edges _ _ _ _ _ _ x y Hget).
    rewrite He2, He1. reflexivity.
  - destruct (addUser_returned_graph _ _ _ H1) as [_ Hr1].
    destruct (addUser_returned_graph _ _ _ H2) as [_ Hr2].
    intros y Hy. rewrite map_get_set_other by assumption. congruence.
Qed.

(** A first referral into an empty store. *)
Lemma addReferral_accepted_lookup_witness :
  exists g',
    addReferral empty "a" "b" = Some (Returned g') /\
    In "b" (getDirectReferrals g' "a") /\
    getReferrer g' "b" = Some "a" /\
    set_has "a" (users g') = true /\
    set_has "b" (users g') = true /\
    (forall x y, edge g' x y <-> edge empty x y \/ (x = "a" /\ y = "b")) /\
    (forall y, y <> "b" -> getReferrer g' y = getReferrer empty y).
Proof.
  eexists. split; [vm_compute; reflexivity |].
  apply addReferral_accepted_lookup. vm_compute. reflexivity.
Defined.

(** *** Well-formed stores *)

Lemma set_add_NoDup x s : NoDup s -> NoDup (set_add x s).
Proof.
  intros H. unfold set_add. destruct (set_has x s) eqn:E; [assumption |].
  apply set_has_false in E. apply NoDup_app; [assumption | repeat constructor; intros [] |].
  intros y Hy [<- | []]. contradiction.
Qed.

Lemma set_add_known x s : set_has x s = true -> set_add x s = s.
Proof. unfold set_add. now intros ->. Qed.

Lemma set_has_app x s y :
  set_has x (s ++ [y]) = set_has x s || String.eqb x y.
Proof. unfold set_has. rewrite existsb_app. simpl. now rewrite orb_false_r. Qed.

Section MapShape.
Variable V : Type.
Implicit Types (m : list (string * V)) (k : string) (v : V).

Lemma map_get_None_keys k m : map_get k m = None <-> ~ In k (map fst m).
Proof.
  induction m as [| [k' v'] m IH]; simpl; [tauto |].
  destruct (String.eqb_spec k k') as [-> | Hne].
  - split; [discriminate | intros H; exfalso; apply H; now left].
  - rewrite IH. split; [intros H [E | Hin]; [congruence | contradiction] | tauto].
Qed.

Lemma map_set_new k v m : map_get k m = None -> map_set k v m = m ++ [(k, v)].
Proof.
  induction m as [| [k' v'] m IH]; simpl; [reflexivity |].
  destruct (String.eqb k k'); [discriminate |]. intros H. now rewrite IH.
Qed.

Lemma map_set_keys k v m s :
  map_get k m = Some s -> map fst (map_set k v m) = map fst m.
Proof.
  induction m as [| [k' v'] m IH]; simpl; [discriminate |].
  destruct (String.eqb_spec k k') as [-> | Hne]; [reflexivity |].
  intros H. simpl. now rewrite IH.
Qed.

Lemma map_has_set k k' v m :
  map_has k' (map_set k v m) = String.eqb k' k || map_has k' m.
Proof.
  unfold map_has. destruct (String.eqb_spec k' k) as [-> | Hne].
  - now rewrite map_get_set_same.
  - now rewrite map_get_set_other.
Qed.

End MapShape.

Lemma wellformed_empty : wellformed empty.
Proof.
  repeat split; simpl; try constructor; try discriminate; try tauto.
Qed.

Lemma addUser_known g userId :
  wellformed g -> set_has userId (users g) = true -> addUser g userId = Returned g.
Proof.
  intros [_ [_ [_ [Hkeys [_ [_ Hempty]]]]]] Hu. unfold addUser.
  destruct (String.eqb_spec userId "") as [-> | _].
  - exfalso. apply Hempty. now apply set_has_In.
  - rewrite Hkeys, Hu, (set_add_known _ _ Hu). now destruct g.
Qed.

Lemma addUser_new g userId :
  wellformed g -> userId <> "" -> set_has userId (users g) = false ->
  addUser g userId
  = Returned (mk (referrals g ++ [(userId, [])]) (referrers g) (users g ++ [userId])).
Proof.
  intros [_ [_ [_ [Hkeys _]]]] Hne Hu. unfold addUser.
  apply String.eqb_neq in Hne. rewrite Hne, Hkeys, Hu, (set_add_new _ _ Hu).
  rewrite map_set_new; [reflexivity |]. apply map_has_false. now rewrite Hkeys.
Qed.

Lemma addUser_wellformed g userId :
  wellformed g -> wellformed (state_of (addUser g userId)).
Proof.
  intros Hwf.
  destruct (String.eqb_spec userId "") as [-> | Hne]; [exact Hwf |].
  destruct (set_has userId (users g)) eqn:Hu.
  - now rewrite (addUser_known _ _ Hwf Hu).
  - rewrite (addUser_new _ _ Hwf Hne Hu). simpl.
    destruct Hwf as [Hu1 [Hk1 [Hk2 [Hkeys [Hsets [Hrefs Hempty]]]]]].
    apply set_has_false in Hu.
    split; [| split; [| split; [| split; [| split; [| split]]]]]; simpl.
    + apply NoDup_app; [assumption | repeat constructor; intros [] |].
      intros y Hy [<- | []]. contradiction.
    + rewrite map_app. simpl.
      apply NoDup_app; [assumption | repeat constructor; intros [] |].
      intros y Hy [<- | []]. apply Hu.
      apply set_has_In. rewrite <- Hkeys. apply map_has_true.
      destruct (map_get userId (referrals g)) eqn:E; [eauto |].
      apply map_get_None_keys in E. contradiction.
    + assumption.
    + intros k. rewrite set_has_app.
      replace (referrals g ++ [(userId, [])])
        with (map_set userId [] (referrals g)).
      * rewrite map_has_set, Hkeys. apply orb_comm.
      * apply map_set_new. apply map_has_false. rewrite Hkeys.
        now apply set_has_false.
    + intros k s Hget.
      assert (Hs : (k = userId /\ s = []) \/ map_get k (referrals g) = Some s).
      { replace (referrals g ++ [(userId, [])])
          with (map_set userId [] (referrals g)) in Hget.
        - destruct (String.eqb_spec k userId) as [-> | Hk].
          + rewrite map_get_set_same in Hget. injection Hget as <-. now left.
          + rewrite map_get_set_other in Hget by assumption. now right.
        - apply map_set_new. apply map_has_false. rewrite Hkeys.
          now apply set_has_false. }
      destruct Hs as [[-> ->] | Hold].
      * split; [constructor | intros c []].
      * destruct (Hsets _ _ Hold) as [Hnd Hin]. split; [assumption |].
        intros c Hc. apply in_app_iff. left. auto.
    + intros c r Hget. destruct (Hrefs _ _ Hget).
      split; apply in_app_iff; now left.
    + rewrite in_app_iff. intros [H | [H | []]]; [contradiction | congruence].
Qed.

Lemma addReferral_wellformed g referrerId candidateId o :
  wellformed g ->
  addReferral g referrerId candidateId = Some o ->
  wellformed (state_of o).
Proof.
  intros Hwf. unfold addReferral, wouldCreateCycle.
  destruct (_ || _); [intros H; injection H as <-; assumption |].
  destruct (String.eqb referrerId candidateId);
    [intros H; injection H as <-; assumption |].
  pose proof (addUser_wellformed g referrerId Hwf) as Hwf1.
  destruct (addUser g referrerId) as [g1 | e g1] eqn:H1;
    [| intros H; injection H as <-; assumption].
  simpl in Hwf1.
  pose proof (addUser_wellformed g1 candidateId Hwf1) as Hwf2.
  destruct (addUser g1 candidateId) as [g2 | e g2] eqn:H2;
    [| intros H; injection H as <-; assumption].
  simpl in Hwf2.
  destruct (map_has candidateId (referrers g2)) eqn:Hhas;
    [intros H; injection H as <-; assumption |].
  destruct (canReach g2 candidateId referrerId) as [[|] |];
    [intros H; injection H as <-; assumption | | discriminate].
  destruct (map_get referrerId (referrals g2)) as [candidates |] eqn:Hget;
    [| intros H; injection H as <-; assumption].
  intros H; injection H as <-. simpl.
  assert (Hc : In candidateId (users g2)).
  { revert H2. unfold addUser. destruct (String.eqb candidateId ""); [discriminate |].
    intros H. injection H as <-. simpl. apply set_add_In. now left. }
  destruct Hwf2 as [Hu1 [Hk1 [Hk2 [Hkeys [Hsets [Hrefs Hempty]]]]]].
  assert (Hr : In referrerId (users g2)).
  { apply set_has_In. rewrite <- Hkeys. apply map_has_true. eauto. }
  apply map_has_false in Hhas.
  split; [| split; [| split; [| split; [| split; [| split]]]]]; simpl.
  - assumption.
  - now rewrite (map_set_keys _ _ _ _ _ Hget).
  - rewrite (map_set_new _ _ _ _ Hhas), map_app. simpl.
    apply NoDup_app; [assumption | repeat constructor; intros [] |].
    intros y Hy [<- | []]. now apply map_get_None_keys in Hhas.
  - intros k. rewrite map_has_set, Hkeys.
    destruct (String.eqb_spec k referrerId) as [-> | _]; [| reflexivity].
    simpl. symmetry. now apply set_has_In.
  - intros k s. destruct (String.eqb_spec k referrerId) as [-> | Hk].
    + rewrite map_get_set_same. intros H. injection H as <-.
      destruct (Hsets _ _ Hget) as [Hnd Hin].
      split; [now apply set_add_NoDup |].
      intros c Hc'. apply set_add_In in Hc'. destruct Hc' as [-> | Hc']; auto.
    + rewrite map_get_set_other by assumption. apply Hsets.
  - intros c r. destruct (String.eqb_spec c candidateId) as [-> | Hk].
    + rewrite map_get_set_same. intros H. injection H as <-. auto.
    + rewrite map_get_set_other by assumption. apply Hrefs.
  - assumption.
Qed.

Lemma run_invariants calls :
  forall g, wellformed g -> consistent g ->
    exists g', run g calls = Some g' /\ wellformed g' /\ consistent g'.
Proof.
  induction calls as [| [userId | referrerId candidateId] calls IH];
    simpl; intros g Hwf Hg.
  - eauto.
  - apply IH.
    + now apply addUser_wellformed.
    + eapply addUser_consistent; [reflexivity | assumption].
  - destruct (addReferral_returns g referrerId candidateId) as [o Ho].
    rewrite Ho. apply IH.
    + eapply addReferral_wellformed; eassumption.
    + eapply addReferral_consistent; eassumption.
Qed.

(** X4. Whatever [addUser] and [addReferral] calls are made on a new
    store, in any order and whether they throw or not, the three fields
    stay in step: no user is listed twice, the adjacency map has exactly
    the users as its keys, every candidate set is duplicate-free and made
    of users, the reverse map relates users only; and the graph still has
    in-degree at most 1 and no cycle. *)
Theorem run_wellformed (calls : list Call) :
  exists g,
    run empty calls = Some g /\ wellformed g /\ in_degree_le_1 g /\ acyclic g.
Proof.
  destruct (run_invariants calls empty wellformed_empty consistent_empty)
    as [g [Hrun [Hwf Hg]]].
  exists g. split; [assumption |]. split; [assumption |]. split.
  - now apply consistent_in_degree.
  - apply Hg.
Qed.


(** *** What a rejected call leaves behind *)

Lemma path_first g x z :
  path g x z -> x = z \/ exists y, edge g x y /\ path g y z.
Proof. intros H. inversion H; subst; eauto. Qed.

Lemma edge_source_user g x y : wellformed g -> edge g x y -> In x (users g).
Proof.
  intros [_ [_ [_ [Hkeys _]]]] [s [Hs _]].
  apply set_has_In. rewrite <- Hkeys. apply map_has_true. eauto.
Qed.

Lemma edge_target_user g x y : wellformed g -> edge g x y -> In y (users g).
Proof.
  intros [_ [_ [_ [_ [Hsets _]]]]] [s [Hs Hy]].
  destruct (Hsets _ _ Hs) as [_ Hin]. auto.
Qed.

(** X5. On a well-formed store a rejected [addReferral] leaves the object
    exactly as it was, with one exception: a call rejected for a duplicate
    referrer whose referrer was not a user yet has appended that referrer
    to the users and, with an empty candidate set, to the adjacency map.
    A call rejected for empty ids, a self-referral or a cycle never
    changes anything. *)
Theorem addReferral_rejection_effect g referrerId candidateId e g' :
  wellformed g ->
  addReferral g referrerId candidateId = Some (Threw e g') ->
  match e with
  | DuplicateReferrer =>
      if set_has referrerId (users g) then g' = g
      else g' = mk (referrals g ++ [(referrerId, [])]) (referrers g)
                  (users g ++ [referrerId])
  | _ => g' = g
  end.
Proof.
  intros Hwf. unfold addReferral, wouldCreateCycle.
  destruct (String.eqb_spec referrerId "") as [-> | Hr]; simpl.
  { intros H. injection H as <- <-. reflexivity. }
  destruct (String.eqb_spec candidateId "") as [-> | Hc]; simpl.
  { intros H. injection H as <- <-. reflexivity. }
  destruct (String.eqb_spec referrerId candidateId) as [-> | Hne].
  { intros H. injection H as <- <-. reflexivity. }
  destruct (addUser_returns g referrerId Hr) as [g1 H1]. rewrite H1.
  destruct (addUser_returns g1 candidateId Hc) as [g2 H2]. rewrite H2.
  pose proof (addUser_wellformed g referrerId Hwf) as Hwf1.
  rewrite H1 in Hwf1. simpl in Hwf1.
  destruct (addUser_returned_graph _ _ _ H1) as [He1 Hr1].
  destruct (addUser_returned_graph _ _ _ H2) as [He2 Hr2].
  assert (Hedge : forall a b, edge g2 a b <-> edge g a b).
  { intros a b. rewrite He2. apply He1. }
  assert (Hg1 : g1 = if set_has referrerId (users g) then g
                     else mk (referrals g ++ [(referrerId, [])]) (referrers g)
                            (users g ++ [referrerId])).
  { destruct (set_has referrerId (users g)) eqn:E.
    - rewrite (addUser_known _ _ Hwf E) in H1. congruence.
    - rewrite (addUser_new _ _ Hwf Hr E) in H1. congruence. }
  assert (Hsub : forall x, In x (users g) -> In x (users g1)).
  { intros x Hx. rewrite Hg1. destruct (set_has referrerId (users g));
      [assumption |]. simpl. apply in_app_iff. now left. }
  assert (Hsame : In candidateId (users g) -> g2 = g1).
  { intros Hin.
    rewrite (addUser_known g1 candidateId Hwf1) in H2; [congruence |].
    apply set_has_In. auto. }
  destruct (map_has candidateId (referrers g2)) eqn:Hhas.
  { (* a duplicate referrer: the candidate is a user, the referrer may be new *)
    intros H. injection H as <- <-.
    rewrite Hsame; [destruct (set_has referrerId (users g)); exact Hg1 |].
    apply map_has_true in Hhas. destruct Hhas as [r Hget].
    rewrite Hr2, Hr1 in Hget.
    destruct Hwf as [_ [_ [_ [_ [_ [Hrefs _]]]]]].
    apply (Hrefs _ _ Hget). }
  destruct (canReach g2 candidateId referrerId) as [[|] |] eqn:Hreach;
    try discriminate.
  { (* a cycle: both ends of the chain are users already *)
    intros H. injection H as <- <-.
    apply canReach_true_path in Hreach.
    apply (path_iff_same_edges g g2 _ _ Hedge) in Hreach.
    assert (Hcand : In candidateId (users g)).
    { destruct (path_first _ _ _ Hreach) as [E | [y [Hy _]]]; [congruence |].
      eapply edge_source_user; eassumption. }
    assert (Hknown : set_has referrerId (users g) = true).
    { apply set_has_In.
      destruct (path_last _ _ _ Hreach) as [E | [v [_ Hv]]]; [congruence |].
      eapply edge_target_user; eassumption. }
    rewrite (Hsame Hcand), Hg1, Hknown. reflexivity. }
  destruct (addUser_has_key _ _ _ H1) as [s Hs].
  pose proof (addUser_keeps_key _ _ _ _ _ H2 Hs) as Hk. simpl in Hk.
  rewrite Hk. discriminate.
Qed.

(** The rejection of a second referrer for "b", the second referrer being
    new. *)
Lemma addReferral_rejection_effect_witness :
  wellformed (mk [("a", ["b"]); ("b", [])] [("b", "a")] ["a"; "b"]) /\
  addReferral (mk [("a", ["b"]); ("b", [])] [("b", "a")] ["a"; "b"]) "c" "b"
  = Some (Threw DuplicateReferrer
            (mk [("a", ["b"]); ("b", []); ("c", [])] [("b", "a")]
               ["a"; "b"; "c"])) /\
  (if set_has "c" ["a"; "b"]
   then mk [("a", ["b"]); ("b", []); ("c", [])] [("b", "a")] ["a"; "b"; "c"]
        = mk [("a", ["b"]); ("b", [])] [("b", "a")] ["a"; "b"]
   else mk [("a", ["b"]); ("b", []); ("c", [])] [("b", "a")] ["a"; "b"; "c"]
        = mk ([("a", ["b"]); ("b", [])] ++ [("c", [])]) [("b", "a")]
             (["a"; "b"] ++ ["c"])).
Proof.
  assert (Hwf : wellformed (mk [("a", ["b"]); ("b", [])] [("b", "a")] ["a"; "b"])).
  { exact (addReferral_wellformed empty "a" "b"
             (Returned (mk [("a", ["b"]); ("b", [])] [("b", "a")] ["a"; "b"]))
             wellformed_empty eq_refl). }
  split; [exact Hwf |].
  split; [vm_compute; reflexivity |].
  apply (addReferral_rejection_effect
           (mk [("a", ["b"]); ("b", [])] [("b", "a")] ["a"; "b"])
           "c" "b" DuplicateReferrer _ Hwf).
  vm_compute. reflexivity.
Defined.

(** *** [getStats] *)

Lemma fold_sum_shift (l : list (list string)) n :
  fold_left (fun sum candidates => sum + List.length candidates) l n
  = n + fold_left (fun sum candidates => sum + List.length candidates) l 0.
Proof.
  revert n. induction l as [| s l IH]; simpl; intros n; [lia |].
  rewrite IH, (IH (List.length s)). lia.
Qed.

Lemma fold_sum_app (l1 l2 : list (list string)) :
  fold_left (fun sum candidates => sum + List.length candidates) (l1 ++ l2) 0
  = fold_left (fun sum candidates => sum + List.length candidates) l1 0
    + fold_left (fun sum candidates => sum + List.length candidates) l2 0.
Proof. rewrite fold_left_app. apply fold_sum_shift. Qed.

Lemma fold_sum_map_set (m : list (string * list string)) k s v :
  map_get k m = Some s ->
  fold_left (fun sum candidates => sum + List.length candidates)
    (map snd (map_set k v m)) 0 + List.length s
  = fold_left (fun sum candidates => sum + List.length candidates)
      (map snd m) 0 + List.length v.
Proof.
  induction m as [| [k' s'] m IH]; simpl; [discriminate |].
  destruct (String.eqb k k').
  - intros H. injection H as ->. simpl.
    rewrite (fold_sum_shift _ (List.length v)), (fold_sum_shift _ (List.length s)).
    lia.
  - intros H. specialize (IH H). simpl.
    rewrite (fold_sum_shift _ (List.length s')),
      (fold_sum_shift (map snd m) (List.length s')). lia.
Qed.

Lemma nonempty_le_sum (l : list (list string)) :
  List.length (filter (fun candidates => (0 <? List.length candidates)%nat) l)
  <= fold_left (fun sum candidates => sum + List.length candidates) l 0.
Proof.
  induction l as [| s l IH]; simpl; [lia |].
  rewrite fold_sum_shift.
  destruct (0 <? List.length s)%nat eqn:E; simpl; [| lia].
  apply Nat.ltb_lt in E. lia.
Qed.

Lemma addUser_counted g userId :
  counted g -> counted (state_of (addUser g userId)).
Proof.
  unfold counted, addUser, getStats. destruct (String.eqb userId ""); simpl; [auto |].
  destruct (map_has userId (referrals g)) eqn:Hhas; [auto |].
  apply map_has_false in Hhas. rewrite (map_set_new _ _ _ _ Hhas), map_app.
  rewrite fold_sum_app. simpl. intros <-. lia.
Qed.

Lemma addReferral_counted g referrerId candidateId o :
  consistent g -> counted g ->
  addReferral g referrerId candidateId = Some o ->
  counted (state_of o).
Proof.
  intros Hg Hcount. unfold addReferral, wouldCreateCycle.
  destruct (_ || _); [intros H; injection H as <-; assumption |].
  destruct (String.eqb referrerId candidateId);
    [intros H; injection H as <-; assumption |].
  pose proof (addUser_counted g referrerId Hcount) as Hc1.
  pose proof (addUser_consistent g referrerId _ eq_refl Hg) as Hg1.
  destruct (addUser g referrerId) as [g1 | e g1];
    [| intros H; injection H as <-; assumption].
  simpl in Hc1, Hg1.
  pose proof (addUser_counted g1 candidateId Hc1) as Hc2.
  pose proof (addUser_consistent g1 candidateId _ eq_refl Hg1) as Hg2.
  destruct (addUser g1 candidateId) as [g2 | e g2];
    [| intros H; injection H as <-; assumption].
  simpl in Hc2, Hg2.
  destruct (map_has candidateId (referrers g2)) eqn:Hhas;
    [intros H; injection H as <-; assumption |].
  destruct (canReach g2 candidateId referrerId) as [[|] |];
    [intros H; injection H as <-; assumption | | discriminate].
  destruct (map_get referrerId (referrals g2)) as [candidates |] eqn:Hget;
    [| intros H; injection H as <-; assumption].
  intros H; injection H as <-. unfold counted, getStats in *. simpl in *.
  apply map_has_false in Hhas.
  assert (Hfresh : set_has candidateId candidates = false).
  { apply set_has_false. intros Hin.
    assert (Hedge : edge g2 referrerId candidateId) by (exists candidates; auto).
    apply (proj1 Hg2) in Hedge. congruence. }
  pose proof (fold_sum_map_set _ _ _ (set_add candidateId candidates) Hget) as Hsum.
  rewrite (set_add_new _ _ Hfresh), length_app in Hsum. simpl in Hsum.
  rewrite (map_set_new _ _ _ _ Hhas), length_app. simpl.
  rewrite (set_add_new _ _ Hfresh). lia.
Qed.

Lemma run_counted calls :
  forall g, wellformed g -> consistent g -> counted g ->
    exists g', run g calls = Some g' /\ wellformed g' /\ counted g'.
Proof.
  induction calls as [| [userId | referrerId candidateId] calls IH];
    simpl; intros g Hwf Hg Hc.
  - eauto.
  - apply IH.
    + now apply addUser_wellformed.
    + eapply addUser_consistent; [reflexivity | assumption].
    + now apply addUser_counted.
  - destruct (addReferral_returns g referrerId candidateId) as [o Ho].
    rewrite Ho. apply IH.
    + eapply addReferral_wellformed; eassumption.
    + eapply addReferral_consistent; eassumption.
    + eapply addReferral_counted; eassumption.
Qed.

(** X6. After any calls of [addUser] and [addReferral] on a new store,
    [getStats()] reports as [totalReferrals] the number of users that have
    a referrer (one per accepted referral), which is at most [totalUsers],
    and [usersWithReferrals] is at most [totalReferrals]. *)
Theorem getStats_counts (calls : list Call) :
  exists g,
    run empty calls = Some g /\
    totalUsers (getStats g) = List.length (users g) /\
    totalReferrals (getStats g) = List.length (referrers g) /\
    totalReferrals (getStats g) <= totalUsers (getStats g) /\
    usersWithReferrals (getStats g) <= totalReferrals (getStats g).
Proof.
  destruct (run_counted calls empty wellformed_empty consistent_empty eq_refl)
    as [g [Hrun [Hwf Hc]]].
  exists g. split; [assumption |]. split; [reflexivity |].
  split; [exact Hc |]. split.
  - rewrite Hc. simpl.
    destruct Hwf as [_ [_ [Hk [_ [_ [Hrefs _]]]]]].
    rewrite <- (length_map fst (referrers g)).
    apply NoDup_incl_length; [assumption |].
    intros c Hin.
    destruct (map_get c (referrers g)) as [r |] eqn:E.
    + apply (Hrefs _ _ E).
    + apply map_get_None_keys in E. contradiction.
  - apply nonempty_le_sum.
Qed.

End StoreFacts.


(** ** Reach and depth *)

Module ReachFacts.
Import Js JsFacts ReferralNetwork NetworkAnalysis.
Import GraphProofs ReachProofs StoreFacts.

(** X7. For a known user, [calculateReach] returns the number of distinct
    other users that a chain of referrals leads to from that user; for an
    unknown user it returns 0. *)
Theorem calculateReach_counts_descendants g userId :
  (set_has userId (users g) = false /\ calculateReach g userId = Some 0) \/
  (set_has userId (users g) = true /\
   exists descendants,
     NoDup descendants /\
     (forall x, In x descendants <-> x <> userId /\ path g userId x) /\
     calculateReach g userId = Some (List.length descendants)).
Proof.
  destruct (set_has userId (users g)) eqn:Hu.
  - right. split; [reflexivity |].
    destruct (calculateReach_known g userId Hu) as [d [_ [Hr [Hnd Hd]]]].
    exists d. auto.
  - left. split; [reflexivity |]. unfold calculateReach. now rewrite Hu.
Qed.

(** X8. In a well-formed store without cycles a referrer reaches strictly
    more users than any of its direct referrals. *)
Theorem calculateReach_decreases_along_referral g referrerId candidateId :
  wellformed g -> acyclic g ->
  edge g referrerId candidateId ->
  reach_of g candidateId < reach_of g referrerId.
Proof.
  intros Hwf Hac Hedge.
  assert (Hr : set_has referrerId (users g) = true)
    by (apply set_has_In; eapply edge_source_user; eassumption).
  assert (Hc : set_has candidateId (users g) = true)
    by (apply set_has_In; eapply edge_target_user; eassumption).
  destruct (calculateReach_known g referrerId Hr) as [dr [_ [Hrr [Hndr Hdr]]]].
  destruct (calculateReach_known g candidateId Hc) as [dc [_ [Hrc [Hndc Hdc]]]].
  unfold reach_of. rewrite Hrr, Hrc.
  assert (Hne : candidateId <> referrerId).
  { intros ->. apply (Hac referrerId). exists referrerId.
    split; [assumption | apply path_refl]. }
  assert (Hle : List.length (candidateId :: dc) <= List.length dr).
  { apply NoDup_incl_length.
    - constructor; [| assumption]. intros Hin. apply Hdc in Hin. tauto.
    - intros x [<- | Hx]; apply Hdr.
      + split; [assumption |]. apply path_step with candidateId;
          [assumption | apply path_refl].
      + apply Hdc in Hx. destruct Hx as [_ Hp]. split.
        * intros ->. apply (Hac referrerId). exists candidateId. auto.
        * apply path_step with candidateId; assumption. }
  simpl in Hle. lia.
Qed.

(** The chain a -> b -> c: a reaches 2 users, b reaches 1. *)
Lemma calculateReach_decreases_along_referral_witness :
  wellformed (ReferralNetwork.mk [("a", ["b"]); ("b", ["c"]); ("c", [])]
                [("b", "a"); ("c", "b")] ["a"; "b"; "c"]) /\
  acyclic (ReferralNetwork.mk [("a", ["b"]); ("b", ["c"]); ("c", [])]
             [("b", "a"); ("c", "b")] ["a"; "b"; "c"]) /\
  edge (ReferralNetwork.mk [("a", ["b"]); ("b", ["c"]); ("c", [])]
          [("b", "a"); ("c", "b")] ["a"; "b"; "c"]) "a" "b" /\
  reach_of (ReferralNetwork.mk [("a", ["b"]); ("b", ["c"]); ("c", [])]
              [("b", "a"); ("c", "b")] ["a"; "b"; "c"]) "b"
  < reach_of (ReferralNetwork.mk [("a", ["b"]); ("b", ["c"]); ("c", [])]
                [("b", "a"); ("c", "b")] ["a"; "b"; "c"]) "a".
Proof.
  destruct (run_invariants [AddReferral "a" "b"; AddReferral "b" "c"] empty
              wellformed_empty consistent_empty) as [g [Hrun [Hwf Hg]]].
  vm_compute in Hrun. injection Hrun as <-.
  assert (He : edge (ReferralNetwork.mk [("a", ["b"]); ("b", ["c"]); ("c", [])]
                       [("b", "a"); ("c", "b")] ["a"; "b"; "c"]) "a" "b").
  { exists ["b"]. split; [reflexivity | now left]. }
  split; [exact Hwf |]. split; [exact (proj2 Hg) |]. split; [exact He |].
  exact (calculateReach_decreases_along_referral _ _ _ Hwf (proj2 Hg) He).
Defined.

(** *** [getUsersAtDepth] returns the users at that distance *)

Lemma level_referrals_spec ds :
  forall nextLevel visited nextLevel' visited',
    level_referrals ds nextLevel visited = (nextLevel', visited') ->
    (forall x, In x visited' <-> In x visited \/ In x ds) /\
    (forall x, In x nextLevel' <-> In x nextLevel \/ (In x ds /\ ~ In x visited)) /\
    (NoDup nextLevel -> NoDup nextLevel').
Proof.
  induction ds as [| d ds IH]; cbn [level_referrals];
    intros next visited next' visited' H.
  - injection H as <- <-. split; [| split]; [| | auto]; intros x; simpl; tauto.
  - destruct (set_has d visited) eqn:E.
    + apply set_has_In in E. destruct (IH _ _ _ _ H) as [Hv [Hn Hnd]].
      split; [| split]; [| | assumption]; intros x.
      * rewrite Hv. simpl. split; [tauto |]. intros [? | [<- | ?]]; tauto.
      * rewrite Hn. simpl. split; [tauto |]. intros [? | [[<- | ?] ?]]; tauto.
    + apply set_has_false in E.
      destruct (IH _ _ _ _ H) as [Hv [Hn Hnd]].
      split; [| split]; [intros x | intros x |].
      * rewrite Hv, set_add_In. simpl. split; intros; intuition (subst; auto).
      * rewrite Hn, !set_add_In. simpl.
        destruct (string_dec d x) as [<- | Hne]; [tauto |].
        split; intros; intuition (subst; auto); congruence.
      * intros Hnext. apply Hnd. now apply set_add_NoDup.
Qed.

Lemma next_level_spec g level :
  forall nextLevel visited nextLevel' visited',
    next_level g level nextLevel visited = (nextLevel', visited') ->
    (forall x, In x visited' <->
               In x visited \/ exists v, In v level /\ edge g v x) /\
    (forall x, In x nextLevel' <->
               In x nextLevel \/
               ((exists v, In v level /\ edge g v x) /\ ~ In x visited)) /\
    (NoDup nextLevel -> NoDup nextLevel').
Proof.
  induction level as [| userId level IH]; cbn [next_level];
    intros next visited next' visited' H.
  - injection H as <- <-.
    split; [| split]; [| | auto]; intros x; split; try tauto.
    + intros [? | [v [[] _]]]. assumption.
    + intros [? | [[v [[] _]] _]]. assumption.
  - destruct (map_get userId (referrals g)) as [ds |] eqn:Hget.
    + destruct (level_referrals ds next visited) as [next1 visited1] eqn:Hl.
      destruct (level_referrals_spec _ _ _ _ _ Hl) as [Hv1 [Hn1 Hnd1]].
      destruct (IH _ _ _ _ H) as [Hv [Hn Hnd]].
      assert (Hds : forall x, In x ds <-> edge g userId x).
      { intros x. split.
        - intros Hx. exists ds. auto.
        - intros [s [Hs Hx]]. congruence. }
      split; [| split]; [intros x | intros x | auto].
      * rewrite Hv, Hv1, Hds. split.
        -- intros [[? | ?] | [v [? ?]]]; [tauto | |].
           ++ right. exists userId. split; [now left | assumption].
           ++ right. exists v. split; [now right | assumption].
        -- intros [? | [v [[<- | ?] ?]]]; [tauto | tauto |].
           right. exists v. tauto.
      * rewrite Hn, Hn1, Hv1, Hds. split.
        -- intros [[? | [? ?]] | [[v [? ?]] Hnot]]; [tauto | |].
           ++ right. split; [| assumption]. exists userId. split; [now left | assumption].
           ++ right. split; [| tauto]. exists v. split; [now right | assumption].
        -- intros [? | [[v [[<- | Hin] Hvx]] Hnot]]; [tauto | tauto |].
           destruct (in_dec string_dec x ds) as [Hxd | Hxd]; [apply Hds in Hxd; tauto |].
           right. split; [exists v; tauto |]. rewrite Hds in *. tauto.
    + destruct (IH _ _ _ _ H) as [Hv [Hn Hnd]].
      assert (Hno : forall x, ~ edge g userId x).
      { intros x [s [Hs _]]. congruence. }
      split; [| split]; [intros x | intros x | auto].
      * rewrite Hv. split.
        -- intros [? | [v [? ?]]]; [tauto |]. right. exists v. split; [now right | assumption].
        -- intros [? | [v [[<- | ?] He]]]; [tauto | now apply Hno in He |].
           right. exists v. tauto.
      * rewrite Hn. split.
        -- intros [? | [[v [? ?]] ?]]; [tauto |]. right. split; [| assumption].
           exists v. split; [now right | assumption].
        -- intros [? | [[v [[<- | ?] He]] ?]]; [tauto | now apply Hno in He |].
           right. split; [exists v; tauto | assumption].
Qed.

Lemma descend_spec g root n :
  forall k level visited,
    (forall x, In x visited <-> exists j, j <= k /\ path_len g j root x) ->
    (forall x, In x level <-> hops g k root x) ->
    NoDup level ->
    NoDup (descend n g level visited) /\
    forall x, In x (descend n g level visited) <-> hops g (k + n) root x.
Proof.
  induction n as [| n IH]; cbn [descend]; intros k level visited Hvis Hlev Hnd.
  - rewrite Nat.add_0_r. auto.
  - destruct (next_level g level [] visited) as [next visited'] eqn:Hnext.
    destruct (next_level_spec _ _ _ _ _ _ Hnext) as [Hv [Hn Hndn]].
    replace (k + S n) with (S k + n) by lia.
    apply IH; [| | apply Hndn; constructor].
    + (* the visited set holds the users within [S k] edges *)
      intros x. rewrite Hv. split.
      * intros [Hx | [v [Hvl Hvx]]].
        -- apply Hvis in Hx. destruct Hx as [j [Hj Hp]]. exists j. split; [lia | assumption].
        -- apply Hlev in Hvl. destruct Hvl as [Hp _].
           exists (S k). split; [lia |]. econstructor; eassumption.
      * intros [j [Hj Hp]].
        destruct (in_dec string_dec x visited) as [Hin | Hout]; [now left |].
        right.
        destruct (Nat.eq_dec j (S k)) as [-> | Hlt].
        2:{ exfalso. apply Hout, Hvis. exists j. split; [lia | assumption]. }
        inversion Hp as [| ? ? y ? Hy Hyx]; subst.
        exists y. split; [| assumption]. apply Hlev. split; [assumption |].
        intros m Hm Hpm. apply Hout, Hvis. exists (S m). split; [lia |].
        econstructor; eassumption.
    + (* the next level holds the users exactly [S k] edges away *)
      intros x. rewrite Hn. split.
      * intros [[] | [[v [Hvl Hvx]] Hout]].
        apply Hlev in Hvl. destruct Hvl as [Hp _]. split.
        -- econstructor; eassumption.
        -- intros m Hm Hpm. apply Hout, Hvis. exists m. split; [lia | assumption].
      * intros [Hp Hmin]. right.
        inversion Hp as [| ? ? y ? Hy Hyx]; subst.
        split.
        -- exists y. split; [| assumption]. apply Hlev. split; [assumption |].
           intros m Hm Hpm. apply (Hmin (S m)); [lia |]. econstructor; eassumption.
        -- intros Hin. apply Hvis in Hin. destruct Hin as [j [Hj Hpj]].
           apply (Hmin j); [lia | assumption].
Qed.

(** X9. For a known root and a depth of at least 1, [getUsersAtDepth]
    returns, without repetition, exactly the users that are [depth]
    referrals away from the root: a chain of [depth] referrals leads to
    them and no shorter one does. *)
Theorem getUsersAtDepth_hops g rootUserId depth :
  set_has rootUserId (users g) = true ->
  (1 <= depth)%Z ->
  NoDup (getUsersAtDepth g rootUserId depth) /\
  forall x, In x (getUsersAtDepth g rootUserId depth)
            <-> hops g (Z.to_nat depth) rootUserId x.
Proof.
  intros Hu Hd. unfold getUsersAtDepth. rewrite Hu.
  assert ((depth <? 1)%Z = false) as -> by (apply Z.ltb_ge; lia). simpl.
  apply (descend_spec g rootUserId (Z.to_nat depth) 0 [rootUserId] [rootUserId]).
  - intros x. simpl. split.
    + intros [<- | []]. exists 0. split; [lia | constructor].
    + intros [j [Hj Hp]]. assert (j = 0) by lia. subst.
      inversion Hp; subst. now left.
  - intros x. simpl. split.
    + intros [<- | []]. split; [constructor | intros m Hm; lia].
    + intros [Hp _]. inversion Hp; subst. now left.
  - repeat constructor. intros [].
Qed.

(** The second level below "a" in the chain a -> b -> c. *)
Lemma getUsersAtDepth_hops_witness :
  set_has "a" ["a"; "b"; "c"] = true /\ (1 <= 2)%Z /\
  NoDup (getUsersAtDepth
           (ReferralNetwork.mk [("a", ["b"]); ("b", ["c"]); ("c", [])]
              [("b", "a"); ("c", "b")] ["a"; "b"; "c"]) "a" 2) /\
  forall x,
    In x (getUsersAtDepth
            (ReferralNetwork.mk [("a", ["b"]); ("b", ["c"]); ("c", [])]
               [("b", "a"); ("c", "b")] ["a"; "b"; "c"]) "a" 2)
    <-> hops (ReferralNetwork.mk [("a", ["b"]); ("b", ["c"]); ("c", [])]
                [("b", "a"); ("c", "b")] ["a"; "b"; "c"]) (Z.to_nat 2) "a" x.
Proof.
  split; [reflexivity |]. split; [lia |].
  apply getUsersAtDepth_hops; [reflexivity | lia].
Defined.

(** Below depth 1, or from an unknown root, there is nobody. *)
Lemma getUsersAtDepth_nobody g rootUserId depth :
  set_has rootUserId (users g) = false \/ (depth < 1)%Z ->
  getUsersAtDepth g rootUserId depth = [].
Proof.
  unfold getUsersAtDepth. intros [-> | Hd]; [reflexivity |].
  apply Z.ltb_lt in Hd. rewrite Hd. now rewrite orb_true_r.
Qed.


End ReachFacts.

(** ** The caches *)

Module CacheFacts.
Import Js JsFacts ReferralNetwork NetworkAnalysis InfluencerAnalysis.
Import GraphProofs ReachProofs InfluencerProofs StoreFacts ReachFacts.



(** X11. After [clearCaches()], [getReachSet] of a known user returns,
    without repetition, exactly the other users that a chain of referrals
    leads to from that user in the graph as it is now, whatever the cache
    held before. *)
Theorem getReachSet_after_clearCaches a userId :
  set_has userId (users (network a)) = true ->
  exists reachSet a',
    getReachSet (clearCaches a) userId = Some (reachSet, a') /\
    NoDup reachSet /\
    forall x, In x reachSet <-> x <> userId /\ path (network a) userId x.
Proof.
  intros Hu. unfold getReachSet, clearCaches. simpl. rewrite Hu.
  destruct (calculateReach_known (network a) userId Hu)
    as [descendants [Hloop [_ [Hnd Hd]]]].
  pose proof (getReachSet_calculateReach_loop (network a) userId
                (traversal_fuel (network a)) [userId] []) as H.
  rewrite Hloop in H. destruct H as [s [Hs ->]].
  injection Hs as <-. eauto.
Qed.

(** A stale cache entry for "a" is dropped. *)
Lemma getReachSet_after_clearCaches_witness :
  set_has "a" ["a"; "b"; "c"] = true /\
  exists reachSet a',
    getReachSet
      (clearCaches
         (NetworkAnalysis.mk
            (ReferralNetwork.mk [("a", ["b"]); ("b", ["c"]); ("c", [])]
               [("b", "a"); ("c", "b")] ["a"; "b"; "c"]) [("a", ["b"])] []))
      "a" = Some (reachSet, a') /\
    NoDup reachSet /\
    forall x, In x reachSet <->
      x <> "a" /\
      path (ReferralNetwork.mk [("a", ["b"]); ("b", ["c"]); ("c", [])]
              [("b", "a"); ("c", "b")] ["a"; "b"; "c"]) "a" x.
Proof.
  split; [reflexivity |].
  apply (getReachSet_after_clearCaches
           (NetworkAnalysis.mk
              (ReferralNetwork.mk [("a", ["b"]); ("b", ["c"]); ("c", [])]
                 [("b", "a"); ("c", "b")] ["a"; "b"; "c"]) [("a", ["b"])] [])).
  reflexivity.
Defined.

End CacheFacts.

(** ** The influencer metrics *)

Module InfluencerFacts.
Import Js JsFacts ReferralNetwork NetworkAnalysis InfluencerAnalysis.
Import GraphProofs ReachProofs InfluencerProofs StoreFacts ReachFacts.

(** *** What the greedy selection covers *)

Lemma fold_set_add_spec l :
  forall acc,
    (NoDup acc -> NoDup (fold_left (fun s x => set_add x s) l acc)) /\
    (forall x, In x (fold_left (fun s x => set_add x s) l acc)
               <-> In x acc \/ In x l) /\
    List.length (fold_left (fun s x => set_add x s) l acc)
    <= List.length acc + List.length l.
Proof.
  induction l as [| y l IH]; simpl; intros acc.
  - split; [auto |]. split; [intros x; tauto | lia].
  - destruct (IH (set_add y acc)) as [Hnd [Hin Hlen]].
    split; [| split].
    + intros H. apply Hnd. now apply set_add_NoDup.
    + intros x. rewrite Hin, set_add_In. split; intros; intuition (subst; auto).
    + assert (List.length (set_add y acc) <= S (List.length acc)).
      { unfold set_add. destruct (set_has y acc); [lia |].
        rewrite length_app. simpl. lia. }
      lia.
Qed.

Lemma fold_set_add_length l :
  forall acc,
    NoDup l -> (forall x, In x l -> ~ In x acc) ->
    List.length (fold_left (fun s x => set_add x s) l acc)
    = List.length acc + List.length l.
Proof.
  induction l as [| y l IH]; simpl; intros acc Hnd Hfresh; [lia |].
  inversion Hnd as [| ? ? Hy Hnd']; subst.
  assert (Hnew : set_has y acc = false)
    by (apply set_has_false, Hfresh; now left).
  rewrite (set_add_new _ _ Hnew), IH; [rewrite length_app; simpl; lia | assumption |].
  intros x Hx Hin. apply in_app_iff in Hin. destruct Hin as [Hin | [<- | []]].
  - apply (Hfresh x); [now right | assumption].
  - contradiction.
Qed.

Lemma newUsersFrom_spec reachSets covered u :
  NoDup (newUsersFrom reachSets covered u) /\
  (forall x, In x (newUsersFrom reachSets covered u)
             <-> In x (reachSets u) /\ ~ In x covered) /\
  marginal reachSets covered u <= List.length (reachSets u).
Proof.
  unfold marginal, newUsersFrom, set_of_list.
  destruct (fold_set_add_spec
              (filter (fun user => negb (set_has user covered)) (reachSets u)) [])
    as [Hnd [Hin Hlen]].
  split; [apply Hnd; constructor |]. split.
  - intros x. rewrite Hin, filter_In, negb_true_iff, set_has_false. simpl. tauto.
  - pose proof (filter_length_le (fun user => negb (set_has user covered))
                  (reachSets u)).
    simpl in Hlen. lia.
Qed.

Lemma remove_first_NoDup x l :
  NoDup l -> NoDup (remove_first x l) /\ ~ In x (remove_first x l).
Proof.
  induction 1 as [| y l Hy Hnd IH]; simpl; [split; [constructor | tauto] |].
  destruct (String.eqb_spec x y) as [-> | Hne]; [split; assumption |].
  destruct IH as [IH1 IH2]. split.
  - constructor; [| assumption]. intros Hin. apply Hy. eapply remove_first_In; eassumption.
  - intros [E | Hin]; [congruence | contradiction].
Qed.

Lemma greedy_accounting reachSets budget active covered chosen final :
  greedy reachSets budget active covered chosen final ->
  NoDup covered ->
  List.length chosen <= budget /\
  Forall (fun sel => 1 <= uniqueContribution sel <= totalReach sel) chosen /\
  (forall sel, In sel chosen -> In (userId sel) active) /\
  (NoDup active -> NoDup (map userId chosen)) /\
  NoDup final /\
  (forall x, In x final <->
     In x covered \/ exists sel, In sel chosen /\ In x (reachSets (userId sel))) /\
  List.length final
  = List.length covered + list_sum (map uniqueContribution chosen).
Proof.
  induction 1 as [active covered | budget active covered Hnone
                 | budget before best after covered rest final Hpos Hb Ha Hrest IH];
    intros Hnd.
  - repeat split; simpl; try constructor; try tauto; try lia.
    intros [H | [sel [[] _]]]; assumption.
  - repeat split; simpl; try constructor; try tauto; try lia.
    intros [H | [sel [[] _]]]; assumption.
  - destruct (newUsersFrom_spec reachSets covered best) as [Hnew [Hin Hle]].
    destruct (fold_set_add_spec (newUsersFrom reachSets covered best) covered)
      as [Hcnd [Hcin _]].
    fold (cover (newUsersFrom reachSets covered best) covered) in Hcnd, Hcin.
    destruct (IH (Hcnd Hnd)) as [Hlen [Hall [Hact [Hdis [Hfin [Hmem Hsum]]]]]].
    split; [simpl; lia |]. split; [| split; [| split; [| split; [| split]]]].
    + constructor; [simpl; lia | assumption].
    + intros sel [<- | Hsel]; simpl.
      * apply in_app_iff. right. now left.
      * eapply remove_first_In. apply Hact. assumption.
    + intros Hnda. simpl. destruct (remove_first_NoDup best _ Hnda) as [Hr1 Hr2].
      constructor; [| auto].
      intros Hin'. apply in_map_iff in Hin'. destruct Hin' as [sel [<- Hsel]].
      apply Hr2, Hact. assumption.
    + assumption.
    + intros x. rewrite Hmem, Hcin, Hin. split.
      * intros [[Hc | [Hx _]] | [sel [Hsel Hx]]].
        -- now left.
        -- right. eexists. split; [now left | exact Hx].
        -- right. exists sel. split; [now right | assumption].
      * intros [Hc | [sel [[<- | Hsel] Hx]]].
        -- left. now left.
        -- simpl in Hx. destruct (in_dec string_dec x covered); [left; now left |].
           left. right. tauto.
        -- right. eauto.
    + rewrite Hsum. unfold cover.
      rewrite fold_set_add_length; [simpl; unfold marginal; lia | assumption |].
      intros x Hx. apply Hin in Hx. tauto.
Qed.

(** X12. [calculateUniqueReachExpansion(maxReferrers)] returns; it
    selects at most [maxReferrers] referrers, each a user whose reach set,
    as [getReachSet] returns it, is nonempty and, when no user is listed
    twice, each at most once; every selection contributes at least one new
    user and at most its total reach; the users covered are exactly those
    in the reach sets of the selected referrers, and
    [totalUniqueCoverage] is their number, which is the sum of the unique
    contributions.  When the reach cache holds no stale entry, every
    selected referrer has a direct referral. *)
Theorem calculateUniqueReachExpansion_accounting a maxReferrers :
  exists expansion a' covered,
    calculateUniqueReachExpansion a maxReferrers = Some (expansion, a') /\
    List.length (selectedReferrers expansion) <= Z.to_nat maxReferrers /\
    Forall (fun sel => 1 <= uniqueContribution sel <= totalReach sel)
      (selectedReferrers expansion) /\
    (forall sel, In sel (selectedReferrers expansion) ->
       In (userId sel) (activeReferrersOf a)) /\
    (forall sel, In sel (selectedReferrers expansion) ->
       In (userId sel) (users (network a)) /\
       0 < List.length (reachSetOf a (userId sel))) /\
    (NoDup (users (network a)) ->
     NoDup (map userId (selectedReferrers expansion))) /\
    NoDup covered /\
    (forall x, In x covered <->
       exists sel, In sel (selectedReferrers expansion) /\
                   In x (reachSetOf a (userId sel))) /\
    totalUniqueCoverage expansion = List.length covered /\
    totalUniqueCoverage expansion
    = list_sum (map uniqueContribution (selectedReferrers expansion)) /\
    (cache_current a ->
     forall sel, In sel (selectedReferrers expansion) ->
       exists referral, edge (network a) (userId sel) referral).
Proof.
  unfold calculateUniqueReachExpansion.
  destruct (collectReachSets_spec a (users (network a)) a [] [] eq_refl
              (fun v => eq_refl)) as [urs [a' [Hrun [_ Hurs]]]].
  { intros u []. }
  rewrite Hrun. simpl in Hurs.
  destruct (select_greedy (reachSetOf a) urs (Z.to_nat maxReferrers)
              (activeReferrersOf a) [] [] Hurs) as [chosen [final [Hsel Hgreedy]]].
  simpl in Hsel. unfold activeReferrersOf in Hsel. simpl. rewrite Hsel.
  destruct (greedy_accounting _ _ _ _ _ _ Hgreedy (NoDup_nil _))
    as [Hlen [Hall [Hact [Hdis [Hfin [Hmem Hsum]]]]]].
  assert (Hactive : forall sel, In sel chosen ->
            In (userId sel) (users (network a)) /\
            0 < List.length (reachSetOf a (userId sel))).
  { intros sel Hin. specialize (Hact _ Hin).
    unfold activeReferrersOf in Hact. apply filter_In in Hact.
    destruct Hact as [Hu Hpos]. apply Nat.ltb_lt in Hpos. auto. }
  exists (expansion_of (chosen, final)), a', final. simpl.
  split; [reflexivity |]. split; [assumption |]. split; [assumption |].
  split; [assumption |]. split; [assumption |]. split.
  { intros Hnd. apply Hdis. unfold activeReferrersOf. now apply NoDup_filter. }
  split; [assumption |]. split.
  { intros x. rewrite Hmem. split; [intros [[] | H]; assumption | now right]. }
  split; [reflexivity |]. split; [exact Hsum |].
  intros Hcache sel Hin. destruct (Hactive _ Hin) as [Hu Hpos].
  destruct (reachSetOf_descendants a (userId sel) Hcache Hu) as [_ Hd].
  destruct (reachSetOf a (userId sel)) as [| x others]; [simpl in Hpos; lia |].
  destruct (proj1 (Hd x) (or_introl eq_refl)) as [Hne Hpath].
  destruct (path_first _ _ _ Hpath) as [E | [y [Hy _]]]; [congruence | eauto].
Qed.

(** *** The distance matrix *)

Lemma path_len_path g n x z : path_len g n x z -> path g x z.
Proof.
  induction 1 as [x | n x y z Hxy IH Hyz]; [apply path_refl |].
  apply path_trans with y; [assumption |].
  apply path_step with z; [assumption | apply path_refl].
Qed.

Lemma path_len_prepend g n x y z :
  edge g x y -> path_len g n y z -> path_len g (S n) x z.
Proof.
  intros Hxy. induction 1 as [y | n y v z Hyv IH Hvz].
  - apply path_len_S with x; [constructor | assumption].
  - apply path_len_S with v; [apply IH; assumption | assumption].
Qed.

Lemma path_path_len g x z : path g x z -> exists n, path_len g n x z.
Proof.
  induction 1 as [x | x y z Hxy Hyz [n IH]].
  - exists 0. constructor.
  - exists (S n). eapply path_len_prepend; eassumption.
Qed.

Lemma hops_unique g n m x z : hops g n x z -> hops g m x z -> n = m.
Proof.
  intros [Hn Hnmin] [Hm Hmmin].
  destruct (Nat.lt_trichotomy n m) as [Hlt | [-> | Hgt]]; [| reflexivity |].
  - exfalso. apply (Hmmin n Hlt Hn).
  - exfalso. apply (Hnmin m Hgt Hm).
Qed.

Lemma enqueue_neighbors_spec ds distance :
  forall visited queue visited' queue',
    enqueue_neighbors ds distance visited queue = (visited', queue') ->
    exists added,
      queue' = queue ++ added /\
      labelled (S distance) added /\
      (forall c k, In (c, k) added -> In c ds /\ ~ In c visited) /\
      (forall c, In c ds -> ~ In c visited -> In (c, S distance) added) /\
      (forall x, In x visited' <-> In x visited \/ In x ds).
Proof.
  induction ds as [| d ds IH]; cbn [enqueue_neighbors];
    intros visited queue visited' queue' H.
  - injection H as <- <-. exists []. rewrite app_nil_r.
    split; [reflexivity |]. split; [constructor |].
    split; [intros c k [] |]. split; [intros c [] |]. intros x. simpl. tauto.
  - destruct (set_has d visited) eqn:E.
    + apply set_has_In in E.
      destruct (IH _ _ _ _ H) as [added [Hq [Hlab [Hin [Hall Hv]]]]].
      exists added. split; [assumption |]. split; [assumption |]. split; [| split].
      * intros c k Hc. destruct (Hin _ _ Hc). split; [now right | assumption].
      * intros c [<- | Hc] Hnot; [contradiction | auto].
      * intros x. rewrite Hv. simpl. split; [tauto |].
        intros [? | [<- | ?]]; tauto.
    + pose proof E as Hnew. apply set_has_false in Hnew.
      rewrite (set_add_new _ _ E) in H.
      destruct (IH _ _ _ _ H) as [added [Hq [Hlab [Hin [Hall Hv]]]]].
      exists ((d, S distance) :: added).
      split; [rewrite Hq, <- app_assoc; reflexivity |].
      split; [constructor; [reflexivity | assumption] |]. split; [| split].
      * intros c k [Hc | Hc].
        -- injection Hc as <- <-. split; [now left | assumption].
        -- destruct (Hin _ _ Hc) as [Hc1 Hc2]. split; [now right |].
           intros Hcv. apply Hc2. apply in_app_iff. now left.
      * intros c [<- | Hc] Hnot; [now left |].
        destruct (string_dec d c) as [<- | Hne]; [now left |].
        right. apply Hall; [assumption |].
        rewrite in_app_iff. simpl. tauto.
      * intros x. rewrite Hv, in_app_iff. simpl. tauto.
Qed.

Lemma labelled_In d segment v k : labelled d segment -> In (v, k) segment -> k = d.
Proof.
  intros Hlab Hin. unfold labelled in Hlab. rewrite Forall_forall in Hlab.
  apply (Hlab _ Hin).
Qed.

Lemma distances_step g source v d rest visited sd visited' queue' :
  distances_invariant g source ((v, d) :: rest) visited sd ->
  enqueue_neighbors
    (match map_get v (referrals g) with Some s => s | None => [] end)
    d visited rest = (visited', queue') ->
  distances_invariant g source queue' visited' (map_set v d sd).
Proof.
  intros [Hsrc [HA [HB [HC [[near [far [Hrest [Hnear [Hfar HF1]]]]] HF2]]]]] Henq.
  set (ds := match map_get v (referrals g) with Some s => s | None => [] end) in *.
  assert (Hds : forall c, edge g v c <-> In c ds).
  { intros c. unfold ds, edge.
    destruct (map_get v (referrals g)) as [s |].
    - split; [intros [s' [Hs Hc]]; congruence | intros Hc; eauto].
    - split; [intros [s' [Hs _]]; discriminate | intros []]. }
  destruct (enqueue_neighbors_spec _ _ _ _ _ _ Henq)
    as [added [-> [Hadd [Hin [Hall Hv]]]]].
  assert (Hsub : forall x, In x visited -> In x visited')
    by (intros x Hx; apply Hv; now left).
  assert (Hhead : hops g d source v) by (apply HA; now left).
  assert (HA' : forall u k, In (u, k) (rest ++ added) -> hops g k source u).
  { intros u k Hu. apply in_app_iff in Hu. destruct Hu as [Hu | Hu].
    - apply HA. now right.
    - pose proof (labelled_In _ _ _ _ Hadd Hu) as ->.
      destruct (Hin _ _ Hu) as [Hud Hnew]. split.
      + apply path_len_S with v; [apply Hhead | now apply Hds].
      + intros m Hm Hp. apply Hnew. apply (HF2 u m); [lia | assumption]. }
  assert (HB' : forall u k, map_get u (map_set v d sd) = Some k ->
            hops g k source u /\ forall c, edge g u c -> In c visited').
  { intros u k. destruct (String.eqb_spec u v) as [-> | Hne].
    - rewrite map_get_set_same. intros H. injection H as <-.
      split; [assumption |]. intros c Hc. apply Hv. right. now apply Hds.
    - rewrite map_get_set_other by assumption. intros H.
      destruct (HB _ _ H) as [H1 H2]. split; [assumption | auto]. }
  assert (HC' : forall x, In x visited' ->
            (exists k, map_get x (map_set v d sd) = Some k) \/
            (exists k, In (x, k) (rest ++ added))).
  { intros x Hx.
    destruct (String.eqb_spec x v) as [-> | Hne].
    { left. exists d. apply map_get_set_same. }
    rewrite map_get_set_other by assumption.
    destruct (in_dec string_dec x visited) as [Hold | Hnew].
    - destruct (HC _ Hold) as [Hs | [k [Hk | Hk]]]; [now left | congruence |].
      right. exists k. apply in_app_iff. now left.
    - apply Hv in Hx. destruct Hx as [Hx | Hx]; [contradiction |].
      right. exists (S d). apply in_app_iff. right. auto. }
  split; [auto |]. split; [exact HA' |]. split; [exact HB' |]. split; [exact HC' |].
  subst rest. destruct near as [| [u d'] near'].
  - (* the head was the last user at distance [d] *)
    simpl in *.
    assert (Hlab : labelled (S d) (far ++ added)).
    { unfold labelled in *. apply Forall_app. auto. }
    assert (HF2' : forall x n, n <= S d -> path_len g n source x -> In x visited').
    { intros x n Hn Hp. destruct (Nat.eq_dec n (S d)) as [-> | Hlt].
      - destruct (HF1 _ Hp) as [Hx | [w [[Hw | []] Hwx]]]; [auto |].
        injection Hw as <-. apply Hv. right. now apply Hds.
      - apply Hsub, (HF2 x n); [lia | assumption]. }
    destruct (far ++ added) as [| [w k] rest'] eqn:Hq; [exact I |].
    assert (k = S d) as ->.
    { eapply labelled_In; [exact Hlab | now left]. }
    split; [| exact HF2'].
    exists rest', []. rewrite app_nil_r.
    split; [reflexivity |]. split; [now inversion Hlab |]. split; [constructor |].
    intros x Hp. inversion Hp as [| ? ? y ? Hy Hyx]; subst.
    assert (Hyv : In y visited') by (apply (HF2' y (S d)); [lia | assumption]).
    destruct (HC' _ Hyv) as [[k Hk] | [k Hk]].
    + left. destruct (HB' _ _ Hk) as [_ Hcl]. auto.
    + right. exists y. split; [| assumption].
      pose proof (labelled_In _ _ _ _ Hlab Hk) as ->. exact Hk.
  - (* another user at distance [d] is next *)
    assert (d' = d) as ->.
    { eapply labelled_In; [exact Hnear | now left]. }
    simpl. split.
    + exists near', (far ++ added). split; [now rewrite <- app_assoc |].
      split; [now inversion Hnear |].
      split; [unfold labelled in *; apply Forall_app; auto |].
      intros x Hp. destruct (HF1 _ Hp) as [Hx | [w [Hw Hwx]]]; [auto |].
      destruct Hw as [Hw | Hw].
      * injection Hw as <-. left. apply Hv. right. now apply Hds.
      * right. exists w. split; assumption.
    + intros x n Hn Hp. apply Hsub. eapply HF2; eassumption.
Qed.

Lemma distances_loop_invariant g source fuel :
  forall queue visited sd result,
    distances_loop fuel g queue visited sd = Some result ->
    distances_invariant g source queue visited sd ->
    exists visited', distances_invariant g source [] visited' result.
Proof.
  induction fuel as [| fuel IH]; cbn [distances_loop];
    intros queue visited sd result Hrun Hinv; [discriminate |].
  destruct queue as [| [current distance] queue'].
  - injection Hrun as <-. eauto.
  - destruct (enqueue_neighbors _ distance visited queue')
      as [visited' queue''] eqn:He.
    eapply IH; [exact Hrun |].
    eapply distances_step; eassumption.
Qed.

Lemma distances_loop_exact g source result :
  distances_loop (traversal_fuel g) g [(source, 0)] (set_add source []) []
  = Some result ->
  forall x k, map_get x result = Some k <-> hops g k source x.
Proof.
  intros Hrun.
  destruct (distances_loop_invariant g source _ _ _ _ _ Hrun)
    as [visited [Hsrc [_ [HB [HC _]]]]].
  { split; [now left |]. split; [| split; [| split]].
    - intros v k [H | []]. injection H as <- <-.
      split; [constructor | intros m Hm; lia].
    - intros v k H. discriminate.
    - intros x [<- | []]. right. exists 0. now left.
    - simpl. split.
      + exists [], []. split; [reflexivity |]. split; [constructor |].
        split; [constructor |].
        intros x Hp. right. inversion Hp as [| ? ? y ? Hy Hyx]; subst.
        exists y. split; [| assumption]. inversion Hy; subst. now left.
      + intros x n Hn Hp. assert (n = 0) by lia. subst.
        inversion Hp; subst. now left. }
  intros x k. split; [intros H; apply (HB _ _ H) |].
  intros Hhops.
  assert (Hin : In x visited).
  { apply closed_path with (g := g) (x := source).
    - intros v c Hv Hvc. destruct (HC _ Hv) as [[kv Hkv] | [kv []]].
      destruct (HB _ _ Hkv) as [_ Hcl]. auto.
    - eapply path_len_path. apply Hhops.
    - assumption. }
  destruct (HC _ Hin) as [[k' Hk'] | [k' []]].
  rewrite Hk'. f_equal. destruct (HB _ _ Hk') as [Hh _].
  eapply hops_unique; eassumption.
Qed.

Lemma distances_from_exact g sources :
  forall distances result,
    distances_from g sources distances = Some result ->
    (forall s, In s sources -> exact_row g s (map_get s result)) /\
    (forall s, ~ In s sources -> map_get s result = map_get s distances).
Proof.
  induction sources as [| source sources IH]; cbn [distances_from];
    intros distances result Hrun.
  - injection Hrun as <-. split; [intros s [] | reflexivity].
  - destruct (distances_loop _ g _ _ _) as [row |] eqn:Hrow; [| discriminate].
    destruct (IH _ _ Hrun) as [Hin Hout].
    split.
    + intros s Hs.
      destruct (in_dec string_dec s sources) as [Hrest | Hnot]; [auto |].
      destruct Hs as [<- | Hs]; [| contradiction].
      rewrite (Hout _ Hnot), map_get_set_same.
      exists row. split; [reflexivity |]. now apply distances_loop_exact.
    + intros s Hs. rewrite Hout by (intros H; apply Hs; now right).
      apply map_get_set_other. intros ->. apply Hs. now left.
Qed.

(** X13. With an empty distance cache, [computeAllPairsDistances] returns
    (and caches) the matrix of exact distances: for a user [s], the entry
    for [x] is [k] exactly when [x] is [k] referrals away from [s], and
    there is no entry when no chain of referrals leads from [s] to [x]; a
    string that is no user has no row. *)
Theorem computeAllPairsDistances_exact a :
  distanceCache a = [] ->
  exists distances a',
    computeAllPairsDistances a = Some (distances, a') /\
    distanceCache a' = distances /\
    network a' = network a /\
    (forall s x k, In s (users (network a)) ->
       (distance distances s x = Some k <-> hops (network a) k s x)) /\
    (forall s x, ~ In s (users (network a)) -> distance distances s x = None).
Proof.
  intros Hcache.
  destruct (distances_from_returns (network a) (users (network a)) [])
    as [d Hd].
  destruct (distances_from_exact _ _ _ _ Hd) as [Hin Hout].
  exists d. eexists.
  unfold computeAllPairsDistances. rewrite Hcache, Hd. simpl.
  split; [reflexivity |]. split; [reflexivity |]. split; [reflexivity |]. split.
  - intros s x k Hs. unfold distance.
    destruct (Hin _ Hs) as [r [-> Hr]]. apply Hr.
  - intros s x Hs. unfold distance. now rewrite (Hout _ Hs).
Qed.

(** The chain a -> b -> c with nothing cached. *)
Lemma computeAllPairsDistances_exact_witness :
  distanceCache
    (NetworkAnalysis.mk
       (ReferralNetwork.mk [("a", ["b"]); ("b", ["c"]); ("c", [])]
          [("b", "a"); ("c", "b")] ["a"; "b"; "c"]) [] []) = [] /\
  exists distances a',
    computeAllPairsDistances
      (NetworkAnalysis.mk
         (ReferralNetwork.mk [("a", ["b"]); ("b", ["c"]); ("c", [])]
            [("b", "a"); ("c", "b")] ["a"; "b"; "c"]) [] [])
    = Some (distances, a') /\
    distanceCache a' = distances /\
    network a'
    = ReferralNetwork.mk [("a", ["b"]); ("b", ["c"]); ("c", [])]
        [("b", "a"); ("c", "b")] ["a"; "b"; "c"] /\
    (forall s x k, In s ["a"; "b"; "c"] ->
       (distance distances s x = Some k <->
        hops (ReferralNetwork.mk [("a", ["b"]); ("b", ["c"]); ("c", [])]
                [("b", "a"); ("c", "b")] ["a"; "b"; "c"]) k s x)) /\
    (forall s x, ~ In s ["a"; "b"; "c"] -> distance distances s x = None).
Proof.
  split; [reflexivity |].
  apply (computeAllPairsDistances_exact
           (NetworkAnalysis.mk
              (ReferralNetwork.mk [("a", ["b"]); ("b", ["c"]); ("c", [])]
                 [("b", "a"); ("c", "b")] ["a"; "b"; "c"]) [] [])).
  reflexivity.
Defined.


(** *** Who can be ranked as a broker *)

Lemma map_set_In_inv (V : Type) k (v : V) m b n :
  In (b, n) (map_set k v m) -> (b = k /\ n = v) \/ In (b, n) m.
Proof.
  induction m as [| [k' v'] m IH]; simpl.
  - intros [H | []]. injection H as <- <-. now left.
  - destruct (String.eqb k k').
    + intros [H | H]; [injection H as <- <-; now left | right; now right].
    + intros [H | H]; [right; now left |].
      destruct (IH H) as [? | ?]; [now left | right; now right].
Qed.

Lemma initial_scores_zero allUsers b n :
  In (b, n) (initial_scores allUsers) -> n = 0 /\ In b allUsers.
Proof.
  unfold initial_scores.
  assert (H : forall acc,
            (forall b n, In (b, n) acc -> n = 0 /\ In b allUsers) ->
            forall us, incl us allUsers ->
              forall b n,
                In (b, n) (fold_left (fun scores user => map_set user 0 scores) us acc) ->
                n = 0 /\ In b allUsers).
  { intros acc Hacc us. revert acc Hacc.
    induction us as [| u us IH]; simpl; intros acc Hacc Hincl b' n' Hin; [auto |].
    apply (IH (map_set u 0 acc)); [| intros x Hx; apply Hincl; now right | assumption].
    intros b0 n0 H0. apply map_set_In_inv in H0.
    destruct H0 as [[-> ->] | H0]; [| auto].
    split; [reflexivity | apply Hincl; now left]. }
  apply (H [] (fun b n (F : In (b, n) []) => match F with end) allUsers (incl_refl _)).
Qed.

Section Scoring.
Variable distances : list (string * list (string * nat)).
Variable allUsers : list string.
(** A property of every user that lies strictly between two others. *)
Variable between : string -> Prop.
Hypothesis between_intro :
  forall broker source target ds dt,
    broker <> source -> broker <> target ->
    distance distances source broker = Some ds ->
    distance distances broker target = Some dt ->
    between broker.

Lemma score_brokers_sound source target directDistance brokers :
  forall scores,
    (forall b n, In (b, n) scores -> In b allUsers /\ (0 < n -> between b)) ->
    forall b n,
      In (b, n) (score_brokers distances source target directDistance brokers scores) ->
      In b allUsers /\ (0 < n -> between b).
Proof.
  induction brokers as [| broker brokers IH]; cbn [score_brokers];
    intros scores Hinv; [exact Hinv |].
  destruct (String.eqb_spec broker source) as [-> | Hs]; simpl; [now apply IH |].
  destruct (String.eqb_spec broker target) as [-> | Ht]; simpl; [now apply IH |].
  destruct (distance distances source broker) as [ds |] eqn:Hds; [| now apply IH].
  destruct (distance distances broker target) as [dt |] eqn:Hdt; [| now apply IH].
  destruct (ds + dt =? directDistance)%nat; [| now apply IH].
  destruct (map_get broker scores) as [score |] eqn:Hget; [| now apply IH].
  apply IH. intros b n Hin. apply map_set_In_inv in Hin.
  destruct Hin as [[-> ->] | Hin]; [| auto].
  split; [| intros _; apply (between_intro broker source target ds dt); assumption].
  clear - Hget Hinv. induction scores as [| [k v] scores IHs]; simpl in *; [discriminate |].
  destruct (String.eqb_spec broker k) as [-> | Hne].
  - apply (Hinv k v). now left.
  - apply IHs; [| assumption]. intros b n Hin. apply Hinv. now right.
Qed.

Lemma score_targets_sound source targets :
  forall scores,
    (forall b n, In (b, n) scores -> In b allUsers /\ (0 < n -> between b)) ->
    forall b n,
      In (b, n) (score_targets distances allUsers source targets scores) ->
      In b allUsers /\ (0 < n -> between b).
Proof.
  induction targets as [| target targets IH]; cbn [score_targets];
    intros scores Hinv; [exact Hinv |].
  destruct (distance distances source target); [| now apply IH].
  apply IH. now apply score_brokers_sound.
Qed.

Lemma score_sources_sound sources :
  forall scores,
    (forall b n, In (b, n) scores -> In b allUsers /\ (0 < n -> between b)) ->
    forall b n,
      In (b, n) (score_sources distances allUsers sources scores) ->
      In b allUsers /\ (0 < n -> between b).
Proof.
  induction sources as [| source sources IH]; cbn [score_sources];
    intros scores Hinv; [exact Hinv |].
  apply IH. now apply score_targets_sound.
Qed.

End Scoring.

Lemma firstn_In (A : Type) (x : A) n l : In x (firstn n l) -> In x l.
Proof.
  revert l. induction n as [| n IH]; intros [| y l]; simpl; try tauto.
  intros [H | H]; [now left | right; auto].
Qed.

Lemma StronglySorted_firstn (A : Type) (R : A -> A -> Prop) n l :
  StronglySorted R l -> StronglySorted R (firstn n l).
Proof.
  revert l. induction n as [| n IH]; intros l Hl; [constructor |].
  destruct l as [| x l]; [constructor |]. simpl.
  inversion Hl as [| ? ? Hs Hall]; subst.
  constructor; [auto |].
  rewrite Forall_forall in *. intros y Hy. apply Hall.
  eapply firstn_In. eassumption.
Qed.

Lemma slice0_is_firstn (A : Type) (k : Z) (l : list A) :
  exists n, slice0 k l = firstn n l.
Proof. unfold slice0. destruct (0 <=? k)%Z; eauto. Qed.

Lemma byScoreDesc_key x y :
  (byScoreDesc x y <=? 0)%Z = (centralityScore y <=? centralityScore x)%nat.
Proof.
  unfold byScoreDesc.
  destruct (centralityScore y <=? centralityScore x)%nat eqn:E.
  - apply Nat.leb_le in E. apply Z.leb_le. lia.
  - apply Nat.leb_gt in E. apply Z.leb_gt. lia.
Qed.

(** X14. With an empty distance cache, every broker that
    [calculateFlowCentrality] ranks is a user with a positive score that
    has both a referrer and a direct referral, so a user without referrer
    or without referrals is never ranked; the ranking is sorted by score
    descending and, for [topK >= 0], has at most [topK] entries. *)
Theorem calculateFlowCentrality_ranks_inner_users a topK :
  distanceCache a = [] ->
  exists brokers a',
    calculateFlowCentrality a topK = Some (brokers, a') /\
    (forall broker, In broker brokers ->
       0 < centralityScore broker /\
       In (brokerId broker) (users (network a)) /\
       (exists referrer, edge (network a) referrer (brokerId broker)) /\
       (exists referral, edge (network a) (brokerId broker) referral)) /\
    StronglySorted (fun x y => centralityScore y <= centralityScore x) brokers /\
    ((0 <= topK)%Z -> List.length brokers <= Z.to_nat topK).
Proof.
  intros Hcache.
  destruct (distances_from_returns (network a) (users (network a)) [])
    as [d Hd].
  destruct (distances_from_exact _ _ _ _ Hd) as [Hin Hout].
  unfold calculateFlowCentrality, computeAllPairsDistances.
  rewrite Hcache, Hd. simpl.
  do 2 eexists. split; [reflexivity |].
  set (scores := score_sources d (users (network a)) (users (network a))
                   (initial_scores (users (network a)))).
  set (ranked := sort byScoreDesc
                   (filter (fun broker => (0 <? centralityScore broker)%nat)
                      (map (broker_of (List.length (users (network a)))) scores))).
  assert (Hreach : forall s x k, distance d s x = Some k -> path (network a) s x).
  { intros s x k. unfold distance.
    destruct (in_dec string_dec s (users (network a))) as [Hs | Hs].
    - destruct (Hin _ Hs) as [r [-> Hr]]. intros H. apply Hr in H.
      eapply path_len_path. apply H.
    - rewrite (Hout _ Hs). discriminate. }
  assert (Hscores : forall b n, In (b, n) scores ->
            In b (users (network a)) /\
            (0 < n ->
             (exists referrer, edge (network a) referrer b) /\
             (exists referral, edge (network a) b referral))).
  { apply (score_sources_sound d (users (network a))
             (fun b => (exists referrer, edge (network a) referrer b) /\
                       (exists referral, edge (network a) b referral))).
    - intros broker source target ds dt Hs Ht Hds Hdt. split.
      + destruct (path_last _ _ _ (Hreach _ _ _ Hds)) as [E | [v [_ Hv]]];
          [congruence | eauto].
      + destruct (path_first _ _ _ (Hreach _ _ _ Hdt)) as [E | [y [Hy _]]];
          [congruence | eauto].
    - intros b n Hb. destruct (initial_scores_zero _ _ _ Hb) as [-> Hu].
      split; [assumption | lia]. }
  destruct (slice0_is_firstn _ topK ranked) as [n Hn].
  split; [| split].
  - intros broker Hb. fold scores in Hb. fold ranked in Hb. rewrite Hn in Hb.
    apply firstn_In in Hb.
    apply (Permutation_in _ (sort_perm _ byScoreDesc _)) in Hb.
    apply filter_In in Hb. destruct Hb as [Hb Hpos].
    apply Nat.ltb_lt in Hpos. apply in_map_iff in Hb.
    destruct Hb as [[b sc] [<- Hb]]. simpl in *.
    destruct (Hscores _ _ Hb) as [Hu Hedges].
    split; [assumption |]. split; [assumption |]. auto.
  - fold scores. fold ranked. rewrite Hn. apply StronglySorted_firstn.
    apply (sort_sorted _ byScoreDesc centralityScore byScoreDesc_key).
  - intros Hk. fold scores. fold ranked.
    rewrite (slice0_firstn _ _ _ Hk). apply firstn_le_length.
Qed.

(** The chain a -> b -> c -> d with nothing cached. *)
Lemma calculateFlowCentrality_ranks_inner_users_witness :
  distanceCache
    (NetworkAnalysis.mk
       (ReferralNetwork.mk
          [("a", ["b"]); ("b", ["c"]); ("c", ["d"]); ("d", [])]
          [("b", "a"); ("c", "b"); ("d", "c")] ["a"; "b"; "c"; "d"]) [] []) = [] /\
  exists brokers a',
    calculateFlowCentrality
      (NetworkAnalysis.mk
         (ReferralNetwork.mk
            [("a", ["b"]); ("b", ["c"]); ("c", ["d"]); ("d", [])]
            [("b", "a"); ("c", "b"); ("d", "c")] ["a"; "b"; "c"; "d"]) [] []) 10
    = Some (brokers, a') /\
    (forall broker, In broker brokers ->
       0 < centralityScore broker /\
       In (brokerId broker) ["a"; "b"; "c"; "d"] /\
       (exists referrer,
          edge (ReferralNetwork.mk
                  [("a", ["b"]); ("b", ["c"]); ("c", ["d"]); ("d", [])]
                  [("b", "a"); ("c", "b"); ("d", "c")] ["a"; "b"; "c"; "d"])
            referrer (brokerId broker)) /\
       (exists referral,
          edge (ReferralNetwork.mk
                  [("a", ["b"]); ("b", ["c"]); ("c", ["d"]); ("d", [])]
                  [("b", "a"); ("c", "b"); ("d", "c")] ["a"; "b"; "c"; "d"])
            (brokerId broker) referral)) /\
    StronglySorted (fun x y => centralityScore y <= centralityScore x) brokers /\
    ((0 <= 10)%Z -> List.length brokers <= Z.to_nat 10).
Proof.
  split; [reflexivity |].
  apply (calculateFlowCentrality_ranks_inner_users
           (NetworkAnalysis.mk
              (ReferralNetwork.mk
                 [("a", ["b"]); ("b", ["c"]); ("c", ["d"]); ("d", [])]
                 [("b", "a"); ("c", "b"); ("d", "c")] ["a"; "b"; "c"; "d"]) [] []) 10).
  reflexivity.
Defined.


End InfluencerFacts.
(** ** More on the growth simulation *)

Module SimulationFacts.
Import NetworkGrowthSimulation SimulationProofs.
#[local] Open Scope float_scope.

(** *** Comparisons of JS numbers *)

Lemma SFcompare_antisym a b :
  SFcompare b a = option_map CompOpp (SFcompare a b).
Proof.
  destruct a as [s1 | s1 | | s1 m1 e1], b as [s2 | s2 | | s2 m2 e2]; simpl;
    try (destruct s1); try (destruct s2); try reflexivity.
  - rewrite (Z.compare_antisym e1 e2).
    change (Pos.compare_cont Eq m2 m1) with (Pos.compare_cont (CompOpp Eq) m2 m1).
    rewrite <- (Pos.compare_cont_antisym m1 m2 Eq).
    destruct (e1 ?= e2)%Z; simpl; reflexivity.
  - rewrite (Z.compare_antisym e1 e2).
    change (Pos.compare_cont Eq m2 m1) with (Pos.compare_cont (CompOpp Eq) m2 m1).
    rewrite <- (Pos.compare_cont_antisym m1 m2 Eq).
    destruct (e1 ?= e2)%Z; simpl; reflexivity.
Qed.

(** [x >= y] excludes [x < y]. *)
Lemma leb_not_ltb x y : (x <=? y) = true -> (y <? x) = false.
Proof.
  rewrite leb_spec, ltb_spec. unfold SFleb, SFltb.
  rewrite (SFcompare_antisym (Prim2SF x) (Prim2SF y)).
  destruct (SFcompare (Prim2SF x) (Prim2SF y)) as [[| |] |]; simpl; congruence.
Qed.

(** *** [simulate] *)

Lemma simulate_loop_prefix n m p activeReferrers cumulativeReferrals :
  simulate_loop n p activeReferrers cumulativeReferrals
  = firstn n (simulate_loop (n + m) p activeReferrers cumulativeReferrals).
Proof.
  revert activeReferrers cumulativeReferrals.
  induction n as [| n IH]; intros a c; [reflexivity |].
  cbn [simulate_loop Nat.add firstn]. f_equal. apply IH.
Qed.

Lemma simulate_inr p days results :
  simulate p days = inr results ->
  (p <? 0) = false /\ (1 <? p) = false /\ (0 <= days <= 10000)%Z /\
  results = simulate_loop (Z.to_nat days) p INITIAL_REFERRERS 0.
Proof.
  unfold simulate.
  destruct (p <? 0); [discriminate |]. destruct (1 <? p); [discriminate |].
  destruct (days <? 0)%Z eqn:Hlo; [discriminate |].
  destruct (10000 <? days)%Z eqn:Hhi; [discriminate |].
  simpl. intros H. injection H as <-.
  apply Z.ltb_ge in Hlo, Hhi. auto.
Qed.

(** X15. [simulate] checks the probability before the days: it throws
    'Probability must be between 0 and 1' exactly when [p < 0] or
    [p > 1], 'Days must be between 0 and 10000' exactly when the
    probability passes and the days are outside 0..10000, and otherwise
    returns one total per day. *)
Theorem simulate_outcome p days :
  match simulate p days with
  | inl ProbabilityOutOfRange => (p <? 0) = true \/ (1 <? p) = true
  | inl DaysOutOfRange =>
      (p <? 0) = false /\ (1 <? p) = false /\ (days < 0 \/ 10000 < days)%Z
  | inr results =>
      (p <? 0) = false /\ (1 <? p) = false /\ (0 <= days <= 10000)%Z /\
      List.length results = Z.to_nat days
  end.
Proof.
  unfold simulate.
  destruct (p <? 0); simpl; [now left |].
  destruct (1 <? p); simpl; [now right |].
  destruct (days <? 0)%Z eqn:Hlo; simpl.
  { apply Z.ltb_lt in Hlo. auto. }
  destruct (10000 <? days)%Z eqn:Hhi; simpl.
  { apply Z.ltb_lt in Hhi. auto. }
  apply Z.ltb_ge in Hlo, Hhi.
  rewrite simulate_loop_length. auto.
Qed.

(** X16. The totals of a shorter simulation are the first totals of a
    longer one with the same probability: the total of a day does not
    depend on how many days are simulated. *)
Theorem simulate_prefix p days1 days2 results1 results2 :
  (days1 <= days2)%Z ->
  simulate p days1 = inr results1 ->
  simulate p days2 = inr results2 ->
  results1 = firstn (Z.to_nat days1) results2.
Proof.
  intros Hle H1 H2.
  apply simulate_inr in H1, H2.
  destruct H1 as [_ [_ [Hd1 ->]]], H2 as [_ [_ [Hd2 ->]]].
  replace (Z.to_nat days2) with (Z.to_nat days1 + Z.to_nat (days2 - days1))%nat by lia.
  apply simulate_loop_prefix.
Qed.

Lemma simulate_prefix_witness :
  (2 <= 3)%Z /\
  simulate 0.5 2 = inr [50; 122.5] /\
  simulate 0.5 3 = inr [50; 122.5; 227.625] /\
  [50; 122.5] = firstn (Z.to_nat 2) [50; 122.5; 227.625].
Proof.
  split; [lia |].
  split; [vm_compute; reflexivity |].
  split; [vm_compute; reflexivity |].
  apply (simulate_prefix 0.5 2 3 [50; 122.5] [50; 122.5; 227.625]);
    [lia | vm_compute; reflexivity | vm_compute; reflexivity].
Defined.

(** *** [linearSearchDays] *)

Lemma simulate_loop_S n p activeReferrers cumulativeReferrals :
  simulate_loop (S n) p activeReferrers cumulativeReferrals
  = (cumulativeReferrals + activeReferrers * p)
    :: simulate_loop n p
         (JsMath.max 0
            (activeReferrers
             - JsMath.min activeReferrers
                 (activeReferrers * p / MAX_REFERRALS_PER_USER)
             + activeReferrers * p))
         (cumulativeReferrals + activeReferrers * p).
Proof. reflexivity. Qed.

Lemma linearSearchDays_loop_days p targetTotal fuel :
  forall day activeReferrers cumulativeReferrals d,
    linearSearchDays_loop fuel p targetTotal day activeReferrers
      cumulativeReferrals = Some (Days d) ->
    (day - 1 <= d)%Z /\
    ((d = day - 1)%Z -> (cumulativeReferrals <? targetTotal) = false) /\
    ((day <= d)%Z ->
     (cumulativeReferrals <? targetTotal) = true /\
     (forall i x,
        (i < Z.to_nat (d - day))%nat ->
        nth_error (simulate_loop (S (Z.to_nat (d - day))) p activeReferrers
                     cumulativeReferrals) i = Some x ->
        (x <? targetTotal) = true) /\
     exists x,
       nth_error (simulate_loop (S (Z.to_nat (d - day))) p activeReferrers
                    cumulativeReferrals) (Z.to_nat (d - day)) = Some x /\
       (x <? targetTotal) = false).
Proof.
  induction fuel as [| fuel IH]; intros day a c d; [discriminate |].
  cbn [linearSearchDays_loop].
  destruct (c <? targetTotal) eqn:Hc.
  2:{ intros H. injection H as <-.
      split; [lia |]. split; [auto | lia]. }
  destruct (targetTotal <=? c + a * p) eqn:Hreach.
  { intros H. injection H as <-.
    split; [lia |]. split; [lia |]. intros _.
    split; [reflexivity |].
    replace (Z.to_nat (day - day)) with 0%nat by lia.
    split; [intros i x Hi; lia |].
    rewrite simulate_loop_S. cbn [nth_error].
    eexists. split; [reflexivity |]. now apply leb_not_ltb. }
  destruct (20000 <? day + 1)%Z; [discriminate |].
  intros H. apply IH in H. destruct H as [Hge [Hstop Hgo]].
  split; [lia |]. split; [lia |]. intros _.
  split; [reflexivity |].
  destruct (Z.eq_dec d day) as [-> | Hne].
  - replace (Z.to_nat (day - day)) with 0%nat by lia.
    split; [intros i x Hi; lia |].
    rewrite simulate_loop_S. cbn [nth_error].
    eexists. split; [reflexivity |]. apply Hstop. lia.
  - destruct Hgo as [Hbelow [Hearlier [x [Hx Hlast]]]]; [lia |].
    replace (Z.to_nat (d - day)) with (S (Z.to_nat (d - (day + 1)))) by lia.
    rewrite simulate_loop_S. split.
    + intros [| i] y Hi; cbn [nth_error].
      * intros Hy. injection Hy as <-. exact Hbelow.
      * apply Hearlier. lia.
    + exists x. split; [exact Hx | exact Hlast].
Qed.

Lemma linearSearchDays_loop_unreachable p targetTotal fuel :
  forall day activeReferrers cumulativeReferrals,
    linearSearchDays_loop fuel p targetTotal day activeReferrers
      cumulativeReferrals = Some Unreachable ->
    (day <= 20000)%Z ->
    forall i x,
      nth_error (simulate_loop (Z.to_nat (20001 - day)) p activeReferrers
                   cumulativeReferrals) i = Some x ->
      (targetTotal <=? x) = false.
Proof.
  induction fuel as [| fuel IH]; intros day a c; [discriminate |].
  cbn [linearSearchDays_loop].
  destruct (c <? targetTotal); [| discriminate].
  destruct (targetTotal <=? c + a * p) eqn:Hreach; [discriminate |].
  destruct (20000 <? day + 1)%Z eqn:Hlimit; intros H Hday i x.
  - apply Z.ltb_lt in Hlimit.
    replace (Z.to_nat (20001 - day)) with 1%nat by lia.
    rewrite simulate_loop_S. cbn [simulate_loop].
    destruct i as [| i]; cbn [nth_error].
    + intros Hx. injection Hx as <-. exact Hreach.
    + destruct i; cbn [nth_error]; intros Hx; discriminate Hx.
  - apply Z.ltb_ge in Hlimit.
    replace (Z.to_nat (20001 - day)) with (S (Z.to_nat (20001 - (day + 1)))) by lia.
    rewrite simulate_loop_S.
    destruct i as [| i]; cbn [nth_error].
    + intros Hx. injection Hx as <-. exact Hreach.
    + apply (IH _ _ _ H). lia.
Qed.

Lemma linearSearchDays_loop_no_throw p targetTotal fuel :
  forall day activeReferrers cumulativeReferrals e,
    linearSearchDays_loop fuel p targetTotal day activeReferrers
      cumulativeReferrals <> Some (Threw e).
Proof.
  induction fuel as [| fuel IH]; intros day a c e; [discriminate |].
  cbn [linearSearchDays_loop].
  destruct (c <? targetTotal); [| discriminate].
  destruct (targetTotal <=? c + a * p); [discriminate |].
  destruct (20000 <? day + 1)%Z; [discriminate | apply IH].
Qed.

(** X17. [linearSearchDays] returns and never throws.  A day count [d] it
    returns is the first day whose total is not below the target: the
    totals of the days before [d] are below it, the total of day [d] is
    not, and [d] is 0 exactly when 0 is not below the target.  It returns
    [Infinity] only when none of the first 20000 totals reaches the
    target. *)
Theorem linearSearchDays_first_day p targetTotal :
  match linearSearchDays p targetTotal with
  | Some (Days d) =>
      (0 <= d)%Z /\
      (d = 0%Z <-> (0 <? targetTotal) = false) /\
      (forall i x,
         (i < Z.to_nat d - 1)%nat ->
         nth_error (simulate_loop (Z.to_nat d) p INITIAL_REFERRERS 0) i = Some x ->
         (x <? targetTotal) = true) /\
      ((1 <= d)%Z ->
       exists x,
         nth_error (simulate_loop (Z.to_nat d) p INITIAL_REFERRERS 0)
           (Z.to_nat d - 1) = Some x /\
         (x <? targetTotal) = false)
  | Some Unreachable =>
      forall i x,
        nth_error (simulate_loop (Z.to_nat 20000) p INITIAL_REFERRERS 0) i = Some x ->
        (targetTotal <=? x) = false
  | Some (Threw _) => False
  | None => False
  end.
Proof.
  destruct (linearSearchDays_loop_returns p targetTotal (Z.to_nat 20001)
              1 INITIAL_REFERRERS 0) as [r Hr];
    [lia | apply Z2Nat.inj_le; lia |].
  unfold linearSearchDays. rewrite Hr.
  destruct r as [d | | e].
  - destruct (linearSearchDays_loop_days _ _ _ _ _ _ _ Hr) as [Hge [Hstop Hgo]].
    split; [lia |]. split; [| split].
    + split; [intros ->; apply Hstop; reflexivity |].
      intros H0. destruct (Z_lt_le_dec d 1) as [Hd | Hd]; [lia |].
      destruct (Hgo Hd) as [Hbelow _]. congruence.
    + intros i x Hi. assert (Hd : (1 <= d)%Z) by lia.
      destruct (Hgo Hd) as [_ [Hearlier _]].
      replace (Z.to_nat d) with (S (Z.to_nat (d - 1))) by lia.
      apply Hearlier. lia.
    + intros Hd. destruct (Hgo Hd) as [_ [_ Hlast]].
      replace (Z.to_nat d) with (S (Z.to_nat (d - 1))) by lia.
      replace (S (Z.to_nat (d - 1)) - 1)%nat with (Z.to_nat (d - 1)) by lia.
      exact Hlast.
  - replace (Z.to_nat 20000) with (Z.to_nat (20001 - 1)) by (f_equal; lia).
    apply (linearSearchDays_loop_unreachable _ _ _ _ _ _ Hr). lia.
  - exact (linearSearchDays_loop_no_throw _ _ _ _ _ _ _ Hr).
Qed.

(** *** [binarySearchDays] *)

Lemma raise_high_bound p targetTotal fuel :
  forall high highSimulation r,
    raise_high fuel p targetTotal high highSimulation = Some r ->
    (high <= 10000)%Z ->
    match r with
    | inl (Threw _) => True
    | inl _ => False
    | inr h => (h <= 10000)%Z
    end.
Proof.
  induction fuel as [| fuel IH]; intros high sim r; [discriminate |].
  cbn [raise_high].
  destruct (below sim (high - 1) targetTotal).
  2:{ intros H Hhigh. injection H as <-. exact Hhigh. }
  destruct (200000 <? high * 2)%Z eqn:Hlimit.
  { intros _ Hhigh. apply Z.ltb_lt in Hlimit. lia. }
  destruct (simulate p (high * 2)) as [e | sim'] eqn:Hsim.
  { intros H _. injection H as <-. exact I. }
  intros H _. apply (IH _ _ _ H).
  apply simulate_inr in Hsim. lia.
Qed.

Lemma narrow_bounds p targetTotal fuel :
  forall low high r,
    narrow fuel p targetTotal low high = Some r ->
    (1 <= low)%Z ->
    (low = 1%Z \/
     exists results,
       simulate p (low - 1) = inr results /\
       reaches results (low - 2) targetTotal = false) ->
    match r with
    | Days d =>
        (low <= d <= Z.max low high)%Z /\
        (d = 1%Z \/
         exists results,
           simulate p (d - 1) = inr results /\
           reaches results (d - 2) targetTotal = false)
    | Unreachable => False
    | Threw _ => True
    end.
Proof.
  induction fuel as [| fuel IH]; intros low high r; [discriminate |].
  cbn [narrow].
  destruct (low <? high)%Z eqn:Hlt.
  2:{ intros H Hlow Hbefore. injection H as <-. split; [lia | exact Hbefore]. }
  apply Z.ltb_lt in Hlt.
  assert (Hmid : (low <= (low + high) / 2 < high)%Z).
  { split; [apply Z.div_le_lower_bound | apply Z.div_lt_upper_bound]; lia. }
  destruct (simulate p ((low + high) / 2)) as [e | results] eqn:Hsim.
  { intros H _ _. injection H as <-. exact I. }
  destruct ((0 <? List.length results)%nat
            && reaches results ((low + high) / 2 - 1) targetTotal)%bool eqn:Hcheck;
    intros H Hlow Hbefore.
  - specialize (IH _ _ _ H Hlow Hbefore).
    destruct r as [d | | e]; [| exact IH | exact I].
    destruct IH as [Hd Hprev]. split; [lia | exact Hprev].
  - assert (Hnext : (1 <= (low + high) / 2 + 1)%Z) by lia.
    assert (Hfails : reaches results ((low + high) / 2 - 1) targetTotal = false).
    { apply andb_false_iff in Hcheck. destruct Hcheck as [Hlen | Hr]; [| exact Hr].
      apply Nat.ltb_ge in Hlen. apply simulate_length in Hsim. lia. }
    assert (Hbefore' :
              ((low + high) / 2 + 1 = 1)%Z \/
              exists results0,
                simulate p ((low + high) / 2 + 1 - 1) = inr results0 /\
                reaches results0 ((low + high) / 2 + 1 - 2) targetTotal = false).
    { right. exists results.
      replace ((low + high) / 2 + 1 - 1)%Z with ((low + high) / 2)%Z by lia.
      replace ((low + high) / 2 + 1 - 2)%Z with ((low + high) / 2 - 1)%Z by lia.
      split; assumption. }
    specialize (IH _ _ _ H Hnext Hbefore').
    destruct r as [d | | e]; [| exact IH | exact I].
    destruct IH as [Hd Hprev]. split; [lia | exact Hprev].
Qed.

(** X18. [binarySearchDays] returns or throws, and it never returns
    [Infinity]: a bound above 10000 days makes [simulate] throw before the
    test against 200000 can succeed.  A day count [d] it returns lies in
    1..10000, and for [d > 1] the simulation of [d - 1] days was refused
    by the search: its last total does not reach the target. *)
Theorem binarySearchDays_never_unreachable p targetTotal :
  match binarySearchDays p targetTotal with
  | Some (Days d) =>
      (1 <= d <= 10000)%Z /\
      ((1 < d)%Z ->
       exists results,
         simulate p (d - 1) = inr results /\
         reaches results (d - 2) targetTotal = false)
  | Some Unreachable => False
  | Some (Threw _) => True
  | None => False
  end.
Proof.
  destruct (binarySearchDays_returns p targetTotal) as [r Hr].
  rewrite Hr. revert Hr. unfold binarySearchDays.
  destruct (simulate_at p _) as [e | sim] eqn:Hsim.
  { intros H. injection H as <-. exact I. }
  destruct (JsMath.to_integral _) as [high | s |].
  - simpl in Hsim. apply simulate_inr in Hsim.
    destruct (raise_high 19 p targetTotal high sim) as [[r' | h] |] eqn:Hraise;
      [| | discriminate].
    + intros H. injection H as <-.
      apply raise_high_bound in Hraise; [| lia].
      destruct r' as [d | | e]; [destruct Hraise | destruct Hraise | exact I].
    + intros H. apply raise_high_bound in Hraise; [| lia].
      apply narrow_bounds in H; [| lia | now left].
      destruct r as [d | | e]; [| exact H | exact I].
      destruct H as [Hd Hprev]. split; [lia |].
      intros Hgt. destruct Hprev as [-> | Hprev]; [lia | exact Hprev].
  - intros H. injection H as <-. split; [lia | lia].
  - intros H. injection H as <-. split; [lia | lia].
Qed.

End SimulationFacts.

(** ** More on the bonus search *)

Module BonusFacts.
Import NetworkGrowthSimulation BonusOptimization.
#[local] Open Scope float_scope.

Lemma findMaxSearchBonus_loop_meets n adoptionProb targetHires days :
  forall testBonus bonus,
    findMaxSearchBonus_loop n adoptionProb targetHires days testBonus
    = inr (Some bonus) ->
    (exists k, (k < n)%nat /\ bonus = Nat.iter k (fun b => b * 2) testBonus) /\
    (bonus = testBonus \/ (100000 <? bonus) = false) /\
    exists results,
      simulate (adoptionProb bonus) days = inr results /\
      (targetHires <=? finalHires results) = true.
Proof.
  induction n as [| n IH]; intros testBonus bonus; [discriminate |].
  cbn [findMaxSearchBonus_loop].
  assert (Hhere : forall results,
            simulate (adoptionProb testBonus) days = inr results ->
            (targetHires <=? finalHires results) = true ->
            (exists k, (k < S n)%nat /\
                       testBonus = Nat.iter k (fun b => b * 2) testBonus) /\
            (testBonus = testBonus \/ (100000 <? testBonus) = false) /\
            exists results0,
              simulate (adoptionProb testBonus) days = inr results0 /\
              (targetHires <=? finalHires results0) = true).
  { intros results Hsim Hmeets. split; [exists 0%nat; split; [lia | reflexivity] |].
    split; [now left | eauto]. }
  destruct (0.99 <=? adoptionProb testBonus).
  - destruct (simulate (adoptionProb testBonus) days) as [e | results] eqn:Hsim;
      [discriminate |].
    destruct (targetHires <=? finalHires results) eqn:Hmeets; [| discriminate].
    intros H. injection H as <-. rewrite Hsim. now apply (Hhere results).
  - destruct (simulate (adoptionProb testBonus) days) as [e | results] eqn:Hsim;
      [discriminate |].
    destruct (targetHires <=? finalHires results) eqn:Hmeets.
    { intros H. injection H as <-. rewrite Hsim. now apply (Hhere results). }
    destruct (100000 <? testBonus * 2) eqn:Hlimit; [discriminate |].
    intros H. apply IH in H.
    destruct H as [[k [Hk Hbonus]] [Hcap Hresults]].
    split; [| split; [| exact Hresults]].
    + exists (S k). split; [lia |].
      rewrite Hbonus. clear. revert testBonus.
      induction k as [| k IHk]; intros testBonus; [reflexivity |].
      change (Nat.iter k (fun b => b * 2) (testBonus * 2) * 2
              = Nat.iter (S k) (fun b => b * 2) testBonus * 2).
      now rewrite IHk.
    + right. destruct Hcap as [-> | Hcap]; assumption.
Qed.

(** X19. A bonus that [findMaxSearchBonus] returns is 10 doubled fewer
    than 20 times, is 10 or not above 100000, and meets the target: the
    simulation with its adoption probability returns, and its final
    total is at least [targetHires]. *)
Theorem findMaxSearchBonus_meets_target adoptionProb targetHires days bonus :
  findMaxSearchBonus adoptionProb targetHires days = inr (Some bonus) ->
  (exists k, (k < 20)%nat /\ bonus = Nat.iter k (fun b => b * 2) 10) /\
  (100000 <? bonus) = false /\
  exists results,
    simulate (adoptionProb bonus) days = inr results /\
    (targetHires <=? finalHires results) = true.
Proof.
  intros H. apply findMaxSearchBonus_loop_meets in H.
  destruct H as [Hk [Hcap Hresults]].
  split; [exact Hk |]. split; [| exact Hresults].
  destruct Hcap as [-> | Hcap]; [reflexivity | exact Hcap].
Qed.

Lemma findMaxSearchBonus_meets_target_witness :
  findMaxSearchBonus half_and_up 70 1 = inr (Some 320) /\
  (exists k, (k < 20)%nat /\ 320 = Nat.iter k (fun b => b * 2) 10) /\
  (100000 <? 320) = false /\
  exists results,
    simulate (half_and_up 320) 1 = inr results /\
    (70 <=? finalHires results) = true.
Proof.
  split; [vm_compute; reflexivity |].
  apply (findMaxSearchBonus_meets_target half_and_up 70 1 320).
  vm_compute; reflexivity.
Defined.

Lemma minBonus_loop_meets fuel days targetHires adoptionProb eps :
  forall low high bestBonus best,
    minBonus_loop fuel days targetHires adoptionProb eps low high bestBonus
    = Some (inr (Some best)) ->
    bestBonus = Some best \/
    exists results,
      simulate (adoptionProb best) days = inr results /\
      (targetHires <=? finalHires results) = true.
Proof.
  induction fuel as [| fuel IH]; intros low high bestBonus best; [discriminate |].
  cbn [minBonus_loop].
  destruct (eps <? high - low).
  2:{ intros H. injection H as ->. now left. }
  destruct (simulate (adoptionProb ((low + high) / 2)) days) as [e | results] eqn:Hsim;
    [discriminate |].
  destruct (targetHires <=? finalHires results) eqn:Hmeets; intros H; apply IH in H.
  - destruct H as [H | H]; [| now right].
    injection H as <-. right. eauto.
  - exact H.
Qed.

(** X20. A bonus that [minBonusForTarget] returns is the rounding up to
    a multiple of 10 of a bonus the search has tried and found to meet
    the target, and it is only returned for [days > 0] and not
    [targetHires <= 0]. *)
Theorem minBonusForTarget_rounds_a_tested_bonus
  fuel days targetHires adoptionProb eps bonus :
  minBonusForTarget fuel days targetHires adoptionProb eps
  = Some (inr (Some bonus)) ->
  (0 < days)%Z /\ (targetHires <=? 0) = false /\
  exists bestBonus results,
    bonus = JsMath.ceil (bestBonus / 10) * 10 /\
    simulate (adoptionProb bestBonus) days = inr results /\
    (targetHires <=? finalHires results) = true.
Proof.
  unfold minBonusForTarget.
  destruct (days <=? 0)%Z eqn:Hdays; [discriminate |].
  destruct (targetHires <=? 0) eqn:Htarget; [discriminate |]. simpl.
  apply Z.leb_gt in Hdays.
  destruct (findMaxSearchBonus adoptionProb targetHires days) as [e | [maxBonus |]];
    [discriminate | | discriminate].
  destruct (minBonus_loop fuel days targetHires adoptionProb eps 0 maxBonus None)
    as [[e | [best |]] |] eqn:Hloop; try discriminate.
  intros H. injection H as <-.
  apply minBonus_loop_meets in Hloop.
  destruct Hloop as [Hnone | [results [Hsim Hmeets]]]; [discriminate |].
  split; [exact Hdays |]. split; [reflexivity |].
  exists best, results. auto.
Qed.

Lemma minBonusForTarget_rounds_a_tested_bonus_witness :
  minBonusForTarget 64 1 50 half_and_up 0.001 = Some (inr (Some 10)) /\
  (0 < 1)%Z /\ (50 <=? 0) = false /\
  exists bestBonus results,
    10 = JsMath.ceil (bestBonus / 10) * 10 /\
    simulate (half_and_up bestBonus) 1 = inr results /\
    (50 <=? finalHires results) = true.
Proof.
  split; [vm_compute; reflexivity |].
  apply (minBonusForTarget_rounds_a_tested_bonus 64 1 50 half_and_up 0.001 10).
  vm_compute; reflexivity.
Defined.

End BonusFacts.

